(** * go-keychain: the value bridge and the attributed item query engine

    A shallow embedding of [corefoundation.go] and [keychain.go].  The Go
    code talks to two foreign libraries through cgo: CoreFoundation (opaque,
    reference counted, type tagged values) and the Security framework (the
    item store).  Both are modelled here as far as the Go code observes them:
    CoreFoundation as a table of retain-counted objects indexed by address,
    the item store as an interface whose instances are arbitrary. *)

From Stdlib Require Import ZArith NArith Lia Ascii String List.
From stdpp Require Import base option list gmap fin_maps strings.
From stdpp Require Import pretty.

Open Scope Z_scope.

(** ** UTF-8, as Go's [unicode/utf8] and CoreFoundation see it *)

Module utf8.

Definition RuneSelf : N := 0x80.
Definition locb : N := 0x80.
Definition hicb : N := 0xBF.

(** The [first] table of [unicode/utf8] for a lead byte [>= RuneSelf]:
    the length of the sequence and the range accepted for its second byte
    ([acceptRanges]); [None] is the table's [xx]. *)
Definition first (b : N) : option (N * N * N) :=
  (if b <? 0xC2 then None
   else if b <=? 0xDF then Some (2, locb, hicb)
   else if b =? 0xE0 then Some (3, 0xA0, hicb)
   else if b <=? 0xEC then Some (3, locb, hicb)
   else if b =? 0xED then Some (3, locb, 0x9F)
   else if b <=? 0xEF then Some (3, locb, hicb)
   else if b =? 0xF0 then Some (4, 0x90, hicb)
   else if b <=? 0xF3 then Some (4, locb, hicb)
   else if b =? 0xF4 then Some (4, locb, 0x8F)
   else None)%N.

Definition outside (lo hi c : N) : bool := ((c <? lo) || (hi <? c))%N.

(** [utf8.ValidString]: the loop of the Go library, one sequence per turn. *)
Fixpoint ValidString (s : string) : bool :=
  match s with
  | EmptyString => true
  | String c0 s1 =>
    let si := N_of_ascii c0 in
    if (si <? RuneSelf)%N then ValidString s1
    else
      match first si with
      | None => false
      | Some (size, lo, hi) =>
        match s1 with
        | EmptyString => false
        | String c1 s2 =>
          if outside lo hi (N_of_ascii c1) then false
          else if (size =? 2)%N then ValidString s2
          else
            match s2 with
            | EmptyString => false
            | String c2 s3 =>
              if outside locb hicb (N_of_ascii c2) then false
              else if (size =? 3)%N then ValidString s3
              else
                match s3 with
                | EmptyString => false
                | String c3 s4 =>
                  if outside locb hicb (N_of_ascii c3) then false
                  else ValidString s4
                end
            end
        end
      end
  end.

(** The scalar value carried by a well-formed sequence of 1 to 4 bytes. *)
Definition scalar1 (b0 : N) : N := b0.
Definition scalar2 (b0 b1 : N) : N := ((b0 - 0xC0) * 64 + (b1 - 0x80))%N.
Definition scalar3 (b0 b1 b2 : N) : N :=
  ((b0 - 0xE0) * 4096 + (b1 - 0x80) * 64 + (b2 - 0x80))%N.
Definition scalar4 (b0 b1 b2 b3 : N) : N :=
  ((b0 - 0xF0) * 262144 + (b1 - 0x80) * 4096 + (b2 - 0x80) * 64 + (b3 - 0x80))%N.

(** Decoding of a byte string into Unicode scalar values, the way
    [CFStringCreateWithBytes] reads [kCFStringEncodingUTF8]: [None] when the
    bytes are not well-formed UTF-8. *)
Fixpoint decode (s : string) : option (list N) :=
  match s with
  | EmptyString => Some []
  | String c0 s1 =>
    let b0 := N_of_ascii c0 in
    if (b0 <? RuneSelf)%N then cons (scalar1 b0) <$> decode s1
    else
      match first b0 with
      | None => None
      | Some (size, lo, hi) =>
        match s1 with
        | EmptyString => None
        | String c1 s2 =>
          let b1 := N_of_ascii c1 in
          if outside lo hi b1 then None
          else if (size =? 2)%N then cons (scalar2 b0 b1) <$> decode s2
          else
            match s2 with
            | EmptyString => None
            | String c2 s3 =>
              let b2 := N_of_ascii c2 in
              if outside locb hicb b2 then None
              else if (size =? 3)%N then cons (scalar3 b0 b1 b2) <$> decode s3
              else
                match s3 with
                | EmptyString => None
                | String c3 s4 =>
                  let b3 := N_of_ascii c3 in
                  if outside locb hicb b3 then None
                  else cons (scalar4 b0 b1 b2 b3) <$> decode s4
                end
            end
        end
      end
  end.

(** The UTF-8 bytes of one scalar value. *)
Definition encode_rune (cp : N) : string :=
  (if cp <? 0x80 then String (ascii_of_N cp) EmptyString
   else if cp <? 0x800 then
     String (ascii_of_N (0xC0 + cp / 64))
       (String (ascii_of_N (0x80 + cp mod 64)) EmptyString)
   else if cp <? 0x10000 then
     String (ascii_of_N (0xE0 + cp / 4096))
       (String (ascii_of_N (0x80 + (cp / 64) mod 64))
          (String (ascii_of_N (0x80 + cp mod 64)) EmptyString))
   else
     String (ascii_of_N (0xF0 + cp / 262144))
       (String (ascii_of_N (0x80 + (cp / 4096) mod 64))
          (String (ascii_of_N (0x80 + (cp / 64) mod 64))
             (String (ascii_of_N (0x80 + cp mod 64)) EmptyString))))%N.

Fixpoint encode (cps : list N) : string :=
  match cps with
  | [] => EmptyString
  | cp :: rest => String.append (encode_rune cp) (encode rest)
  end.

(** The number of UTF-16 code units of a scalar value: what
    [CFStringGetLength] counts. *)
Definition utf16_units (cp : N) : Z := if (cp <? 0x10000)%N then 1 else 2.

Fixpoint utf16_length (cps : list N) : Z :=
  match cps with
  | [] => 0
  | cp :: rest => utf16_units cp + utf16_length rest
  end.

End utf8.

(** ** Go values that cross the bridge *)

(** A Go slice is [nil] or holds elements; [len] of both [nil] and the empty
    slice is 0. *)
Definition slice (A : Type) : Type := option (list A).

Definition len {A : Type} (s : slice A) : nat :=
  match s with
  | None => 0%nat
  | Some l => length l
  end.

Definition elems {A : Type} (s : slice A) : list A := default [] s.

(** Go [error] values: [errors.New] and [fmt.Errorf] without [%w] give an
    [errorString], [fmt.Errorf] with [%w] wraps, and [keychain.Error] is an
    [OSStatus].  The [nil] error is [None]. *)
Inductive error : Type :=
  | errorString (msg : string)
  | wrapError (msg : string) (err : error)
  | KeychainError (code : Z).

Definition MaxUint32 : Z := 4294967295.

(** Conversion to a signed C or Go integer of [w] bits. *)
Definition to_signed (w : Z) (v : Z) : Z :=
  (v + 2 ^ (w - 1)) mod 2 ^ w - 2 ^ (w - 1).

(** Conversion to an unsigned integer of [w] bits. *)
Definition to_unsigned (w : Z) (v : Z) : Z := v mod 2 ^ w.

(** ** CoreFoundation: type tagged, retain counted objects *)

(** [C.CFTypeRef] is a [uintptr]; 0 is [NULL]. *)
Abbreviation CFTypeRef := Z.

Inductive CFTypeID : Type :=
  | CFStringTypeID
  | CFDictionaryTypeID
  | CFArrayTypeID
  | CFDataTypeID
  | CFNumberTypeID
  | CFBooleanTypeID
  | CFDateTypeID
  | CFOtherTypeID (id : Z).

Global Instance CFTypeID_eq_dec : EqDecision CFTypeID.
Proof. solve_decision. Defined.

(** [CFNumberType], the values of [CFNumber.h]. *)
Definition CFNumberType : Type := Z.
Definition kCFNumberSInt8Type : CFNumberType := 1.
Definition kCFNumberSInt16Type : CFNumberType := 2.
Definition kCFNumberSInt32Type : CFNumberType := 3.
Definition kCFNumberSInt64Type : CFNumberType := 4.
Definition kCFNumberFloat32Type : CFNumberType := 5.
Definition kCFNumberFloat64Type : CFNumberType := 6.
Definition kCFNumberCharType : CFNumberType := 7.
Definition kCFNumberShortType : CFNumberType := 8.
Definition kCFNumberIntType : CFNumberType := 9.
Definition kCFNumberLongType : CFNumberType := 10.
Definition kCFNumberLongLongType : CFNumberType := 11.
Definition kCFNumberFloatType : CFNumberType := 12.
Definition kCFNumberDoubleType : CFNumberType := 13.
Definition kCFNumberCFIndexType : CFNumberType := 14.
Definition kCFNumberNSIntegerType : CFNumberType := 15.
Definition kCFNumberCGFloatType : CFNumberType := 16.

(** The objects.  A string holds Unicode scalar values; a number holds its
    declared subtype and its value (the integer for an integer subtype, the
    IEEE bit pattern for a floating-point one); containers hold references. *)
Inductive CFObject : Type :=
  | CFString (chars : list N)
  | CFData (bytes : list Byte.byte)
  | CFNumber (typ : CFNumberType) (value : Z)
  | CFBoolean (b : bool)
  | CFDate (absoluteTime : Z)
  | CFDictionary (entries : list (CFTypeRef * CFTypeRef))
  | CFArray (values : list CFTypeRef)
  | CFOpaque (id : Z).

Record CFCell : Type := Cell { object : CFObject; retainCount : nat }.

(** The objects alive at a moment, by address. *)
Abbreviation CFHeap := (gmap Z CFCell).

(** What a call does: it returns a value and leaves a heap, or the Go
    runtime panics, or the C side is handed a reference that is dead or
    of another type than the one it is cast to, where the behaviour of the
    real program is undefined. *)
Inductive Outcome (A : Type) : Type :=
  | Returns (a : A) (h : CFHeap)
  | Panics (msg : string)
  | Crashes.
Arguments Returns {A} a h.
Arguments Panics {A} msg.
Arguments Crashes {A}.

Definition M (A : Type) : Type := CFHeap → Outcome A.

Global Instance M_ret : MRet M := λ A a h, Returns a h.

Global Instance M_bind : MBind M := λ A B f m h,
  match m h with
  | Returns a h' => f a h'
  | Panics msg => Panics msg
  | Crashes => Crashes
  end.

Definition panic {A : Type} (msg : string) : M A := λ _, Panics msg.
Definition crash {A : Type} : M A := λ _, Crashes.

Module CF.

(** The address the allocator hands out next: above every live object, and
    never [NULL]. *)
Definition next_ref (h : CFHeap) : CFTypeRef :=
  1 + foldr Z.max 0 (map_to_list h).*1.

Definition create (o : CFObject) : M CFTypeRef :=
  λ h, let r := next_ref h in Returns r (<[r := Cell o 1]> h).

Definition deref (r : CFTypeRef) : M CFObject :=
  λ h, match h !! r with
       | Some c => Returns (object c) h
       | None => Crashes
       end.

Definition CFRetain (r : CFTypeRef) : M unit :=
  λ h, match h !! r with
       | Some c => Returns tt (<[r := Cell (object c) (S (retainCount c))]> h)
       | None => Crashes
       end.

(** Releasing the last reference frees the object.  (What CoreFoundation
    then does to the children of a freed container is its own business and
    is not followed here.) *)
Definition CFRelease (r : CFTypeRef) : M unit :=
  λ h, match h !! r with
       | Some c =>
         if (retainCount c <=? 1)%nat then Returns tt (delete r h)
         else Returns tt (<[r := Cell (object c) (pred (retainCount c))]> h)
       | None => Crashes
       end.

Definition type_of (o : CFObject) : CFTypeID :=
  match o with
  | CFString _ => CFStringTypeID
  | CFDictionary _ => CFDictionaryTypeID
  | CFArray _ => CFArrayTypeID
  | CFData _ => CFDataTypeID
  | CFNumber _ _ => CFNumberTypeID
  | CFBoolean _ => CFBooleanTypeID
  | CFDate _ => CFDateTypeID
  | CFOpaque id => CFOtherTypeID id
  end.

Definition CFGetTypeID (r : CFTypeRef) : M CFTypeID :=
  o ← deref r; mret (type_of o).

(** Accessors that C reaches through a cast. *)
Definition as_string (r : CFTypeRef) : M (list N) :=
  o ← deref r; match o with CFString cs => mret cs | _ => crash end.

Definition as_data (r : CFTypeRef) : M (list Byte.byte) :=
  o ← deref r; match o with CFData bs => mret bs | _ => crash end.

Definition as_number (r : CFTypeRef) : M (CFNumberType * Z) :=
  o ← deref r; match o with CFNumber t v => mret (t, v) | _ => crash end.

Definition as_date (r : CFTypeRef) : M Z :=
  o ← deref r; match o with CFDate t => mret t | _ => crash end.

Definition as_dictionary (r : CFTypeRef) : M (list (CFTypeRef * CFTypeRef)) :=
  o ← deref r; match o with CFDictionary es => mret es | _ => crash end.

Definition as_array (r : CFTypeRef) : M (list CFTypeRef) :=
  o ← deref r; match o with CFArray vs => mret vs | _ => crash end.

Fixpoint retain_all (rs : list CFTypeRef) : M unit :=
  match rs with
  | [] => mret tt
  | r :: rest => CFRetain r;; retain_all rest
  end.

(** [CFDataCreate] copies the bytes. *)
Definition CFDataCreate (bs : list Byte.byte) : M CFTypeRef := create (CFData bs).

(** [CFNumberCreate(allocator, theType, valuePtr)]. *)
Definition CFNumberCreate (typ : CFNumberType) (v : Z) : M CFTypeRef :=
  create (CFNumber typ v).

(** [CFStringCreateWithBytes(..., kCFStringEncodingUTF8, false)]: [NULL]
    when the bytes are not UTF-8. *)
Definition CFStringCreateWithBytes (bytes : string) : M CFTypeRef :=
  match utf8.decode bytes with
  | Some cs => create (CFString cs)
  | None => mret 0
  end.

(** [CFDictionaryCreate] with the [kCFType] callbacks retains every key
    and every value it is given. *)
Definition CFDictionaryCreate (keys values : list CFTypeRef) : M CFTypeRef :=
  retain_all keys;; retain_all values ;;
  create (CFDictionary (zip keys values)).

Definition CFStringGetLength (cs : list N) : Z := utf8.utf16_length cs.

(** [CFStringGetMaximumSizeForEncoding(length, kCFStringEncodingUTF8)]:
    three bytes for each UTF-16 unit.  (The product is computed in
    [CFIndex]; no string that fits in memory makes it overflow.) *)
Definition CFStringGetMaximumSizeForEncoding (length : Z) : Z := length * 3.

(** [CFStringGetBytes] over the whole string into a buffer of [maxBufLen]
    bytes: the bytes of the characters that fit ([usedBufLen] is their
    number). *)
Fixpoint CFStringGetBytes (cs : list N) (maxBufLen : Z) : string :=
  match cs with
  | [] => EmptyString
  | c :: rest =>
    let e := utf8.encode_rune c in
    let n := Z.of_nat (String.length e) in
    if n <=? maxBufLen then String.append e (CFStringGetBytes rest (maxBufLen - n))
    else EmptyString
  end.

End CF.

(** ** Dynamic Go values *)

(** [Convertable] knows how to convert an instance to a [CFTypeRef].  An
    implementation either fails and leaves nothing behind, or hands over an
    object it has just created: the caller owns the reference (and
    [ConvertMapToCFDictionary] releases it). *)
Record Convertable : Type := {
  Convert : M (CFTypeRef * option error);
  Convert_owned : ∀ h,
    (∃ r e, Convert h = Returns (r, Some e) h) ∨
    (∃ o, Convert h = Returns (CF.next_ref h, None) (<[CF.next_ref h := Cell o 1]> h))
}.

(** The dynamic values an [interface{}] holds in this package: what the
    attribute map of an [Item] stores and what the decoders hand back. *)
Inductive GoValue : Type :=
  | Nil
  | Ref (r : CFTypeRef)
  | Bool (b : bool)
  | Int8 (n : Z)
  | Int16 (n : Z)
  | Int32 (n : Z)
  | Int64 (n : Z)
  | Int (n : Z)
  | Uint8 (n : Z)
  | Float32 (bits : Z)
  | Float64 (bits : Z)
  | Bytes (b : slice Byte.byte)
  | Str (s : string)
  | Conv (c : Convertable).

(** What [%T] and [reflect.TypeOf] print. *)
Definition type_name (v : GoValue) : string :=
  match v with
  | Nil => "<nil>"
  | Ref _ => "keychain._Ctype_CFTypeRef"
  | Bool _ => "bool"
  | Int8 _ => "int8"
  | Int16 _ => "int16"
  | Int32 _ => "int32"
  | Int64 _ => "int64"
  | Int _ => "int"
  | Uint8 _ => "uint8"
  | Float32 _ => "float32"
  | Float64 _ => "float64"
  | Bytes _ => "[]uint8"
  | Str _ => "string"
  | Conv _ => "keychain.Convertable"
  end.

(** ** What the program cannot see into

    The behaviour of the platform that the Go code depends on but does not
    determine: whether [CFStringGetCStringPtr] can hand out the internal
    storage of a string, the text of a type description, the order in
    which [range] visits a Go map, and the item store behind the four
    [SecItem] calls.  The store may allocate, and leaves the objects of
    its caller alone. *)
Class Platform : Type := {
  CFStringGetCStringPtr_hit : list N → bool;
  CFCopyTypeIDDescription_text : CFTypeID → list N;
  range_attr : gmap string GoValue → list (string * GoValue);
  range_attr_perm : ∀ m, range_attr m ≡ₚ map_to_list m;
  range_refs : gmap Z Z → list (Z * Z);
  range_refs_perm : ∀ m, range_refs m ≡ₚ map_to_list m;
  SecItemAdd : CFTypeRef → CFHeap → Z * CFHeap;
  SecItemUpdate : CFTypeRef → CFTypeRef → CFHeap → Z * CFHeap;
  SecItemDelete : CFTypeRef → CFHeap → Z * CFHeap;
  SecItemCopyMatching : CFTypeRef → CFHeap → Z * CFTypeRef * CFHeap;
  SecItemAdd_keeps : ∀ q h, h ⊆ (SecItemAdd q h).2;
  SecItemUpdate_keeps : ∀ q u h, h ⊆ (SecItemUpdate q u h).2;
  SecItemDelete_keeps : ∀ q h, h ⊆ (SecItemDelete q h).2;
  SecItemCopyMatching_keeps : ∀ q h, h ⊆ (SecItemCopyMatching q h).2
}.

(** Constant objects of CoreFoundation and of the Security framework. *)
Definition kCFBooleanTrue : CFTypeRef := 1.
Definition kCFBooleanFalse : CFTypeRef := 2.
Definition kSecClassGenericPassword : CFTypeRef := 3.
Definition kSecClassInternetPassword : CFTypeRef := 4.
Definition kSecClassCertificate : CFTypeRef := 5.
Definition kSecClassKey : CFTypeRef := 6.
Definition kSecAttrSynchronizableAny : CFTypeRef := 7.
Definition kSecMatchLimitOne : CFTypeRef := 8.
Definition kSecMatchLimitAll : CFTypeRef := 9.

Definition constant_string (s : string) : CFCell :=
  Cell (CFString (default [] (utf8.decode s))) 1.

(** The heap of a process that has allocated nothing yet. *)
Definition constants : CFHeap :=
  list_to_map
    [ (kCFBooleanTrue, Cell (CFBoolean true) 1);
      (kCFBooleanFalse, Cell (CFBoolean false) 1);
      (kSecClassGenericPassword, constant_string "genp");
      (kSecClassInternetPassword, constant_string "inet");
      (kSecClassCertificate, constant_string "cert");
      (kSecClassKey, constant_string "keys");
      (kSecAttrSynchronizableAny, constant_string "syna");
      (kSecMatchLimitOne, constant_string "m_LimitOne");
      (kSecMatchLimitAll, constant_string "m_LimitAll") ].

(** [OSStatus] codes of [SecBase.h]. *)
Definition errSecSuccess : Z := 0.
Definition errSecDuplicateItem : Z := -25299.
Definition errSecItemNotFound : Z := -25300.

(** ** corefoundation.go *)

Section corefoundation.
Context `{Platform}.

(** [Release] releases memory pointed to by a [CFTypeRef]. *)
Definition Release (ref : CFTypeRef) : M unit := CF.CFRelease ref.

(** The deferred [Release] calls of a function, the latest first, run
    when the function returns. *)
Fixpoint run_deferred (refs : list CFTypeRef) : M unit :=
  match refs with
  | [] => mret tt
  | ref :: rest => Release ref;; run_deferred rest
  end.

Definition BytesToCFData (b : slice Byte.byte) : M (CFTypeRef * option error) :=
  if Z.of_nat (len b) >? MaxUint32 then
    mret (0, Some (errorString "data is too large"))
  else
    cfData ← CF.CFDataCreate (elems b);
    if cfData =? 0 then mret (0, Some (errorString "CFDataCreate failed"))
    else mret (cfData, None).

(** [C.GoBytes(p, n)] for the [n : C.int] it is given ([runtime.gobytes]). *)
Definition GoBytes (p : list Byte.byte) (n : Z) : M (slice Byte.byte) :=
  if n =? 0 then mret (Some [])
  else if n <? 0 then panic "gobytes: length out of range"
  else mret (Some (take (Z.to_nat n) p)).

Definition CFDataToBytes (cfData : CFTypeRef) : M (slice Byte.byte * option error) :=
  bytes ← CF.as_data cfData;
  b ← GoBytes bytes (to_signed 32 (Z.of_nat (length bytes)));
  mret (b, None).

Definition MapToCFDictionary (m : gmap Z Z) : M (CFTypeRef * option error) :=
  let kvs := range_refs m in
  cfDict ← CF.CFDictionaryCreate kvs.*1 kvs.*2;
  if cfDict =? 0 then mret (0, Some (errorString "CFDictionaryCreate failed"))
  else mret (cfDict, None).

Definition CFDictionaryToMap (cfDict : CFTypeRef) : M (gmap Z Z) :=
  entries ← CF.as_dictionary cfDict;
  mret (foldl (λ m kv, <[kv.1 := kv.2]> m) ∅ entries).

Definition Int32ToCFNumber (u : Z) : M CFTypeRef :=
  let sint := to_signed 32 u in
  CF.CFNumberCreate kCFNumberSInt32Type sint.

Definition StringToCFString (s : string) : M (CFTypeRef * option error) :=
  if negb (utf8.ValidString s) then
    mret (0, Some (errorString "invalid UTF-8 string"))
  else if Z.of_nat (String.length s) >? MaxUint32 then
    mret (0, Some (errorString "string is too large"))
  else
    ref ← CF.CFStringCreateWithBytes s;
    mret (ref, None).

(** [C.GoString(p)]: the bytes before the first NUL. *)
Fixpoint GoString (p : string) : string :=
  match p with
  | EmptyString => EmptyString
  | String c rest => if Ascii.eqb c zero then EmptyString else String c (GoString rest)
  end.

(** [make([]byte, n)] *)
Definition make_bytes (n : Z) : M unit :=
  if n <? 0 then panic "makeslice: len out of range" else mret tt.

Definition CFStringToString (s : CFTypeRef) : M string :=
  chars ← CF.as_string s;
  if CFStringGetCStringPtr_hit chars then
    mret (GoString (String.append (utf8.encode chars) (String zero EmptyString)))
  else
    let length := CF.CFStringGetLength chars in
    if length =? 0 then mret EmptyString
    else
      let maxBufLen := CF.CFStringGetMaximumSizeForEncoding length in
      if maxBufLen =? 0 then mret EmptyString
      else
        make_bytes maxBufLen;;
        mret (CF.CFStringGetBytes chars maxBufLen).

(** The body of the [for key, i := range attr] loop of
    [ConvertMapToCFDictionary]: the value that the switch on the dynamic
    type gives, with the [Release] it defers, or the error it returns. *)
Definition convert_value (i : GoValue) : M (CFTypeRef * list CFTypeRef * option error) :=
  match i with
  | Ref val => mret (val, [], None)
  | Bool val =>
    if val then mret (kCFBooleanTrue, [], None) else mret (kCFBooleanFalse, [], None)
  | Int32 val =>
    valueRef ← Int32ToCFNumber val;
    mret (valueRef, [valueRef], None)
  | Bytes val =>
    '(bytesRef, err) ← BytesToCFData val;
    match err with
    | Some e => mret (0, [], Some (wrapError "failed to convert bytes to CFData: " e))
    | None => mret (bytesRef, [bytesRef], None)
    end
  | Str val =>
    '(stringRef, err) ← StringToCFString val;
    match err with
    | Some e => mret (0, [], Some (wrapError "failed to convert string to CFString: " e))
    | None => mret (stringRef, [stringRef], None)
    end
  | Conv val =>
    '(convertedRef, err) ← Convert val;
    match err with
    | Some e => mret (0, [], Some (wrapError "failed to convert value: " e))
    | None => mret (convertedRef, [convertedRef], None)
    end
  | _ => mret (0, [], Some (errorString ("unsupported value type: " +:+ type_name i)))
  end.

(** The loop over the entries in the order [range] visits them: the map
    [m] built so far and the stack of deferred releases go round; the
    result is what the function returns from inside the loop, or the map. *)
Fixpoint convert_entries (entries : list (string * GoValue)) (m : gmap Z Z)
    (deferred : list CFTypeRef) : M (gmap Z Z * list CFTypeRef * option error) :=
  match entries with
  | [] => mret (m, deferred, None)
  | (key, i) :: rest =>
    '(valueRef, d, err) ← convert_value i;
    match err with
    | Some e => mret (m, deferred, Some e)
    | None =>
      let deferred := d ++ deferred in
      '(keyRef, err) ← StringToCFString key;
      match err with
      | Some e => mret (m, deferred, Some e)
      | None => convert_entries rest (<[keyRef := valueRef]> m) (keyRef :: deferred)
      end
    end
  end.

Definition ConvertMapToCFDictionary (attr : gmap string GoValue)
    : M (CFTypeRef * option error) :=
  '(m, deferred, err) ← convert_entries (range_attr attr) ∅ [];
  match err with
  | Some e => run_deferred deferred;; mret (0, Some e)
  | None =>
    '(cfDict, err) ← MapToCFDictionary m;
    run_deferred deferred;;
    match err with
    | Some e => mret (0, Some e)
    | None => mret (cfDict, None)
    end
  end.

Definition CFCopyTypeIDDescription (typeID : CFTypeID) : M CFTypeRef :=
  CF.create (CFString (CFCopyTypeIDDescription_text typeID)).

Definition CFTypeDescription (ref : CFTypeRef) : M string :=
  typeID ← CF.CFGetTypeID ref;
  typeDesc ← CFCopyTypeIDDescription typeID;
  s ← CFStringToString typeDesc;
  Release typeDesc;;
  mret s.

(** [CFNumberToInterface]: the switch on [CFNumberGetType]; each case reads
    the value into a C variable of the case's type and converts it to Go. *)
Definition CFNumberToInterface (cfNumber : CFTypeRef) : M GoValue :=
  '(typ, v) ← CF.as_number cfNumber;
  if typ =? kCFNumberSInt8Type then mret (Int8 (to_signed 8 v))
  else if typ =? kCFNumberSInt16Type then mret (Int16 (to_signed 16 v))
  else if typ =? kCFNumberSInt32Type then mret (Int32 (to_signed 32 v))
  else if typ =? kCFNumberSInt64Type then mret (Int64 (to_signed 64 v))
  else if typ =? kCFNumberFloat32Type then mret (Float32 (to_unsigned 32 v))
  else if typ =? kCFNumberFloat64Type then mret (Float64 (to_unsigned 64 v))
  else if typ =? kCFNumberCharType then mret (Uint8 (to_unsigned 8 (to_signed 8 v)))
  else if typ =? kCFNumberShortType then mret (Int16 (to_signed 16 v))
  else if typ =? kCFNumberIntType then mret (Int32 (to_signed 32 v))
  else if typ =? kCFNumberLongType then mret (Int (to_signed 64 v))
  else if typ =? kCFNumberLongLongType then mret (Int64 (to_signed 64 v))
  else if typ =? kCFNumberFloatType then mret (Float32 (to_unsigned 32 v))
  else if typ =? kCFNumberDoubleType then mret (Float64 (to_unsigned 64 v))
  else if typ =? kCFNumberCFIndexType then mret (Int (to_signed 64 v))
  else if typ =? kCFNumberNSIntegerType then mret (Int (to_signed 64 v))
  else panic "Unknown CFNumber type".

End corefoundation.

(** ** keychain.go *)

(** [checkError]: an [OSStatus] as a Go error. *)
Definition checkError (errCode : Z) : option error :=
  if errCode =? errSecSuccess then None else Some (KeychainError errCode).

Definition ErrorItemNotFound : error := KeychainError errSecItemNotFound.

(** [SecClass] and its table of class markers; a Go map gives the zero
    value, the [NULL] reference, for a key it does not hold. *)
Definition SecClass : Type := Z.
Definition SecClassGenericPassword : SecClass := 1.
Definition SecClassInternetPassword : SecClass := 2.
Definition SecClassCertificate : SecClass := 3.
Definition SecClassPairKey : SecClass := 4.

Definition secClassTypeRef : gmap Z CFTypeRef :=
  list_to_map
    [ (SecClassGenericPassword, kSecClassGenericPassword);
      (SecClassInternetPassword, kSecClassInternetPassword);
      (SecClassCertificate, kSecClassCertificate);
      (SecClassPairKey, kSecClassKey) ].

(** The attribute keys: [attrKey] of the framework's constant strings, as
    evaluated when the package is initialised. *)
Definition SecClassKey : string := "class".
Definition ServiceKey : string := "svce".
Definition ServerKey : string := "srvr".
Definition ProtocolKey : string := "ptcl".
Definition AuthenticationTypeKey : string := "atyp".
Definition PortKey : string := "port".
Definition PathKey : string := "path".
Definition LabelKey : string := "labl".
Definition AccountKey : string := "acct".
Definition AccessGroupKey : string := "agrp".
Definition DataKey : string := "v_Data".
Definition DescriptionKey : string := "desc".
Definition CommentKey : string := "icmt".
Definition CreationDateKey : string := "cdat".
Definition ModificationDateKey : string := "mdat".
Definition SynchronizableKey : string := "sync".
Definition MatchLimitKey : string := "m_Limit".
Definition ReturnAttributesKey : string := "r_Attributes".
Definition ReturnDataKey : string := "r_Data".
Definition ReturnRefKey : string := "r_Ref".

Definition Synchronizable : Type := Z.
Definition SynchronizableDefault : Synchronizable := 0.
Definition SynchronizableAny : Synchronizable := 1.
Definition SynchronizableYes : Synchronizable := 2.
Definition SynchronizableNo : Synchronizable := 3.

Definition syncTypeRef : gmap Z CFTypeRef :=
  list_to_map
    [ (SynchronizableAny, kSecAttrSynchronizableAny);
      (SynchronizableYes, kCFBooleanTrue);
      (SynchronizableNo, kCFBooleanFalse) ].

Definition MatchLimit : Type := Z.
Definition MatchLimitDefault : MatchLimit := 0.
Definition MatchLimitOne : MatchLimit := 1.
Definition MatchLimitAll : MatchLimit := 2.

Definition matchTypeRef : gmap Z CFTypeRef :=
  list_to_map
    [ (MatchLimitOne, kSecMatchLimitOne);
      (MatchLimitAll, kSecMatchLimitAll) ].

(** [Item] for adding, querying or deleting.  The methods have pointer
    receivers and write the map in place; here they give the item after
    the call.  The map is the one [NewItem] made. *)
Record Item : Type := { attr : gmap string GoValue }.

Definition NewItem : Item := {| attr := ∅ |}.

Definition SetSecClass (sc : SecClass) (k : Item) : Item :=
  {| attr := <[SecClassKey := Ref (default 0 (secClassTypeRef !! sc))]> (attr k) |}.

Definition SetInt32 (key : string) (v : Z) (k : Item) : Item :=
  if negb (v =? 0) then {| attr := <[key := Int32 v]> (attr k) |}
  else {| attr := delete key (attr k) |}.

Definition SetString (key : string) (s : string) (k : Item) : Item :=
  if negb (String.eqb s "") then {| attr := <[key := Str s]> (attr k) |}
  else {| attr := delete key (attr k) |}.

Definition SetService (s : string) (k : Item) : Item := SetString ServiceKey s k.
Definition SetServer (s : string) (k : Item) : Item := SetString ServerKey s k.
Definition SetProtocol (s : string) (k : Item) : Item := SetString ProtocolKey s k.
Definition SetAuthenticationType (s : string) (k : Item) : Item :=
  SetString AuthenticationTypeKey s k.
Definition SetPort (v : Z) (k : Item) : Item := SetInt32 PortKey v k.
Definition SetPath (s : string) (k : Item) : Item := SetString PathKey s k.
Definition SetAccount (a : string) (k : Item) : Item := SetString AccountKey a k.
Definition SetLabel (l : string) (k : Item) : Item := SetString LabelKey l k.
Definition SetDescription (s : string) (k : Item) : Item := SetString DescriptionKey s k.
Definition SetComment (s : string) (k : Item) : Item := SetString CommentKey s k.

Definition SetData (b : slice Byte.byte) (k : Item) : Item :=
  match b with
  | Some _ => {| attr := <[DataKey := Bytes b]> (attr k) |}
  | None => {| attr := delete DataKey (attr k) |}
  end.

Definition SetAccessGroup (ag : string) (k : Item) : Item := SetString AccessGroupKey ag k.

Definition SetSynchronizable (sync : Synchronizable) (k : Item) : Item :=
  if negb (sync =? SynchronizableDefault) then
    {| attr := <[SynchronizableKey := Ref (default 0 (syncTypeRef !! sync))]> (attr k) |}
  else {| attr := delete SynchronizableKey (attr k) |}.

Definition SetMatchLimit (matchLimit : MatchLimit) (k : Item) : Item :=
  if negb (matchLimit =? MatchLimitDefault) then
    {| attr := <[MatchLimitKey := Ref (default 0 (matchTypeRef !! matchLimit))]> (attr k) |}
  else {| attr := delete MatchLimitKey (attr k) |}.

Definition SetReturnAttributes (b : bool) (k : Item) : Item :=
  {| attr := <[ReturnAttributesKey := Bool b]> (attr k) |}.
Definition SetReturnData (b : bool) (k : Item) : Item :=
  {| attr := <[ReturnDataKey := Bool b]> (attr k) |}.
Definition SetReturnRef (b : bool) (k : Item) : Item :=
  {| attr := <[ReturnRefKey := Bool b]> (attr k) |}.

Definition NewGenericPassword (service account label : string)
    (data : slice Byte.byte) (accessGroup : string) : Item :=
  let item := NewItem in
  let item := SetSecClass SecClassGenericPassword item in
  let item := SetService service item in
  let item := SetAccount account item in
  let item := SetLabel label item in
  let item := SetData data item in
  let item := SetAccessGroup accessGroup item in
  item.

(** [time.Time], as nanoseconds since its zero value. *)
Definition Time : Type := Z.

(** [QueryResult] stores all possible results from queries. *)
Record QueryResult : Type := {
  Service : string;
  Server : string;
  Protocol : string;
  AuthenticationType : string;
  Port : Z;
  Path : string;
  Account : string;
  AccessGroup : string;
  Label : string;
  Description : string;
  Comment : string;
  Data : slice Byte.byte;
  CreationDate : Time;
  ModificationDate : Time
}.

(** [QueryResult{}] *)
Definition QueryResult_zero : QueryResult :=
  {| Service := ""; Server := ""; Protocol := ""; AuthenticationType := "";
     Port := 0; Path := ""; Account := ""; AccessGroup := ""; Label := "";
     Description := ""; Comment := ""; Data := None;
     CreationDate := 0; ModificationDate := 0 |}.

Definition with_Service (x : string) (r : QueryResult) : QueryResult :=
  {| Service := x; Server := Server r; Protocol := Protocol r;
     AuthenticationType := AuthenticationType r; Port := Port r; Path := Path r;
     Account := Account r; AccessGroup := AccessGroup r; Label := Label r;
     Description := Description r; Comment := Comment r; Data := Data r;
     CreationDate := CreationDate r; ModificationDate := ModificationDate r |}.
Definition with_Server (x : string) (r : QueryResult) : QueryResult :=
  {| Service := Service r; Server := x; Protocol := Protocol r;
     AuthenticationType := AuthenticationType r; Port := Port r; Path := Path r;
     Account := Account r; AccessGroup := AccessGroup r; Label := Label r;
     Description := Description r; Comment := Comment r; Data := Data r;
     CreationDate := CreationDate r; ModificationDate := ModificationDate r |}.
Definition with_Protocol (x : string) (r : QueryResult) : QueryResult :=
  {| Service := Service r; Server := Server r; Protocol := x;
     AuthenticationType := AuthenticationType r; Port := Port r; Path := Path r;
     Account := Account r; AccessGroup := AccessGroup r; Label := Label r;
     Description := Description r; Comment := Comment r; Data := Data r;
     CreationDate := CreationDate r; ModificationDate := ModificationDate r |}.
Definition with_AuthenticationType (x : string) (r : QueryResult) : QueryResult :=
  {| Service := Service r; Server := Server r; Protocol := Protocol r;
     AuthenticationType := x; Port := Port r; Path := Path r;
     Account := Account r; AccessGroup := AccessGroup r; Label := Label r;
     Description := Description r; Comment := Comment r; Data := Data r;
     CreationDate := CreationDate r; ModificationDate := ModificationDate r |}.
Definition with_Port (x : Z) (r : QueryResult) : QueryResult :=
  {| Service := Service r; Server := Server r; Protocol := Protocol r;
     AuthenticationType := AuthenticationType r; Port := x; Path := Path r;
     Account := Account r; AccessGroup := AccessGroup r; Label := Label r;
     Description := Description r; Comment := Comment r; Data := Data r;
     CreationDate := CreationDate r; ModificationDate := ModificationDate r |}.
Definition with_Path (x : string) (r : QueryResult) : QueryResult :=
  {| Service := Service r; Server := Server r; Protocol := Protocol r;
     AuthenticationType := AuthenticationType r; Port := Port r; Path := x;
     Account := Account r; AccessGroup := AccessGroup r; Label := Label r;
     Description := Description r; Comment := Comment r; Data := Data r;
     CreationDate := CreationDate r; ModificationDate := ModificationDate r |}.
Definition with_Account (x : string) (r : QueryResult) : QueryResult :=
  {| Service := Service r; Server := Server r; Protocol := Protocol r;
     AuthenticationType := AuthenticationType r; Port := Port r; Path := Path r;
     Account := x; AccessGroup := AccessGroup r; Label := Label r;
     Description := Description r; Comment := Comment r; Data := Data r;
     CreationDate := CreationDate r; ModificationDate := ModificationDate r |}.
Definition with_AccessGroup (x : string) (r : QueryResult) : QueryResult :=
  {| Service := Service r; Server := Server r; Protocol := Protocol r;
     AuthenticationType := AuthenticationType r; Port := Port r; Path := Path r;
     Account := Account r; AccessGroup := x; Label := Label r;
     Description := Description r; Comment := Comment r; Data := Data r;
     CreationDate := CreationDate r; ModificationDate := ModificationDate r |}.
Definition with_Label (x : string) (r : QueryResult) : QueryResult :=
  {| Service := Service r; Server := Server r; Protocol := Protocol r;
     AuthenticationType := AuthenticationType r; Port := Port r; Path := Path r;
     Account := Account r; AccessGroup := AccessGroup r; Label := x;
     Description := Description r; Comment := Comment r; Data := Data r;
     CreationDate := CreationDate r; ModificationDate := ModificationDate r |}.
Definition with_Description (x : string) (r : QueryResult) : QueryResult :=
  {| Service := Service r; Server := Server r; Protocol := Protocol r;
     AuthenticationType := AuthenticationType r; Port := Port r; Path := Path r;
     Account := Account r; AccessGroup := AccessGroup r; Label := Label r;
     Description := x; Comment := Comment r; Data := Data r;
     CreationDate := CreationDate r; ModificationDate := ModificationDate r |}.
Definition with_Comment (x : string) (r : QueryResult) : QueryResult :=
  {| Service := Service r; Server := Server r; Protocol := Protocol r;
     AuthenticationType := AuthenticationType r; Port := Port r; Path := Path r;
     Account := Account r; AccessGroup := AccessGroup r; Label := Label r;
     Description := Description r; Comment := x; Data := Data r;
     CreationDate := CreationDate r; ModificationDate := ModificationDate r |}.
Definition with_Data (x : slice Byte.byte) (r : QueryResult) : QueryResult :=
  {| Service := Service r; Server := Server r; Protocol := Protocol r;
     AuthenticationType := AuthenticationType r; Port := Port r; Path := Path r;
     Account := Account r; AccessGroup := AccessGroup r; Label := Label r;
     Description := Description r; Comment := Comment r; Data := x;
     CreationDate := CreationDate r; ModificationDate := ModificationDate r |}.
Definition with_CreationDate (x : Time) (r : QueryResult) : QueryResult :=
  {| Service := Service r; Server := Server r; Protocol := Protocol r;
     AuthenticationType := AuthenticationType r; Port := Port r; Path := Path r;
     Account := Account r; AccessGroup := AccessGroup r; Label := Label r;
     Description := Description r; Comment := Comment r; Data := Data r;
     CreationDate := x; ModificationDate := ModificationDate r |}.
Definition with_ModificationDate (x : Time) (r : QueryResult) : QueryResult :=
  {| Service := Service r; Server := Server r; Protocol := Protocol r;
     AuthenticationType := AuthenticationType r; Port := Port r; Path := Path r;
     Account := Account r; AccessGroup := AccessGroup r; Label := Label r;
     Description := Description r; Comment := Comment r; Data := Data r;
     CreationDate := CreationDate r; ModificationDate := x |}.

Section keychain.
Context `{Platform}.

Definition CFArrayToArray (cfArray : CFTypeRef) : M (list CFTypeRef) :=
  CF.as_array cfArray.

(** Modelled from the spec: [CFDateToTime] is called by [convertResult]
    and defined in a file that is not part of the sources at hand; the two
    timestamp fields decode via a date-specific conversion.  A [CFDate]
    counts from the first instant of 2001, a [time.Time] from the first
    instant of year 1. *)
Definition CFDateToTime (d : CFTypeRef) : M Time :=
  abs ← CF.as_date d;
  mret (abs + 63113904000 * 1000000000).

(** The three store calls, as steps of the program. *)
Definition C_SecItemAdd (cfDict : CFTypeRef) : M Z :=
  λ h, let '(errCode, h') := SecItemAdd cfDict h in Returns errCode h'.
Definition C_SecItemUpdate (cfDict cfDictUpdate : CFTypeRef) : M Z :=
  λ h, let '(errCode, h') := SecItemUpdate cfDict cfDictUpdate h in Returns errCode h'.
Definition C_SecItemDelete (cfDict : CFTypeRef) : M Z :=
  λ h, let '(errCode, h') := SecItemDelete cfDict h in Returns errCode h'.
Definition C_SecItemCopyMatching (cfDict : CFTypeRef) : M (Z * CFTypeRef) :=
  λ h, let '(errCode, resultsRef, h') := SecItemCopyMatching cfDict h in
       Returns (errCode, resultsRef) h'.

(** [AddItem] adds an [Item] to a keychain. *)
Definition AddItem (item : Item) : M (option error) :=
  '(cfDict, err) ← ConvertMapToCFDictionary (attr item);
  match err with
  | Some e =>
    mret (Some (wrapError "failed to convert item attributes to CFDictionary: " e))
  | None =>
    errCode ← C_SecItemAdd cfDict;
    let err := checkError errCode in
    Release cfDict;;
    mret err
  end.

(** [UpdateItem] updates the [queryItem] with the parameters from
    [updateItem]. *)
Definition UpdateItem (queryItem updateItem : Item) : M (option error) :=
  '(cfDict, err) ← ConvertMapToCFDictionary (attr queryItem);
  match err with
  | Some e =>
    mret (Some (wrapError "failed to convert query item attributes to CFDictionary: " e))
  | None =>
    '(cfDictUpdate, err) ← ConvertMapToCFDictionary (attr updateItem);
    match err with
    | Some e =>
      Release cfDict;;
      mret (Some (wrapError "failed to convert update item attributes to CFDictionary: " e))
    | None =>
      errCode ← C_SecItemUpdate cfDict cfDictUpdate;
      let err := checkError errCode in
      Release cfDictUpdate;;
      Release cfDict;;
      mret err
    end
  end.

(** [QueryItemRef] returns the query result as a [CFTypeRef]. *)
Definition QueryItemRef (item : Item) : M (CFTypeRef * option error) :=
  '(cfDict, err) ← ConvertMapToCFDictionary (attr item);
  match err with
  | Some e => mret (0, Some e)
  | None =>
    '(errCode, resultsRef) ← C_SecItemCopyMatching cfDict;
    if errCode =? errSecItemNotFound then
      Release cfDict;; mret (0, None)
    else
      match checkError errCode with
      | Some e => Release cfDict;; mret (0, Some e)
      | None => Release cfDict;; mret (resultsRef, None)
      end
  end.

Definition attrKey (ref : CFTypeRef) : M string := CFStringToString ref.

(** One turn of the loop of [convertResult]: the switch on the key. *)
Definition convertResult_entry (k v : CFTypeRef) (result : QueryResult)
    : M (QueryResult * option error) :=
  key ← attrKey k;
  if String.eqb key ServiceKey then
    s ← CFStringToString v; mret (with_Service s result, None)
  else if String.eqb key ServerKey then
    s ← CFStringToString v; mret (with_Server s result, None)
  else if String.eqb key ProtocolKey then
    s ← CFStringToString v; mret (with_Protocol s result, None)
  else if String.eqb key AuthenticationTypeKey then
    s ← CFStringToString v; mret (with_AuthenticationType s result, None)
  else if String.eqb key PortKey then
    val ← CFNumberToInterface v;
    match val with
    | Int32 port => mret (with_Port port result, None)
    | _ =>
      mret (result,
            Some (errorString ("expected int32 for PortKey, got " +:+ type_name val)))
    end
  else if String.eqb key PathKey then
    s ← CFStringToString v; mret (with_Path s result, None)
  else if String.eqb key AccountKey then
    s ← CFStringToString v; mret (with_Account s result, None)
  else if String.eqb key AccessGroupKey then
    s ← CFStringToString v; mret (with_AccessGroup s result, None)
  else if String.eqb key LabelKey then
    s ← CFStringToString v; mret (with_Label s result, None)
  else if String.eqb key DescriptionKey then
    s ← CFStringToString v; mret (with_Description s result, None)
  else if String.eqb key CommentKey then
    s ← CFStringToString v; mret (with_Comment s result, None)
  else if String.eqb key DataKey then
    '(b, err) ← CFDataToBytes v;
    match err with
    | Some e => mret (result, Some (wrapError "failed to convert CFData to bytes: " e))
    | None => mret (with_Data b result, None)
    end
  else if String.eqb key CreationDateKey then
    t ← CFDateToTime v; mret (with_CreationDate t result, None)
  else if String.eqb key ModificationDateKey then
    t ← CFDateToTime v; mret (with_ModificationDate t result, None)
  else mret (result, None).

(** The loop of [convertResult] over the entries in the order [range]
    visits them; an error returns [nil] and the error. *)
Fixpoint convertResult_range (entries : list (CFTypeRef * CFTypeRef))
    (result : QueryResult) : M (option QueryResult * option error) :=
  match entries with
  | [] => mret (Some result, None)
  | (k, v) :: rest =>
    '(result, err) ← convertResult_entry k v result;
    match err with
    | Some e => mret (None, Some e)
    | None => convertResult_range rest result
    end
  end.

Definition convertResult (d : CFTypeRef) : M (option QueryResult * option error) :=
  m ← CFDictionaryToMap d;
  convertResult_range (range_refs m) QueryResult_zero.

(** [*item] *)
Definition deref_result (item : option QueryResult) : M QueryResult :=
  match item with
  | Some r => mret r
  | None => panic "invalid memory address or nil pointer dereference"
  end.

(** The loop of [QueryItem] over the elements of an array response. *)
Fixpoint QueryItem_array (arr : list CFTypeRef) (results : list QueryResult)
    : M (slice QueryResult * option error) :=
  match arr with
  | [] => mret (Some results, None)
  | ref :: rest =>
    elementTypeID ← CF.CFGetTypeID ref;
    if decide (elementTypeID = CFDictionaryTypeID) then
      '(item, err) ← convertResult ref;
      match err with
      | Some e =>
        mret (None, Some (wrapError "failed to convert CFDictionary to QueryResult: " e))
      | None =>
        r ← deref_result item;
        QueryItem_array rest (results ++ [r])
      end
    else
      mret (None,
            Some (errorString
              "invalid result type (If you SetReturnRef(true) you should use QueryItemRef directly)"))
  end.

(** The switch of [QueryItem] on the type of the response. *)
Definition QueryItem_switch (resultsRef : CFTypeRef)
    : M (slice QueryResult * option error) :=
  typeID ← CF.CFGetTypeID resultsRef;
  match typeID with
  | CFArrayTypeID =>
    arr ← CFArrayToArray resultsRef;
    QueryItem_array arr []
  | CFDictionaryTypeID =>
    '(item, err) ← convertResult resultsRef;
    match err with
    | Some e =>
      mret (None, Some (wrapError "failed to convert CFDictionary to QueryResult: " e))
    | None =>
      r ← deref_result item;
      mret (Some [r], None)
    end
  | CFDataTypeID =>
    '(b, err) ← CFDataToBytes resultsRef;
    match err with
    | Some e => mret (None, Some (wrapError "failed to convert CFData to bytes: " e))
    | None => mret (Some [with_Data b QueryResult_zero], None)
    end
  | _ =>
    desc ← CFTypeDescription resultsRef;
    mret (None, Some (errorString ("invalid result type: " +:+ desc)))
  end.

(** [QueryItem] returns a list of query results. *)
Definition QueryItem (item : Item) : M (slice QueryResult * option error) :=
  '(resultsRef, err) ← QueryItemRef item;
  match err with
  | Some e => mret (None, Some e)
  | None =>
    if resultsRef =? 0 then mret (None, None)
    else
      out ← QueryItem_switch resultsRef;
      Release resultsRef;;
      mret out
  end.

(** [DeleteItem] removes an [Item]. *)
Definition DeleteItem (item : Item) : M (option error) :=
  '(cfDict, err) ← ConvertMapToCFDictionary (attr item);
  match err with
  | Some e => mret (Some (wrapError "failed to convert item to CFDictionary: " e))
  | None =>
    errCode ← C_SecItemDelete cfDict;
    Release cfDict;;
    mret (checkError errCode)
  end.


Definition GetGenericPasswordAccounts (service : string)
    : M (slice string * option error) :=
  let query := NewItem in
  let query := SetSecClass SecClassGenericPassword query in
  let query := SetService service query in
  let query := SetMatchLimit MatchLimitAll query in
  let query := SetReturnAttributes true query in
  '(results, err) ← QueryItem query;
  match err with
  | Some e => mret (None, Some e)
  | None => mret (Some (Account <$> elems results), None)
  end.

(** The query that [GetGenericPassword] builds. *)
Definition GetGenericPassword_query (service account label accessGroup : string) : Item :=
  let query := NewItem in
  let query := SetSecClass SecClassGenericPassword query in
  let query := SetService service query in
  let query := SetAccount account query in
  let query := SetLabel label query in
  let query := SetAccessGroup accessGroup query in
  let query := SetMatchLimit MatchLimitOne query in
  let query := SetReturnData true query in
  query.

(** [GetGenericPassword] returns password data for service and account. *)
Definition GetGenericPassword (service account label accessGroup : string)
    : M (slice Byte.byte * option error) :=
  let query := GetGenericPassword_query service account label accessGroup in
  '(results, err) ← QueryItem query;
  match err with
  | Some e => mret (None, Some e)
  | None =>
    if (1 <? len results)%nat then mret (None, Some (errorString "too many results"))
    else if (len results =? 1)%nat then
      match elems results with
      | r :: _ => mret (Data r, None)
      | [] => panic "index out of range [0] with length 0"
      end
    else mret (None, None)
  end.

End keychain.

(** ** Vocabulary of the statements *)

(** A call that came back. *)
Definition returned {A : Type} (o : Outcome A) : bool :=
  match o with
  | Returns _ _ => true
  | _ => false
  end.

(** A string that [StringToCFString] refuses. *)
Definition string_fails (s : string) : bool :=
  negb (utf8.ValidString s) || (Z.of_nat (String.length s) >? MaxUint32).

(** A value whose conversion in [ConvertMapToCFDictionary] fails. *)
Definition value_fails (i : GoValue) : Prop :=
  match i with
  | Ref _ | Bool _ | Int32 _ => False
  | Bytes b => Z.of_nat (len b) > MaxUint32
  | Str s => string_fails s = true
  | Conv c => ∀ h, ∃ r e, Convert c h = Returns (r, Some e) h
  | _ => True
  end.

Definition entry_fails (key : string) (i : GoValue) : Prop :=
  value_fails i ∨ string_fails key = true.

(** A string with a NUL byte in it. *)
Fixpoint has_nul (s : string) : bool :=
  match s with
  | EmptyString => false
  | String c rest => Ascii.eqb c zero || has_nul rest
  end.

(** The native numeric types of Go, their width in bits, and the values
    each represents exactly. *)
Inductive NativeType : Type :=
  | TInt8 | TInt16 | TInt32 | TInt64 | TInt | TUint8 | TFloat32 | TFloat64.

Definition native_type (v : GoValue) : option NativeType :=
  match v with
  | Int8 _ => Some TInt8
  | Int16 _ => Some TInt16
  | Int32 _ => Some TInt32
  | Int64 _ => Some TInt64
  | Int _ => Some TInt
  | Uint8 _ => Some TUint8
  | Float32 _ => Some TFloat32
  | Float64 _ => Some TFloat64
  | _ => None
  end.

(** The number a numeric Go value holds (the bit pattern, for a float). *)
Definition number_of (v : GoValue) : option Z :=
  match v with
  | Int8 n | Int16 n | Int32 n | Int64 n | Int n | Uint8 n => Some n
  | Float32 b | Float64 b => Some b
  | _ => None
  end.

Definition width (t : NativeType) : Z :=
  match t with
  | TInt8 | TUint8 => 8
  | TInt16 => 16
  | TInt32 | TFloat32 => 32
  | TInt64 | TInt | TFloat64 => 64
  end.

(** An integer that an integer type holds exactly. *)
Definition fits (t : NativeType) (v : Z) : bool :=
  match t with
  | TUint8 => (0 <=? v) && (v <? 2 ^ 8)
  | TInt8 | TInt16 | TInt32 | TInt64 | TInt =>
    (- 2 ^ (width t - 1) <=? v) && (v <? 2 ^ (width t - 1))
  | TFloat32 | TFloat64 => false
  end.

(** The narrowest native type that holds the integer [v] exactly. *)
Definition narrowest_exact (t : NativeType) (v : Z) : Prop :=
  fits t v = true ∧ ∀ t', fits t' v = true → width t ≤ width t'.

(** The native type that stands for each declared subtype, and the width
    of the C type that the subtype names (on the 64-bit platforms the
    package builds for). *)
Definition native_for (typ : CFNumberType) : option NativeType :=
  if typ =? kCFNumberSInt8Type then Some TInt8
  else if typ =? kCFNumberSInt16Type then Some TInt16
  else if typ =? kCFNumberSInt32Type then Some TInt32
  else if typ =? kCFNumberSInt64Type then Some TInt64
  else if typ =? kCFNumberFloat32Type then Some TFloat32
  else if typ =? kCFNumberFloat64Type then Some TFloat64
  else if typ =? kCFNumberCharType then Some TUint8
  else if typ =? kCFNumberShortType then Some TInt16
  else if typ =? kCFNumberIntType then Some TInt32
  else if typ =? kCFNumberLongType then Some TInt
  else if typ =? kCFNumberLongLongType then Some TInt64
  else if typ =? kCFNumberFloatType then Some TFloat32
  else if typ =? kCFNumberDoubleType then Some TFloat64
  else if typ =? kCFNumberCFIndexType then Some TInt
  else if typ =? kCFNumberNSIntegerType then Some TInt
  else None.

Definition is_float_subtype (typ : CFNumberType) : bool :=
  (typ =? kCFNumberFloat32Type) || (typ =? kCFNumberFloat64Type)
  || (typ =? kCFNumberFloatType) || (typ =? kCFNumberDoubleType).

(** The values a number of a declared subtype can hold: the range of the
    signed C type for an integer subtype, the bit patterns for a float. *)
Definition holds (typ : CFNumberType) (v : Z) : Prop :=
  match native_for typ with
  | Some t =>
    if is_float_subtype typ then 0 ≤ v < 2 ^ width t
    else - 2 ^ (width t - 1) ≤ v < 2 ^ (width t - 1)
  | None => False
  end.

(** The attribute keys that [convertResult] knows. *)
Definition known_keys : list string :=
  [ ServiceKey; ServerKey; ProtocolKey; AuthenticationTypeKey; PortKey; PathKey;
    AccountKey; AccessGroupKey; LabelKey; DescriptionKey; CommentKey; DataKey;
    CreationDateKey; ModificationDateKey ].

Definition is_known (key : string) : bool :=
  existsb (String.eqb key) known_keys.

(** Each known key with the one field of a [QueryResult] it fills: the
    relation says that two results agree on that field. *)
Definition field_of_key : list (string * (QueryResult → QueryResult → Prop)) :=
  [ (ServiceKey, λ a b, Service a = Service b);
    (ServerKey, λ a b, Server a = Server b);
    (ProtocolKey, λ a b, Protocol a = Protocol b);
    (AuthenticationTypeKey, λ a b, AuthenticationType a = AuthenticationType b);
    (PortKey, λ a b, Port a = Port b);
    (PathKey, λ a b, Path a = Path b);
    (AccountKey, λ a b, Account a = Account b);
    (AccessGroupKey, λ a b, AccessGroup a = AccessGroup b);
    (LabelKey, λ a b, Label a = Label b);
    (DescriptionKey, λ a b, Description a = Description b);
    (CommentKey, λ a b, Comment a = Comment b);
    (DataKey, λ a b, Data a = Data b);
    (CreationDateKey, λ a b, CreationDate a = CreationDate b);
    (ModificationDateKey, λ a b, ModificationDate a = ModificationDate b) ].

Section vocabulary.
Context `{Platform}.

(** An entry of a response that [convertResult] passes over: its key
    reads as a text that is none of the known keys. *)
Definition ignored (h : CFHeap) (kv : CFTypeRef * CFTypeRef) : bool :=
  match attrKey kv.1 h with
  | Returns key _ => negb (is_known key)
  | _ => false
  end.

(** An element of an array response that the loop of [QueryItem] gets
    past or stops at with an error: it is alive and, when it is a
    dictionary, [convertResult] comes back from it. *)
Definition decodes (h : CFHeap) (p : CFTypeRef) : bool :=
  match CF.CFGetTypeID p h with
  | Returns t _ =>
    if decide (t = CFDictionaryTypeID) then returned (convertResult p h) else true
  | _ => false
  end.

(** The key of an entry reads as [key]. *)
Definition reads_as (h : CFHeap) (key : string) (kv : CFTypeRef * CFTypeRef) : Prop :=
  ∃ h', attrKey kv.1 h = Returns key h'.

End vocabulary.

(** * The rest of the two files *)

(** ** corefoundation.go: arrays *)

(** [CFArrayCreate] with [kCFTypeArrayCallBacks] retains every value it is
    given. *)
Definition CFArrayCreate (values : list CFTypeRef) : M CFTypeRef :=
  CF.retain_all values;; CF.create (CFArray values).

(** [values[i] = x] on a Go slice: the index is checked against the length
    of the slice, not against its capacity. *)
Definition set_index (values : list Z) (i : nat) (x : Z) : M (list Z) :=
  if (i <? length values)%nat then mret (<[i := x]> values)
  else panic ("index out of range [" +:+ pretty i +:+ "] with length "
              +:+ pretty (length values)).

(** The loop [for i := range a] of [ArrayToCFArray]; [None] is the
    [return 0] inside the loop. *)
Fixpoint ArrayToCFArray_loop (a : list CFTypeRef) (i : nat) (values : list Z)
    : M (option (list Z)) :=
  match a with
  | [] => mret (Some values)
  | ai :: rest =>
    if ai =? 0 then mret None
    else
      values ← set_index values i ai;
      ArrayToCFArray_loop rest (S i) values
  end.

(** [ArrayToCFArray]: [values] is made with length 0 and capacity
    [len(a)]. *)
Definition ArrayToCFArray (a : slice CFTypeRef) : M CFTypeRef :=
  let values : list Z := [] in
  r ← ArrayToCFArray_loop (elems a) 0 values;
  match r with
  | None => mret 0
  | Some values => CFArrayCreate values
  end.

(** ** keychain.go: the convenience calls *)

Section keychain_more.
Context `{Platform}.

(** [GetAccountsForService] is deprecated. *)
Definition GetAccountsForService (service : string) : M (slice string * option error) :=
  GetGenericPasswordAccounts service.

End keychain_more.

(** The query that [GetGenericPasswordAccounts] builds. *)
Definition GetGenericPasswordAccounts_query (service : string) : Item :=
  let query := NewItem in
  let query := SetSecClass SecClassGenericPassword query in
  let query := SetService service query in
  let query := SetMatchLimit MatchLimitAll query in
  let query := SetReturnAttributes true query in
  query.

(** ** What a built dictionary holds *)

(** The string object at [r] holds the text [s]. *)
Definition text_object (h : CFHeap) (s : string) (r : CFTypeRef) : Prop :=
  ∃ cs rc, utf8.decode s = Some cs ∧ h !! r = Some (Cell (CFString cs) rc).

(** The reference [r] stands for the Go value [i] in a dictionary that
    [ConvertMapToCFDictionary] builds: the reference itself, the constant
    of a boolean, a 32-bit number, the data, the text, or whatever object
    a [Convertable] has made. *)
Definition stands_for (h : CFHeap) (i : GoValue) (r : CFTypeRef) : Prop :=
  match i with
  | Ref val => r = val
  | Bool b => r = (if b then kCFBooleanTrue else kCFBooleanFalse)
  | Int32 n =>
    ∃ rc, h !! r = Some (Cell (CFNumber kCFNumberSInt32Type (to_signed 32 n)) rc)
  | Bytes b => ∃ rc, h !! r = Some (Cell (CFData (elems b)) rc)
  | Str s => text_object h s r
  | Conv _ => is_Some (h !! r)
  | _ => False
  end.

(** Every object of [h] is in [h'], whatever its retain count there. *)
Definition survives (h h' : CFHeap) : Prop :=
  ∀ r o rc, h !! r = Some (Cell o rc) → ∃ rc', h' !! r = Some (Cell o rc').

(** The text fields of a [QueryResult], each with its attribute key. *)
Definition text_fields : list (string * (QueryResult → string)) :=
  [ (ServiceKey, Service); (ServerKey, Server); (ProtocolKey, Protocol);
    (AuthenticationTypeKey, AuthenticationType); (PathKey, Path);
    (AccountKey, Account); (AccessGroupKey, AccessGroup); (LabelKey, Label);
    (DescriptionKey, Description); (CommentKey, Comment) ].

(** ** corefoundation.go: [Convert] and [ConvertCFDictionary] *)

(** What [Convert] hands back in an [interface{}]: nothing (the nil
    interface), a string, a byte slice, a number or a boolean, a
    [[]interface{}], or a [map[interface{}]interface{}] (which may be the
    nil map).  A Go map is kept as the list of its entries, in the order
    in which the keys were first assigned. *)
Inductive Dynamic : Type :=
  | DNil
  | DValue (v : GoValue)
  | DSlice (vs : list Dynamic)
  | DMap (m : option (list (Dynamic * Dynamic))).

(** [==] on two floating-point numbers given by their bits, with [ebits]
    bits of exponent and [mbits] of mantissa: a NaN equals nothing, the
    two zeros are equal. *)
Definition float_is_nan (ebits mbits bits : Z) : bool :=
  ((bits / 2 ^ mbits) mod 2 ^ ebits =? 2 ^ ebits - 1) && negb (bits mod 2 ^ mbits =? 0).

Definition float_is_zero (ebits mbits bits : Z) : bool :=
  bits mod 2 ^ (ebits + mbits) =? 0.

Definition float_eqb (ebits mbits a b : Z) : bool :=
  if float_is_nan ebits mbits a || float_is_nan ebits mbits b then false
  else if float_is_zero ebits mbits a && float_is_zero ebits mbits b then true
  else a =? b.

(** [==] on the keys of a [map[interface{}]interface{}]: the same dynamic
    type and equal values. *)
Definition key_eqb (a b : Dynamic) : bool :=
  match a, b with
  | DNil, DNil => true
  | DValue (Str x), DValue (Str y) => String.eqb x y
  | DValue (Bool x), DValue (Bool y) => Bool.eqb x y
  | DValue (Int8 x), DValue (Int8 y) => x =? y
  | DValue (Int16 x), DValue (Int16 y) => x =? y
  | DValue (Int32 x), DValue (Int32 y) => x =? y
  | DValue (Int64 x), DValue (Int64 y) => x =? y
  | DValue (Int x), DValue (Int y) => x =? y
  | DValue (Uint8 x), DValue (Uint8 y) => x =? y
  | DValue (Ref x), DValue (Ref y) => x =? y
  | DValue (Float32 x), DValue (Float32 y) => float_eqb 8 23 x y
  | DValue (Float64 x), DValue (Float64 y) => float_eqb 11 52 x y
  | _, _ => false
  end.

(** The dynamic types that cannot be the key of a map, by name. *)
Definition unhashable (d : Dynamic) : option string :=
  match d with
  | DValue (Bytes _) => Some "[]uint8"
  | DSlice _ => Some "[]interface {}"
  | DMap _ => Some "map[interface {}]interface {}"
  | _ => None
  end.

(** [m[k] = v] on the entries of a map whose keys are hashable. *)
Fixpoint assign (m : list (Dynamic * Dynamic)) (k v : Dynamic) : list (Dynamic * Dynamic) :=
  match m with
  | [] => [(k, v)]
  | (k', v') :: rest =>
    if key_eqb k' k then (k', v) :: rest else (k', v') :: assign rest k v
  end.

(** [result[gk] = gv]: the runtime hashes the key first. *)
Definition map_assign (m : list (Dynamic * Dynamic)) (k v : Dynamic)
    : M (list (Dynamic * Dynamic)) :=
  match unhashable k with
  | Some t => panic ("hash of unhashable type " +:+ t)
  | None => mret (assign m k v)
  end.

(** [m[k]] *)
Fixpoint index (m : list (Dynamic * Dynamic)) (k : Dynamic) : option Dynamic :=
  match m with
  | [] => None
  | (k', v') :: rest => if key_eqb k' k then Some v' else index rest k
  end.

(** [CFBooleanGetValue] *)
Definition CFBooleanGetValue (r : CFTypeRef) : M bool :=
  o ← CF.deref r; match o with CFBoolean b => mret b | _ => crash end.

(** [Convert] and [ConvertCFDictionary] call each other along the objects
    that a container holds.  The recursion is written on the number of
    calls that may still nest; a run that needs more has no outcome
    ([None]). *)
Definition Nested (A : Type) : Type := CFHeap → option (Outcome A).

Global Instance Nested_ret : MRet Nested := λ A a h, Some (Returns a h).

Global Instance Nested_bind : MBind Nested := λ A B f m h,
  match m h with
  | Some (Returns a h') => f a h'
  | Some (Panics msg) => Some (Panics msg)
  | Some Crashes => Some Crashes
  | None => None
  end.

Definition run {A : Type} (m : M A) : Nested A := λ h, Some (m h).

Section convert.
Context `{Platform}.
Variable convert : CFTypeRef → Nested (Dynamic * option error).

(** The loop of [Convert] over the elements of an array. *)
Fixpoint Convert_array (arr : list CFTypeRef) (results : list Dynamic)
    : Nested (Dynamic * option error) :=
  match arr with
  | [] => mret (DSlice results, None)
  | ref :: rest =>
    '(v, err) ← convert ref;
    match err with
    | Some e => mret (DNil, Some (wrapError "failed to convert CFArray element: " e))
    | None => Convert_array rest (results ++ [v])
    end
  end.

(** The loop of [ConvertCFDictionary] over the entries in the order
    [range] visits them. *)
Fixpoint ConvertCFDictionary_range (entries : list (CFTypeRef * CFTypeRef))
    (result : list (Dynamic * Dynamic))
    : Nested (option (list (Dynamic * Dynamic)) * option error) :=
  match entries with
  | [] => mret (Some result, None)
  | (k, v) :: rest =>
    '(gk, err) ← convert k;
    match err with
    | Some e => mret (None, Some e)
    | None =>
      '(gv, err) ← convert v;
      match err with
      | Some e => mret (None, Some e)
      | None =>
        result ← run (map_assign result gk gv);
        ConvertCFDictionary_range rest result
      end
    end
  end.

Definition ConvertCFDictionary_with (d : CFTypeRef)
    : Nested (option (list (Dynamic * Dynamic)) * option error) :=
  m ← run (CFDictionaryToMap d);
  ConvertCFDictionary_range (range_refs m) [].

(** The switch of [Convert] on the type of the reference. *)
Definition Convert_switch (ref : CFTypeRef) : Nested (Dynamic * option error) :=
  typeID ← run (CF.CFGetTypeID ref);
  match typeID with
  | CFStringTypeID =>
    s ← run (CFStringToString ref); mret (DValue (Str s), None)
  | CFDictionaryTypeID =>
    '(m, err) ← ConvertCFDictionary_with ref; mret (DMap m, err)
  | CFArrayTypeID =>
    arr ← run (CFArrayToArray ref);
    Convert_array arr []
  | CFDataTypeID =>
    '(b, err) ← run (CFDataToBytes ref);
    match err with
    | Some e => mret (DNil, Some (wrapError "failed to convert CFData: " e))
    | None => mret (DValue (Bytes b), None)
    end
  | CFNumberTypeID =>
    v ← run (CFNumberToInterface ref); mret (DValue v, None)
  | CFBooleanTypeID =>
    b ← run (CFBooleanGetValue ref); mret (DValue (Bool b), None)
  | _ =>
    desc ← run (CFTypeDescription ref);
    mret (DNil, Some (errorString ("invalid type: " +:+ desc)))
  end.

End convert.

Section convert_fix.
Context `{Platform}.

(** [Convert] converts a [CFTypeRef] to a Go instance.  (The name
    [Convert] is taken by the method of [Convertable].) *)
Fixpoint Convert_ref (depth : nat) (ref : CFTypeRef) : Nested (Dynamic * option error) :=
  match depth with
  | O => λ _, None
  | S depth => Convert_switch (Convert_ref depth) ref
  end.

(** [ConvertCFDictionary] converts a [CFDictionary] to a map (deep). *)
Definition ConvertCFDictionary (depth : nat) (d : CFTypeRef)
    : Nested (option (list (Dynamic * Dynamic)) * option error) :=
  ConvertCFDictionary_with (Convert_ref depth) d.

End convert_fix.

(** ** What [Convert] reads from a built dictionary *)

Section read_back.
Context `{Platform}.

(** What [CFStringToString] reads from a string object. *)
Definition read_text (cs : list N) : string :=
  if CFStringGetCStringPtr_hit cs then GoString (utf8.encode cs) else utf8.encode cs.

(** What [Convert] returns without an error for a string, for data of
    fewer than 2^31 bytes and for a boolean. *)
Definition leaf_value (o : CFObject) : option Dynamic :=
  match o with
  | CFString cs => Some (DValue (Str (read_text cs)))
  | CFData bytes =>
    if Z.of_nat (length bytes) <? 2 ^ 31 then Some (DValue (Bytes (Some bytes))) else None
  | CFBoolean b => Some (DValue (Bool b))
  | _ => None
  end.

Definition object_value (h : CFHeap) (r : CFTypeRef) : option Dynamic :=
  match h !! r with
  | Some (Cell o _) => leaf_value o
  | None => None
  end.

(** What comes back for a value of an attribute map, once
    [ConvertMapToCFDictionary] has made the dictionary and [Convert] has
    read it: a reference and a boolean as their object reads, a number as
    an [int32], bytes as a slice that is not nil, a text as
    [CFStringToString] reads it. *)
Definition read_back (h : CFHeap) (i : GoValue) : option Dynamic :=
  match i with
  | Ref val => object_value h val
  | Bool b => object_value h (if b then kCFBooleanTrue else kCFBooleanFalse)
  | Int32 n => Some (DValue (Int32 (to_signed 32 n)))
  | Bytes b =>
    if Z.of_nat (len b) <? 2 ^ 31 then Some (DValue (Bytes (Some (elems b)))) else None
  | Str s => cs ← utf8.decode s; Some (DValue (Str (read_text cs)))
  | _ => None
  end.

End read_back.

(** The objects that [Convert] turns into a Go value that cannot be
    hashed: data (a byte slice), an array (a slice) and a dictionary (a
    map). *)
Definition not_a_key (o : CFObject) : bool :=
  match o with
  | CFData _ | CFArray _ | CFDictionary _ => true
  | _ => false
  end.

(** ** What [convertResult] reads from a built dictionary *)

(** An attribute that [convertResult] can read back once
    [ConvertMapToCFDictionary] has made the dictionary: a text without a
    NUL byte under the key of a text field, an [int32] under the port
    key, fewer than 2^31 bytes under the data key, and anything under a
    key that the switch does not know. *)
Definition decodable (key : string) (i : GoValue) : bool :=
  if existsb (String.eqb key) text_fields.*1 then
    match i with Str s => negb (has_nul s) | _ => false end
  else if String.eqb key PortKey then
    match i with Int32 _ => true | _ => false end
  else if String.eqb key DataKey then
    match i with Bytes b => Z.of_nat (len b) <? 2 ^ 31 | _ => false end
  else negb (is_known key).

(** ** Attributes that [ConvertMapToCFDictionary] takes *)

(** A value that the switch of [ConvertMapToCFDictionary] converts
    without an error: a reference, a boolean, an [int32], at most
    [math.MaxUint32] bytes, or a text that [StringToCFString] takes.  (A
    [Convertable] is left out: its own [Convert] decides.) *)
Definition convertible (i : GoValue) : bool :=
  match i with
  | Ref _ | Bool _ | Int32 _ => true
  | Bytes b => Z.of_nat (len b) <=? MaxUint32
  | Str s => negb (string_fails s)
  | _ => false
  end.

(** * Lemmas *)

(** ** UTF-8 *)

Section utf8_facts.
Import utf8.

Lemma string_length_ind (P : string → Prop) :
  (∀ s, (∀ t, (String.length t < String.length s)%nat → P t) → P s) → ∀ s, P s.
Proof.
  intros step s. remember (String.length s) as n eqn:Hn.
  revert s Hn. induction n as [n IH] using lt_wf_ind.
  intros s ->. apply step. intros t Ht. by apply (IH (String.length t)).
Qed.

Lemma N_of_ascii_lt c : (N_of_ascii c < 256)%N.
Proof. apply N_ascii_bounded. Qed.

Ltac nbool :=
  repeat match goal with
         | H : (_ <? _)%N = true |- _ => apply N.ltb_lt in H
         | H : (_ <? _)%N = false |- _ => apply N.ltb_ge in H
         | H : (_ <=? _)%N = true |- _ => apply N.leb_le in H
         | H : (_ <=? _)%N = false |- _ => apply N.leb_gt in H
         | H : (_ =? _)%N = true |- _ => apply N.eqb_eq in H
         | H : (_ =? _)%N = false |- _ => apply N.eqb_neq in H
         end.

Lemma ltb_true_N a b : (a < b)%N → (a <? b)%N = true.
Proof. apply N.ltb_lt. Qed.
Lemma ltb_false_N a b : (b ≤ a)%N → (a <? b)%N = false.
Proof. apply N.ltb_ge. Qed.

(** What the [first] table says about a lead byte. *)
Lemma first_cases b size lo hi :
  first b = Some (size, lo, hi) →
  (size = 2 ∧ lo = 0x80 ∧ hi = 0xBF ∧ 0xC2 ≤ b ≤ 0xDF)%N ∨
  (size = 3 ∧ lo = 0xA0 ∧ hi = 0xBF ∧ b = 0xE0)%N ∨
  (size = 3 ∧ lo = 0x80 ∧ hi = 0xBF ∧ (0xE1 ≤ b ≤ 0xEC ∨ 0xEE ≤ b ≤ 0xEF))%N ∨
  (size = 3 ∧ lo = 0x80 ∧ hi = 0x9F ∧ b = 0xED)%N ∨
  (size = 4 ∧ lo = 0x90 ∧ hi = 0xBF ∧ b = 0xF0)%N ∨
  (size = 4 ∧ lo = 0x80 ∧ hi = 0xBF ∧ 0xF1 ≤ b ≤ 0xF3)%N ∨
  (size = 4 ∧ lo = 0x80 ∧ hi = 0x8F ∧ b = 0xF4)%N.
Proof.
  unfold first, locb, hicb.
  repeat match goal with
         | |- context [if ?c then _ else _] => destruct c eqn:?
         end; intros [= <- <- <-] || intros [=]; nbool; lia.
Qed.

Lemma outside_false lo hi c : outside lo hi c = false → (lo ≤ c ≤ hi)%N.
Proof. unfold outside. intros [? ?]%orb_false_elim. nbool. lia. Qed.

Local Ltac Zify.zify_post_hook ::= Z.div_mod_to_equations.

Lemma encode_rune_1 c0 :
  (N_of_ascii c0 <? RuneSelf)%N = true →
  encode_rune (scalar1 (N_of_ascii c0)) = String c0 EmptyString.
Proof.
  unfold RuneSelf, scalar1, encode_rune. intros ->.
  by rewrite ascii_N_embedding.
Qed.

Lemma ascii_of_N_eq n c : n = N_of_ascii c → ascii_of_N n = c.
Proof. intros ->. apply ascii_N_embedding. Qed.

Lemma encode_rune_2 c0 c1 lo hi :
  first (N_of_ascii c0) = Some (2%N, lo, hi) →
  outside lo hi (N_of_ascii c1) = false →
  encode_rune (scalar2 (N_of_ascii c0) (N_of_ascii c1)) = String c0 (String c1 EmptyString).
Proof.
  intros Hf Ho%outside_false.
  apply first_cases in Hf.
  unfold encode_rune, scalar2.
  set (b0 := N_of_ascii c0) in *. set (b1 := N_of_ascii c1) in *.
  rewrite (ltb_false_N ((b0 - 192) * 64 + (b1 - 128)) 128) by lia.
  rewrite (ltb_true_N ((b0 - 192) * 64 + (b1 - 128)) 2048) by lia.
  f_equal; [|f_equal]; apply ascii_of_N_eq; subst b0 b1; repeat rewrite N.Div0.mod_eq; lia.
Qed.

Lemma encode_rune_3 c0 c1 c2 lo hi :
  first (N_of_ascii c0) = Some (3%N, lo, hi) →
  outside lo hi (N_of_ascii c1) = false →
  outside locb hicb (N_of_ascii c2) = false →
  encode_rune (scalar3 (N_of_ascii c0) (N_of_ascii c1) (N_of_ascii c2))
  = String c0 (String c1 (String c2 EmptyString)).
Proof.
  intros Hf Ho%outside_false Ho2%outside_false.
  apply first_cases in Hf. unfold locb, hicb in *.
  unfold encode_rune, scalar3.
  set (b0 := N_of_ascii c0) in *. set (b1 := N_of_ascii c1) in *.
  set (b2 := N_of_ascii c2) in *.
  set (cp := ((b0 - 224) * 4096 + (b1 - 128) * 64 + (b2 - 128))%N).
  rewrite (ltb_false_N (cp) 128) by (subst cp; lia).
  rewrite (ltb_false_N (cp) 2048) by (subst cp; lia).
  rewrite (ltb_true_N (cp) 65536) by (subst cp; lia).
  f_equal; [|f_equal; [|f_equal]]; apply ascii_of_N_eq; subst cp; repeat rewrite N.Div0.mod_eq; lia.
Qed.

Lemma encode_rune_4 c0 c1 c2 c3 lo hi :
  first (N_of_ascii c0) = Some (4%N, lo, hi) →
  outside lo hi (N_of_ascii c1) = false →
  outside locb hicb (N_of_ascii c2) = false →
  outside locb hicb (N_of_ascii c3) = false →
  encode_rune (scalar4 (N_of_ascii c0) (N_of_ascii c1) (N_of_ascii c2) (N_of_ascii c3))
  = String c0 (String c1 (String c2 (String c3 EmptyString))).
Proof.
  intros Hf Ho%outside_false Ho2%outside_false Ho3%outside_false.
  apply first_cases in Hf. unfold locb, hicb in *.
  unfold encode_rune, scalar4.
  set (b0 := N_of_ascii c0) in *. set (b1 := N_of_ascii c1) in *.
  set (b2 := N_of_ascii c2) in *. set (b3 := N_of_ascii c3) in *.
  set (cp := ((b0 - 240) * 262144 + (b1 - 128) * 4096 + (b2 - 128) * 64 + (b3 - 128))%N).
  rewrite (ltb_false_N (cp) 128) by (subst cp; lia).
  rewrite (ltb_false_N (cp) 2048) by (subst cp; lia).
  rewrite (ltb_false_N (cp) 65536) by (subst cp; lia).
  f_equal; [|f_equal; [|f_equal; [|f_equal]]]; apply ascii_of_N_eq; subst cp; repeat rewrite N.Div0.mod_eq; lia.
Qed.

Lemma append_cons c (a b : string) : String c a +:+ b = String c (a +:+ b).
Proof. reflexivity. Qed.
Lemma append_empty (b : string) : EmptyString +:+ b = b.
Proof. reflexivity. Qed.

Lemma decode_encode s : ∀ cs, decode s = Some cs → encode cs = s.
Proof.
  induction s as [s IH] using string_length_ind.
  destruct s as [|c0 s1]; simpl; [by intros ? [= <-]|].
  destruct (N_of_ascii c0 <? RuneSelf)%N eqn:Hb0.
  { intros cs Hd. apply fmap_Some in Hd as (cs' & Hd & ->).
    simpl. rewrite encode_rune_1 by done. rewrite !append_cons, append_empty. f_equal. apply IH; simpl; [lia|done]. }
  destruct (first (N_of_ascii c0)) as [[[size lo] hi]|] eqn:Hf; [|done].
  destruct s1 as [|c1 s2]; [done|].
  destruct (outside lo hi (N_of_ascii c1)) eqn:Ho1; [done|].
  destruct (size =? 2)%N eqn:Hs2.
  { apply N.eqb_eq in Hs2 as ->.
    intros cs Hd. apply fmap_Some in Hd as (cs' & Hd & ->).
    simpl. erewrite encode_rune_2 by done. rewrite !append_cons, append_empty. do 2 f_equal. apply IH; simpl; [lia|done]. }
  destruct s2 as [|c2 s3]; [done|].
  destruct (outside locb hicb (N_of_ascii c2)) eqn:Ho2; [done|].
  destruct (size =? 3)%N eqn:Hs3.
  { apply N.eqb_eq in Hs3 as ->.
    intros cs Hd. apply fmap_Some in Hd as (cs' & Hd & ->).
    simpl. erewrite encode_rune_3 by done. rewrite !append_cons, append_empty. do 3 f_equal. apply IH; simpl; [lia|done]. }
  destruct s3 as [|c3 s4]; [done|].
  destruct (outside locb hicb (N_of_ascii c3)) eqn:Ho3; [done|].
  assert (size = 4%N) as ->.
  { apply first_cases in Hf. nbool. lia. }
  intros cs Hd. apply fmap_Some in Hd as (cs' & Hd & ->).
  simpl. erewrite encode_rune_4 by done. rewrite !append_cons, append_empty. do 4 f_equal. apply IH; simpl; [lia|done].
Qed.

Lemma valid_decodes s : ValidString s = true → is_Some (decode s).
Proof.
  induction s as [s IH] using string_length_ind.
  destruct s as [|c0 s1]; simpl; [by eexists|].
  destruct (N_of_ascii c0 <? RuneSelf)%N eqn:Hb0.
  { intros Hv. apply fmap_is_Some, IH; simpl; [lia|done]. }
  destruct (first (N_of_ascii c0)) as [[[size lo] hi]|] eqn:Hf; [|done].
  destruct s1 as [|c1 s2]; [done|].
  destruct (outside lo hi (N_of_ascii c1)) eqn:Ho1; [done|].
  destruct (size =? 2)%N eqn:Hs2.
  { intros Hv. apply fmap_is_Some, IH; simpl; [lia|done]. }
  destruct s2 as [|c2 s3]; [done|].
  destruct (outside locb hicb (N_of_ascii c2)) eqn:Ho2; [done|].
  destruct (size =? 3)%N eqn:Hs3.
  { intros Hv. apply fmap_is_Some, IH; simpl; [lia|done]. }
  destruct s3 as [|c3 s4]; [done|].
  destruct (outside locb hicb (N_of_ascii c3)) eqn:Ho3; [done|].
  intros Hv. apply fmap_is_Some, IH; simpl; [lia|done].
Qed.

Lemma length_append (a b : string) :
  String.length (String.append a b) = (String.length a + String.length b)%nat.
Proof. induction a; [done|]. rewrite append_cons. simpl. congruence. Qed.

(** A scalar value takes at most three bytes for each UTF-16 unit. *)
Lemma encode_rune_size c :
  utf16_units c ≤ Z.of_nat (String.length (encode_rune c)) ≤ 3 * utf16_units c
  ∧ 1 ≤ Z.of_nat (String.length (encode_rune c)).
Proof.
  unfold encode_rune, utf16_units.
  repeat match goal with
         | |- context [if ?c then _ else _] => destruct c eqn:?
         end; simpl; nbool; lia.
Qed.

Lemma encode_size cs :
  utf16_length cs ≤ Z.of_nat (String.length (encode cs)) ≤ 3 * utf16_length cs.
Proof.
  induction cs as [|c cs IH]; cbn [encode utf16_length String.length]; [lia|].
  rewrite length_append. pose proof (encode_rune_size c).
  unfold utf16_units in *. destruct (c <? 65536)%N; lia.
Qed.

Lemma utf16_length_0 cs : utf16_length cs = 0 → cs = [].
Proof.
  destruct cs as [|c cs]; [done|]. cbn [utf16_length].
  pose proof (encode_size cs). unfold utf16_units. destruct (c <? 65536)%N; lia.
Qed.

End utf8_facts.

(** ** The monad *)

Lemma bind_unfold {A B} (m : M A) (f : A → M B) h :
  (m ≫= f) h = match m h with
               | Returns a h' => f a h'
               | Panics msg => Panics msg
               | Crashes => Crashes
               end.
Proof. reflexivity. Qed.

Lemma bind_returns {A B} (m : M A) (f : A → M B) h a h' :
  m h = Returns a h' → (m ≫= f) h = f a h'.
Proof. intros Hm. by rewrite bind_unfold, Hm. Qed.

Lemma bind_inv {A B} (m : M A) (f : A → M B) h b h2 :
  (m ≫= f) h = Returns b h2 → ∃ a h1, m h = Returns a h1 ∧ f a h1 = Returns b h2.
Proof. rewrite bind_unfold. destruct (m h); [eauto|done..]. Qed.

Lemma ret_unfold {A} (a : A) h : (mret a : M A) h = Returns a h.
Proof. reflexivity. Qed.

Ltac mred :=
  repeat (progress (repeat rewrite bind_unfold; repeat rewrite ret_unfold;
                    cbn beta iota)).

(** ** The allocator *)

Lemma foldr_max_ge (l : list Z) x : x ∈ l → x ≤ foldr Z.max 0 l.
Proof.
  induction l as [|y l IH]; [by intros ?%elem_of_nil|].
  intros [->|Hx]%elem_of_cons; simpl; [lia|]. specialize (IH Hx). lia.
Qed.

Lemma foldr_max_nonneg (l : list Z) : 0 ≤ foldr Z.max 0 l.
Proof. induction l; simpl; lia. Qed.

Lemma next_ref_above (h : CFHeap) r : is_Some (h !! r) → r < CF.next_ref h.
Proof.
  intros [c Hc]. unfold CF.next_ref.
  assert (r ∈ (map_to_list h).*1) as Hin.
  { apply list_elem_of_fmap. exists (r, c). split; [done|]. by apply elem_of_map_to_list. }
  apply foldr_max_ge in Hin. lia.
Qed.

Lemma next_ref_fresh (h : CFHeap) : h !! CF.next_ref h = None.
Proof.
  destruct (h !! CF.next_ref h) eqn:E; [|done].
  assert (CF.next_ref h < CF.next_ref h); [|lia].
  apply next_ref_above. by eexists.
Qed.

Lemma next_ref_pos (h : CFHeap) : 0 < CF.next_ref h.
Proof. unfold CF.next_ref. pose proof (foldr_max_nonneg (map_to_list h).*1). lia. Qed.

Lemma next_ref_eqb (h : CFHeap) : (CF.next_ref h =? 0) = false.
Proof. pose proof (next_ref_pos h). lia. Qed.

Lemma create_unfold o h :
  CF.create o h = Returns (CF.next_ref h) (<[CF.next_ref h := Cell o 1]> h).
Proof. reflexivity. Qed.

(** ** Objects owned by a call

    [owned h0 ds h]: the heap [h] is [h0] and, besides, the distinct
    objects [ds], each held by one reference. *)
Definition owned (h0 : CFHeap) (ds : list CFTypeRef) (h : CFHeap) : Prop :=
  NoDup ds ∧
  (∀ r, r ∈ ds → h0 !! r = None ∧ ∃ o, h !! r = Some (Cell o 1)) ∧
  (∀ r, r ∉ ds → h !! r = h0 !! r).

Lemma owned_nil h : owned h [] h.
Proof.
  split; [constructor|]. split; [by intros ? ?%elem_of_nil|done].
Qed.

Lemma owned_create h0 ds h o :
  owned h0 ds h →
  owned h0 (CF.next_ref h :: ds) (<[CF.next_ref h := Cell o 1]> h).
Proof.
  intros (Hnd & Hin & Hout).
  assert (CF.next_ref h ∉ ds) as Hfresh.
  { intros Hr. destruct (Hin _ Hr) as (_ & o' & Ho'). by rewrite next_ref_fresh in Ho'. }
  split; [by constructor|]. split.
  - intros r [->|Hr]%elem_of_cons.
    + split; [by rewrite <- Hout, next_ref_fresh|]. exists o. by rewrite lookup_insert_eq.
    + destruct (Hin _ Hr) as (? & o' & Ho'). split; [done|]. exists o'.
      rewrite lookup_insert_ne; [done|]. by intros <-.
  - intros r Hr. apply not_elem_of_cons in Hr as (Hne & Hr).
    rewrite lookup_insert_ne by done. by apply Hout.
Qed.

Lemma release_last r o (h : CFHeap) :
  h !! r = Some (Cell o 1) → Release r h = Returns tt (delete r h).
Proof.
  intros Hr. unfold Release, CF.CFRelease.
  destruct (_ !! _) as [c|] eqn:Hc; [|congruence].
  assert (c = Cell o 1) as -> by congruence. reflexivity.
Qed.

Lemma run_deferred_owned ds : ∀ h0 h, owned h0 ds h → run_deferred ds h = Returns tt h0.
Proof.
  induction ds as [|r ds IH]; intros h0 h (Hnd & Hin & Hout).
  - simpl. rewrite ret_unfold. f_equal. apply map_eq. intros r. apply Hout, not_elem_of_nil.
  - destruct (Hin r) as (Hr0 & o & Hr); [left|].
    cbn [run_deferred]. erewrite bind_returns by (by eapply release_last).
    apply IH. apply NoDup_cons in Hnd as (Hr' & Hnd).
    split; [done|]. split.
    + intros r' Hr''. destruct (Hin r') as (? & o' & Ho'); [by right|].
      split; [done|]. exists o'. rewrite lookup_delete_ne; [done|]. by intros ->.
    + intros r' Hr''. destruct (decide (r' = r)) as [->|Hne].
      * by rewrite lookup_delete_eq.
      * rewrite lookup_delete_ne by done. apply Hout. by apply not_elem_of_cons.
Qed.

(** What [run_deferred] leaves alone. *)
Lemma release_frame r h h' r' :
  Release r h = Returns tt h' → r' ≠ r → h' !! r' = h !! r'.
Proof.
  unfold Release, CF.CFRelease. destruct (_ !! _) as [c|]; [|done].
  destruct (retainCount c <=? 1)%nat; intros [= <-] Hne.
  - by rewrite lookup_delete_ne.
  - by rewrite lookup_insert_ne.
Qed.

Lemma run_deferred_frame ds : ∀ h h' r',
  run_deferred ds h = Returns tt h' → r' ∉ ds → h' !! r' = h !! r'.
Proof.
  induction ds as [|r ds IH]; intros h h' r'; cbn [run_deferred].
  - by intros [= <-].
  - intros (u & h1 & Hr & Hrest)%bind_inv (Hne & Hds)%not_elem_of_cons. destruct u.
    rewrite (IH _ _ _ Hrest Hds). by eapply release_frame.
Qed.

(** ** Conversions to CoreFoundation *)

Lemma StringToCFString_cases s h :
  (string_fails s = true ∧ ∃ e, StringToCFString s h = Returns (0, Some e) h) ∨
  (string_fails s = false ∧ ∃ cs, utf8.decode s = Some cs ∧
     StringToCFString s h
     = Returns (CF.next_ref h, None) (<[CF.next_ref h := Cell (CFString cs) 1]> h)).
Proof.
  unfold StringToCFString, string_fails.
  destruct (utf8.ValidString s) eqn:Hv; simpl; [|left; eauto].
  destruct (Z.of_nat (String.length s) >? MaxUint32) eqn:Hl; [left; eauto|].
  right. split; [done|]. destruct (valid_decodes s Hv) as [cs Hcs]. exists cs. split; [done|].
  unfold CF.CFStringCreateWithBytes. rewrite Hcs. reflexivity.
Qed.

Lemma BytesToCFData_cases b h :
  (Z.of_nat (len b) > MaxUint32 ∧
     BytesToCFData b h = Returns (0, Some (errorString "data is too large")) h) ∨
  (Z.of_nat (len b) ≤ MaxUint32 ∧
     BytesToCFData b h
     = Returns (CF.next_ref h, None) (<[CF.next_ref h := Cell (CFData (elems b)) 1]> h)).
Proof.
  unfold BytesToCFData.
  destruct (Z.of_nat (len b) >? MaxUint32) eqn:Hl; [left; split; [lia|done]|].
  right. split; [lia|]. unfold CF.CFDataCreate.
  rewrite bind_unfold, create_unfold, next_ref_eqb. reflexivity.
Qed.

(** What the switch on the dynamic type of a value does to the heap. *)
Lemma convert_value_cases i h :
  (∃ e, convert_value i h = Returns (0, [], Some e) h) ∨
  (¬ value_fails i ∧ ∃ r, convert_value i h = Returns (r, [], None) h) ∨
  (¬ value_fails i ∧ ∃ o, convert_value i h
     = Returns (CF.next_ref h, [CF.next_ref h], None) (<[CF.next_ref h := Cell o 1]> h)).
Proof.
  destruct i as [|r|b|n|n|n|n|n|n|n|n|b|s|c]; simpl;
    try (left; eexists; reflexivity).
  - right; left. split; [tauto|]. eexists; reflexivity.
  - right; left. split; [tauto|]. destruct b; eexists; reflexivity.
  - right; right. split; [tauto|]. eexists. reflexivity.
  - destruct (BytesToCFData_cases b h) as [[? Hb]|[? Hb]].
    + left. rewrite bind_unfold, Hb. eexists; reflexivity.
    + right; right. split; [lia|]. rewrite bind_unfold, Hb. eexists; reflexivity.
  - destruct (StringToCFString_cases s h) as [[? [e Hs]]|[? (cs & _ & Hs)]].
    + left. rewrite bind_unfold, Hs. eexists; reflexivity.
    + right; right. split; [congruence|]. rewrite bind_unfold, Hs. eexists; reflexivity.
  - destruct (Convert_owned c h) as [(r & e & Hc)|(o & Hc)].
    + left. rewrite bind_unfold, Hc. eexists; reflexivity.
    + right; right. split.
      * intros Hf. destruct (Hf h) as (r & e & Hc'). congruence.
      * rewrite bind_unfold, Hc. eexists; reflexivity.
Qed.

Lemma value_fails_error i h :
  value_fails i → ∃ e, convert_value i h = Returns (0, [], Some e) h.
Proof.
  intros Hf. destruct (convert_value_cases i h) as [?|[[? _]|[? _]]]; [done|done..].
Qed.

(** The loop keeps the heap as it found it, plus the objects whose release
    it has deferred; and it stops at an entry that cannot be converted. *)
Lemma convert_entries_owned es : ∀ m ds h0 h,
  owned h0 ds h →
  ∃ m' ds' err h',
    convert_entries es m ds h = Returns (m', ds', err) h' ∧
    owned h0 ds' h' ∧
    (Exists (λ kv, entry_fails kv.1 kv.2) es → err ≠ None).
Proof.
  induction es as [|[key i] es IH]; intros m ds h0 h Ho.
  - exists m, ds, None, h. split; [done|]. split; [done|]. by intros ?%Exists_nil.
  - cbn [convert_entries].
    destruct (convert_value_cases i h) as [[e Hv]|[[Hnf [r Hv]]|[Hnf [o Hv]]]];
      rewrite bind_unfold, Hv; cbn beta iota.
    + exists m, ds, (Some e), h. split; [done|]. split; [done|]. done.
    + destruct (StringToCFString_cases key h) as [[? [e Hs]]|[Hk (cs & _ & Hs)]];
        rewrite bind_unfold, Hs; cbn beta iota.
      * exists m, ds, (Some e), h. split; [done|]. split; [done|]. done.
      * destruct (IH (<[CF.next_ref h := r]> m) (CF.next_ref h :: ds) h0
                    (<[CF.next_ref h := Cell (CFString cs) 1]> h))
          as (m' & ds' & err & h' & Hrun & Ho' & Hex); [by apply owned_create|].
        exists m', ds', err, h'. split; [done|]. split; [done|].
        intros [[Hf|Hf]|Hf]%Exists_cons; simpl in *; [done|congruence|auto].
    + set (h1 := <[CF.next_ref h := Cell o 1]> h).
      assert (owned h0 (CF.next_ref h :: ds) h1) as Ho1 by by apply owned_create.
      destruct (StringToCFString_cases key h1) as [[? [e Hs]]|[Hk (cs & _ & Hs)]];
        rewrite bind_unfold, Hs; cbn beta iota.
      * exists m, (CF.next_ref h :: ds), (Some e), h1. split; [done|]. split; [done|]. done.
      * destruct (IH (<[CF.next_ref h1 := CF.next_ref h]> m)
                    (CF.next_ref h1 :: CF.next_ref h :: ds) h0
                    (<[CF.next_ref h1 := Cell (CFString cs) 1]> h1))
          as (m' & ds' & err & h' & Hrun & Ho' & Hex); [by apply owned_create|].
        exists m', ds', err, h'. split; [done|]. split; [done|].
        intros [[Hf|Hf]|Hf]%Exists_cons; simpl in *; [done|congruence|auto].
Qed.


Lemma retain_inv (r : Z) (h : CFHeap) u h' :
  CF.CFRetain r h = Returns u h' → ∀ r' : Z, is_Some (h' !! r') ↔ is_Some (h !! r').
Proof.
  unfold CF.CFRetain. destruct (_ !! _) as [c|] eqn:Hr; [|done].
  intros [= <- <-] r'. destruct (decide (r' = r)) as [->|Hne].
  - rewrite lookup_insert_eq. split; eauto.
  - by rewrite lookup_insert_ne.
Qed.

Lemma retain_all_inv rs : ∀ (h : CFHeap) u h',
  CF.retain_all rs h = Returns u h' → ∀ r' : Z, is_Some (h' !! r') ↔ is_Some (h !! r').
Proof.
  induction rs as [|r rs IH]; intros h u h'; cbn [CF.retain_all].
  - by intros [= <- <-].
  - intros (u1 & h1 & Hr & Hrest)%bind_inv r'.
    rewrite (IH _ _ _ Hrest r'). by eapply retain_inv.
Qed.

Lemma release_live r (h : CFHeap) :
  is_Some (h !! r) → ∃ h', Release r h = Returns tt h'.
Proof.
  intros [c Hc]. unfold Release, CF.CFRelease.
  destruct (_ !! _) as [c'|] eqn:Hc'; [|congruence].
  destruct (retainCount c' <=? 1)%nat; eauto.
Qed.

Section build_ok.
Context `{Platform}.

Lemma MapToCFDictionary_inv m h cfDict err h3 :
  MapToCFDictionary m h = Returns (cfDict, err) h3 →
  err = None ∧ h !! cfDict = None ∧ cfDict ≠ 0 ∧
  ∃ h2 es, (∀ r, is_Some (h2 !! r) ↔ is_Some (h !! r)) ∧
           h3 = <[cfDict := Cell (CFDictionary es) 1]> h2.
Proof.
  unfold MapToCFDictionary, CF.CFDictionaryCreate.
  intros (r & h2' & Hc & Hrest)%bind_inv.
  apply bind_inv in Hc as (u1 & h1 & Hk & Hc).
  apply bind_inv in Hc as (u2 & h2 & Hv & Hc).
  rewrite create_unfold in Hc. injection Hc as <- <-.
  rewrite next_ref_eqb in Hrest. injection Hrest as <- <- <-.
  assert (∀ r, is_Some (h2 !! r) ↔ is_Some (h !! r)) as Hdom.
  { intros r. rewrite (retain_all_inv _ _ _ _ Hv r). by eapply retain_all_inv. }
  split; [done|]. split; [|split].
  - apply eq_None_not_Some. rewrite <- Hdom. rewrite next_ref_fresh. by intros [? ?].
  - pose proof (next_ref_pos h2). lia.
  - eauto.
Qed.

(** A build that succeeds returns a dictionary that is alive, at an
    address that was free, and every object alive before is alive after. *)
Lemma ConvertMapToCFDictionary_ok attr h0 cfDict h1 :
  ConvertMapToCFDictionary attr h0 = Returns (cfDict, None) h1 →
  cfDict ≠ 0 ∧ h0 !! cfDict = None ∧
  (∃ es, h1 !! cfDict = Some (Cell (CFDictionary es) 1)) ∧
  (∀ r, is_Some (h0 !! r) → is_Some (h1 !! r)).
Proof.
  unfold ConvertMapToCFDictionary.
  destruct (convert_entries_owned (range_attr attr) ∅ [] h0 h0 (owned_nil h0))
    as (m' & ds' & err & h' & Hrun & (Hnd & Hin & Hout) & _).
  rewrite bind_unfold, Hrun. cbn beta iota.
  destruct err as [e|].
  { intros (u & h2 & _ & [=])%bind_inv. }
  intros ([d err] & h3 & Hmap & Hrest)%bind_inv.
  apply MapToCFDictionary_inv in Hmap as (-> & Hfree & Hnz & h2 & es & Hdom & ->).
  apply bind_inv in Hrest as ([] & h4 & Hdef & [= -> ->]).
  assert (cfDict ∉ ds') as Hnotin.
  { intros Hd. destruct (Hin _ Hd) as (_ & o & Ho). congruence. }
  split; [done|]. split; [|split].
  - by rewrite <- Hout.
  - exists es. rewrite (run_deferred_frame _ _ _ _ Hdef Hnotin). apply lookup_insert_eq.
  - intros r Hr.
    assert (r ∉ ds') as Hr'.
    { intros Hd. destruct (Hin _ Hd) as (Hn & _). rewrite Hn in Hr. by destruct Hr. }
    rewrite (run_deferred_frame _ _ _ _ Hdef Hr').
    assert (r ≠ cfDict) as Hne.
    { intros ->. rewrite <- Hout in Hr by done. rewrite Hfree in Hr. by destruct Hr. }
    rewrite lookup_insert_ne by done. apply Hdom. by rewrite Hout.
Qed.

Lemma subseteq_live (h h' : CFHeap) r : h ⊆ h' → is_Some (h !! r) → is_Some (h' !! r).
Proof. intros Hsub [c Hc]. exists c. by eapply lookup_weaken. Qed.

End build_ok.

(** ** Round trips *)

Lemma GoString_terminated s :
  has_nul s = false → GoString (s +:+ String zero EmptyString) = s.
Proof.
  induction s as [|c s IH]; [done|].
  cbn [has_nul]. intros [Hc Hs]%orb_false_elim.
  rewrite append_cons. cbn [GoString]. rewrite Hc. f_equal. by apply IH.
Qed.

Lemma CFStringGetBytes_fits cs : ∀ maxBufLen,
  Z.of_nat (String.length (utf8.encode cs)) ≤ maxBufLen →
  CF.CFStringGetBytes cs maxBufLen = utf8.encode cs.
Proof.
  induction cs as [|c cs IH]; intros maxBufLen; [done|].
  cbn [utf8.encode CF.CFStringGetBytes]. rewrite length_append. intros Hle.
  destruct (Z.of_nat (String.length (utf8.encode_rune c)) <=? maxBufLen) eqn:E; [|lia].
  f_equal. apply IH. lia.
Qed.

Lemma to_signed_id w v : 0 < w → - 2 ^ (w - 1) ≤ v < 2 ^ (w - 1) → to_signed w v = v.
Proof.
  intros Hw Hv. unfold to_signed.
  assert (2 ^ w = 2 * 2 ^ (w - 1)) as Hp.
  { rewrite <- Z.pow_succ_r by lia. f_equal. lia. }
  rewrite Z.mod_small; lia.
Qed.

Lemma to_unsigned_id w v : 0 ≤ v < 2 ^ w → to_unsigned w v = v.
Proof. intros Hv. unfold to_unsigned. by apply Z.mod_small. Qed.

Lemma deref_live (r : Z) (h : CFHeap) o rc :
  h !! r = Some (Cell o rc) → CF.deref r h = Returns o h.
Proof. intros Hr. unfold CF.deref. by rewrite Hr. Qed.

Section string_roundtrip.
Context `{Platform}.

(** Reading back a string made from well-formed UTF-8 without a NUL. *)
Lemma CFStringToString_decoded (ref : Z) (h : CFHeap) s cs rc :
  h !! ref = Some (Cell (CFString cs) rc) →
  utf8.decode s = Some cs →
  Z.of_nat (String.length s) ≤ MaxUint32 →
  has_nul s = false →
  CFStringToString ref h = Returns s h.
Proof.
  intros Href Hdec Hlen Hnul.
  pose proof (decode_encode s cs Hdec) as Henc.
  pose proof (encode_size cs) as Hsize. rewrite Henc in Hsize.
  unfold CFStringToString, CF.as_string.
  mred. rewrite (deref_live _ _ _ _ Href). mred.
  destruct (CFStringGetCStringPtr_hit cs).
  { rewrite Henc. f_equal. by apply GoString_terminated. }
  unfold CF.CFStringGetLength.
  destruct (utf8.utf16_length cs =? 0) eqn:E0.
  { apply Z.eqb_eq, utf16_length_0 in E0. subst cs. by rewrite <- Henc. }
  unfold CF.CFStringGetMaximumSizeForEncoding, MaxUint32 in *.
  destruct (utf8.utf16_length cs * 3 =? 0) eqn:E2; [lia|].
  unfold make_bytes. destruct (utf8.utf16_length cs * 3 <? 0) eqn:E3; [lia|].
  mred. f_equal.
  rewrite CFStringGetBytes_fits; [done|]. rewrite Henc. lia.
Qed.

End string_roundtrip.

Lemma CFDataToBytes_small (ref : Z) (h : CFHeap) bytes rc :
  h !! ref = Some (Cell (CFData bytes) rc) →
  Z.of_nat (length bytes) < 2 ^ 31 →
  CFDataToBytes ref h = Returns (Some bytes, None) h.
Proof.
  intros Href Hlen. unfold CFDataToBytes, CF.as_data.
  mred. rewrite (deref_live _ _ _ _ Href). mred.
  rewrite to_signed_id by lia.
  unfold GoBytes. destruct (Z.of_nat (length bytes) =? 0) eqn:E0.
  - destruct bytes; [done|]. simpl in E0. lia.
  - destruct (Z.of_nat (length bytes) <? 0) eqn:E1; [lia|].
    mred. rewrite Nat2Z.id, firstn_all. reflexivity.
Qed.

Lemma CFDataToBytes_large (ref : Z) (h : CFHeap) bytes rc :
  h !! ref = Some (Cell (CFData bytes) rc) →
  2 ^ 31 ≤ Z.of_nat (length bytes) < 2 ^ 32 →
  CFDataToBytes ref h = Panics "gobytes: length out of range".
Proof.
  intros Href Hlen. unfold CFDataToBytes, CF.as_data.
  mred. rewrite (deref_live _ _ _ _ Href). mred.
  assert (to_signed 32 (Z.of_nat (length bytes)) = Z.of_nat (length bytes) - 2 ^ 32) as ->.
  { unfold to_signed. change (32 - 1) with 31.
    replace (Z.of_nat (length bytes) + 2 ^ 31)
      with ((Z.of_nat (length bytes) - 2 ^ 31) + 1 * 2 ^ 32) by lia.
    rewrite Z.mod_add by lia. rewrite Z.mod_small; lia. }
  unfold GoBytes.
  destruct (Z.of_nat (length bytes) - 2 ^ 32 =? 0) eqn:E0; [lia|].
  destruct (Z.of_nat (length bytes) - 2 ^ 32 <? 0) eqn:E1; [done|lia].
Qed.

Lemma elems_len_0 {A} (b : slice A) : len b = 0%nat → elems b = [].
Proof. destruct b as [[|? ?]|]; done. Qed.

(** ** Decoders only read *)

Definition reads {A} (m : M A) : Prop := ∀ h a h', m h = Returns a h' → h' = h.

Lemma reads_ret {A} (a : A) : reads (mret a).
Proof. by intros h a' h' [= _ <-]. Qed.

Lemma reads_bind {A B} (m : M A) (f : A → M B) :
  reads m → (∀ a, reads (f a)) → reads (m ≫= f).
Proof.
  intros Hm Hf h b h2 (a & h1 & H1 & H2)%bind_inv.
  apply Hm in H1 as ->. by apply Hf in H2.
Qed.

Lemma reads_panic {A} msg : reads (panic msg : M A).
Proof. by intros h a h'. Qed.

Lemma reads_crash {A} : reads (crash : M A).
Proof. by intros h a h'. Qed.

Lemma reads_deref r : reads (CF.deref r).
Proof. intros h a h'. unfold CF.deref. destruct (_ !! _); [|done]. by intros [= _ <-]. Qed.

Ltac reads_tac :=
  repeat first
    [ apply reads_ret | apply reads_panic | apply reads_crash | apply reads_deref
    | apply reads_bind; [|intros ?]
    | match goal with
      | |- reads (match ?x with _ => _ end) => destruct x
      | |- reads (if ?x then _ else _) => destruct x
      | |- reads (let '(_, _) := ?x in _) => destruct x
      end ].

Lemma reads_as_string r : reads (CF.as_string r).
Proof. unfold CF.as_string. reads_tac. Qed.
Lemma reads_as_data r : reads (CF.as_data r).
Proof. unfold CF.as_data. reads_tac. Qed.
Lemma reads_as_number r : reads (CF.as_number r).
Proof. unfold CF.as_number. reads_tac. Qed.
Lemma reads_as_date r : reads (CF.as_date r).
Proof. unfold CF.as_date. reads_tac. Qed.
Lemma reads_as_dictionary r : reads (CF.as_dictionary r).
Proof. unfold CF.as_dictionary. reads_tac. Qed.
Lemma reads_as_array r : reads (CF.as_array r).
Proof. unfold CF.as_array. reads_tac. Qed.
Lemma reads_CFGetTypeID r : reads (CF.CFGetTypeID r).
Proof. unfold CF.CFGetTypeID. reads_tac. Qed.

Lemma reads_CFDataToBytes r : reads (CFDataToBytes r).
Proof.
  unfold CFDataToBytes, GoBytes. apply reads_bind; [apply reads_as_data|intros ?]. reads_tac.
Qed.

Lemma reads_CFNumberToInterface r : reads (CFNumberToInterface r).
Proof.
  unfold CFNumberToInterface. apply reads_bind; [apply reads_as_number|intros [? ?]].
  reads_tac.
Qed.

Section decoders.
Context `{Platform}.

Lemma reads_CFStringToString r : reads (CFStringToString r).
Proof.
  unfold CFStringToString, make_bytes.
  apply reads_bind; [apply reads_as_string|intros ?]. reads_tac.
Qed.

Lemma reads_attrKey r : reads (attrKey r).
Proof. apply reads_CFStringToString. Qed.

Lemma reads_CFDateToTime r : reads (CFDateToTime r).
Proof. unfold CFDateToTime. apply reads_bind; [apply reads_as_date|intros ?]. reads_tac. Qed.

Lemma reads_CFDictionaryToMap r : reads (CFDictionaryToMap r).
Proof.
  unfold CFDictionaryToMap. apply reads_bind; [apply reads_as_dictionary|intros ?]. reads_tac.
Qed.

(** ** One turn of the loop of [convertResult]

    [entry_effect v h key r r' err]: what the switch does for the key
    text [key] and the value [v], from the result [r]. *)
Inductive entry_effect (v : CFTypeRef) (h : CFHeap) (key : string) (r : QueryResult)
    : QueryResult → option error → Prop :=
  | eff_skip : is_known key = false → entry_effect v h key r r None
  | eff_Service s : key = ServiceKey → CFStringToString v h = Returns s h →
      entry_effect v h key r (with_Service s r) None
  | eff_Server s : key = ServerKey → CFStringToString v h = Returns s h →
      entry_effect v h key r (with_Server s r) None
  | eff_Protocol s : key = ProtocolKey → CFStringToString v h = Returns s h →
      entry_effect v h key r (with_Protocol s r) None
  | eff_AuthenticationType s :
      key = AuthenticationTypeKey → CFStringToString v h = Returns s h →
      entry_effect v h key r (with_AuthenticationType s r) None
  | eff_Port port : key = PortKey → CFNumberToInterface v h = Returns (Int32 port) h →
      entry_effect v h key r (with_Port port r) None
  | eff_Port_mismatch val : key = PortKey → CFNumberToInterface v h = Returns val h →
      (∀ n, val ≠ Int32 n) →
      entry_effect v h key r r
        (Some (errorString ("expected int32 for PortKey, got " +:+ type_name val)))
  | eff_Path s : key = PathKey → CFStringToString v h = Returns s h →
      entry_effect v h key r (with_Path s r) None
  | eff_Account s : key = AccountKey → CFStringToString v h = Returns s h →
      entry_effect v h key r (with_Account s r) None
  | eff_AccessGroup s : key = AccessGroupKey → CFStringToString v h = Returns s h →
      entry_effect v h key r (with_AccessGroup s r) None
  | eff_Label s : key = LabelKey → CFStringToString v h = Returns s h →
      entry_effect v h key r (with_Label s r) None
  | eff_Description s : key = DescriptionKey → CFStringToString v h = Returns s h →
      entry_effect v h key r (with_Description s r) None
  | eff_Comment s : key = CommentKey → CFStringToString v h = Returns s h →
      entry_effect v h key r (with_Comment s r) None
  | eff_Data b : key = DataKey → CFDataToBytes v h = Returns (b, None) h →
      entry_effect v h key r (with_Data b r) None
  | eff_CreationDate t : key = CreationDateKey → CFDateToTime v h = Returns t h →
      entry_effect v h key r (with_CreationDate t r) None
  | eff_ModificationDate t : key = ModificationDateKey → CFDateToTime v h = Returns t h →
      entry_effect v h key r (with_ModificationDate t r) None.

Lemma CFDataToBytes_no_error r h b e h' : CFDataToBytes r h ≠ Returns (b, Some e) h'.
Proof.
  unfold CFDataToBytes. intros (bs & h1 & _ & Hrest)%bind_inv.
  apply bind_inv in Hrest as (b' & h2 & _ & [=]).
Qed.

Lemma is_known_false key :
  is_known key = false ↔ Forall (λ K, String.eqb key K = false) known_keys.
Proof.
  unfold is_known. induction known_keys as [|K Ks IH]; simpl.
  - split; [constructor|done].
  - rewrite orb_false_iff, IH, Forall_cons. tauto.
Qed.

Ltac eqb_case Hrun :=
  match type of Hrun with
  | context [String.eqb ?key ?K] =>
    let E := fresh "E" in
    destruct (String.eqb key K) eqn:E; [apply String.eqb_eq in E|]
  end.

Lemma convertResult_entry_inv k v r h r' err h' :
  convertResult_entry k v r h = Returns (r', err) h' →
  h' = h ∧ ∃ key, attrKey k h = Returns key h ∧ entry_effect v h key r r' err.
Proof.
  unfold convertResult_entry. intros (key & h1 & Hkey & Hrun)%bind_inv.
  pose proof (reads_attrKey _ _ _ _ Hkey) as ->.
  enough (h' = h ∧ entry_effect v h key r r' err) as [-> ?] by eauto.
  repeat eqb_case Hrun.
  all: try (apply bind_inv in Hrun as (x & h1 & Hdec & Hrun);
            first [ pose proof (reads_CFStringToString _ _ _ _ Hdec) as ->
                  | pose proof (reads_CFDateToTime _ _ _ _ Hdec) as ->
                  | pose proof (reads_CFNumberToInterface _ _ _ _ Hdec) as ->
                  | pose proof (reads_CFDataToBytes _ _ _ _ Hdec) as -> ]).
  all: cbv [mret M_ret] in Hrun.
  all: try (injection Hrun as <- <- <-; split; [done|]; by econstructor).
  - (* Port *)
    destruct x; cbv [mret M_ret] in Hrun; injection Hrun as <- <- <-; (split; [done|]).
    all: try (by eapply eff_Port).
    all: match goal with
         | Hd : CFNumberToInterface _ _ = Returns ?val _ |- _ =>
           apply (eff_Port_mismatch _ _ _ _ val); [done|exact Hd|intros ?; discriminate]
         end.
  - (* Data *)
    destruct x as [b [e|]]; [by apply CFDataToBytes_no_error in Hdec|].
    injection Hrun as <- <- <-. split; [done|]. by eapply eff_Data.
  - (* none of the known keys *)
    injection Hrun as <- <- <-. split; [done|]. apply eff_skip.
    apply is_known_false. unfold known_keys. by repeat constructor.
Qed.

Lemma convertResult_entry_run k v r h key r' err :
  attrKey k h = Returns key h → entry_effect v h key r r' err →
  convertResult_entry k v r h = Returns (r', err) h.
Proof.
  intros Hkey Heff. unfold convertResult_entry. rewrite bind_unfold, Hkey. cbn beta iota.
  destruct Heff as [Hunk| | | | | | | | | | | | | | | ]; subst;
    try (cbn [String.eqb Ascii.eqb Bool.eqb ServiceKey ServerKey ProtocolKey
              AuthenticationTypeKey PortKey PathKey AccountKey AccessGroupKey LabelKey
              DescriptionKey CommentKey DataKey CreationDateKey ModificationDateKey];
         cbn beta iota;
         match goal with Hd : _ = Returns _ _ |- _ => rewrite bind_unfold, Hd end;
         reflexivity).
  - apply is_known_false in Hunk. unfold known_keys in Hunk.
    repeat match goal with
           | Hf : Forall _ (_ :: _) |- _ => apply Forall_cons in Hf as [-> Hf]
           end.
    reflexivity.
  - (* mismatch *)
    cbn [String.eqb Ascii.eqb Bool.eqb ServiceKey ServerKey ProtocolKey
         AuthenticationTypeKey PortKey]. cbn beta iota.
    match goal with Hd : _ = Returns _ _ |- _ => rewrite bind_unfold, Hd end.
    cbn beta iota. destruct val; try reflexivity.
    match goal with Hn : ∀ n, _ ≠ _ |- _ => by destruct (Hn n) end.
Qed.
End decoders.

Lemma filter_none {A} (P : A → Prop) `{∀ x, Decision (P x)} (l : list A) :
  Forall (λ x, ¬ P x) l → filter P l = [].
Proof.
  induction 1 as [|x l Hx _ IH]; [done|]. by rewrite filter_cons_False.
Qed.

Section loops.
Context `{Platform}.

(** ** The loop of [convertResult] *)

Lemma convertResult_range_inv es : ∀ r h item err h',
  convertResult_range es r h = Returns (item, err) h' →
  h' = h ∧ ((∃ r', item = Some r' ∧ err = None) ∨ (item = None ∧ ∃ e, err = Some e)).
Proof.
  induction es as [|[k v] es IH]; intros r h item err h'; cbn [convertResult_range].
  - intros [= <- <- <-]. eauto.
  - intros ([r1 [e|]] & h1 & Hentry & Hrest)%bind_inv.
    + apply convertResult_entry_inv in Hentry as [-> _].
      injection Hrest as <- <- <-. eauto.
    + apply convertResult_entry_inv in Hentry as [-> _]. by apply IH in Hrest.
Qed.

Lemma reads_convertResult d : reads (convertResult d).
Proof.
  intros h a h'. unfold convertResult.
  intros (m & h1 & Hm & Hrest)%bind_inv. apply reads_CFDictionaryToMap in Hm as ->.
  destruct a as [item err]. by apply convertResult_range_inv in Hrest as [-> _].
Qed.

Lemma convertResult_inv d h item err h' :
  convertResult d h = Returns (item, err) h' →
  h' = h ∧ ((∃ r', item = Some r' ∧ err = None) ∨ (item = None ∧ ∃ e, err = Some e)).
Proof.
  unfold convertResult. intros (m & h1 & Hm & Hrest)%bind_inv.
  apply reads_CFDictionaryToMap in Hm as ->. by apply convertResult_range_inv in Hrest.
Qed.

(** An entry whose key is none of the known keys changes nothing. *)
Lemma convertResult_entry_ignored k v r h :
  ignored h (k, v) = true → convertResult_entry k v r h = Returns (r, None) h.
Proof.
  unfold ignored. cbn [fst]. destruct (attrKey k h) as [key h1| |] eqn:Hkey; [|done..].
  pose proof (reads_attrKey _ _ _ _ Hkey) as ->.
  intros Hk%negb_true_iff. eapply convertResult_entry_run; [done|]. by apply eff_skip.
Qed.

Lemma convertResult_range_filter es : ∀ r h,
  convertResult_range es r h
  = convertResult_range (filter (λ kv, ignored h kv = false) es) r h.
Proof.
  induction es as [|[k v] es IH]; intros r h; [done|].
  rewrite filter_cons. destruct (decide (ignored h (k, v) = false)) as [Hi|Hi].
  - cbn [convertResult_range]. rewrite !bind_unfold.
    destruct (convertResult_entry k v r h) as [[r1 [e|]] h1| |] eqn:Hentry; [done| |done..].
    apply convertResult_entry_inv in Hentry as [-> _]. apply IH.
  - apply not_false_is_true in Hi. cbn [convertResult_range].
    rewrite bind_unfold, (convertResult_entry_ignored _ _ _ _ Hi). cbn beta iota. apply IH.
Qed.

(** A turn of the loop writes at most the field of its own key. *)
Lemma entry_effect_field v h key r r' K same :
  entry_effect v h key r r' None → (K, same) ∈ field_of_key → key ≠ K → same r r'.
Proof.
  intros Heff Hin Hne. unfold field_of_key in Hin.
  repeat (apply elem_of_cons in Hin as [[= -> ->]|Hin]);
    [..|by apply elem_of_nil in Hin];
    inversion Heff; subst; first [reflexivity|congruence].
Qed.

Lemma field_of_key_equiv K same :
  (K, same) ∈ field_of_key → (∀ r, same r r) ∧ (∀ a b c, same a b → same b c → same a c).
Proof.
  intros Hin. unfold field_of_key in Hin.
  repeat (apply elem_of_cons in Hin as [[= -> ->]|Hin]);
    [..|by apply elem_of_nil in Hin]; split; congruence.
Qed.

Lemma convertResult_range_field K same es : ∀ r h r' h',
  (K, same) ∈ field_of_key →
  Forall (λ kv, ¬ reads_as h K kv) es →
  convertResult_range es r h = Returns (Some r', None) h' →
  same r r'.
Proof.
  induction es as [|[k v] es IH]; intros r h r' h' Hin Hall; cbn [convertResult_range].
  - intros [= <- <-]. by apply (field_of_key_equiv K same).
  - apply Forall_cons in Hall as [Hk Hall].
    intros ([r1 [e|]] & h1 & Hentry & Hrest)%bind_inv; [done|].
    apply convertResult_entry_inv in Hentry as (-> & key & Hkey & Heff).
    apply (proj2 (field_of_key_equiv K same Hin) r r1 r').
    + eapply entry_effect_field; [done..|]. intros ->. apply Hk. by exists h.
    + by eapply IH.
Qed.

(** The Go map that [CFDictionaryToMap] builds holds entries of the
    dictionary. *)
Lemma foldl_insert_elem (entries : list (Z * Z)) : ∀ (m : gmap Z Z) k v,
  foldl (λ m kv, <[kv.1 := kv.2]> m) m entries !! k = Some v →
  (k, v) ∈ entries ∨ m !! k = Some v.
Proof.
  induction entries as [|[k0 v0] entries IH]; intros m k v; cbn [foldl]; [by right|].
  intros [Hin|Hm]%IH; [left; by right|]. cbn [fst snd] in Hm.
  destruct (decide (k0 = k)) as [->|Hne].
  - rewrite lookup_insert_eq in Hm. injection Hm as ->. left; by left.
  - rewrite lookup_insert_ne in Hm by done. by right.
Qed.

Lemma CFDictionaryToMap_elem d (h : CFHeap) entries rc :
  h !! d = Some (Cell (CFDictionary entries) rc) →
  ∃ m, CFDictionaryToMap d h = Returns m h ∧
       ∀ kv, kv ∈ range_refs m → kv ∈ entries.
Proof.
  intros Hd. eexists. split.
  - unfold CFDictionaryToMap, CF.as_dictionary. mred.
    rewrite (deref_live _ _ _ _ Hd). mred. reflexivity.
  - intros [k v]. rewrite range_refs_perm, elem_of_map_to_list.
    intros [?|Hm]%foldl_insert_elem; [done|]. by rewrite lookup_empty in Hm.
Qed.

(** ** The type-mismatch check on the port *)

Lemma entry_returned_indep k v r r0 h :
  returned (convertResult_entry k v r0 h) = true →
  ∃ r' err, convertResult_entry k v r h = Returns (r', err) h ∧
            (err = None ∨ ∃ val, (∀ n, val ≠ Int32 n) ∧
               err = Some (errorString ("expected int32 for PortKey, got " +:+ type_name val))).
Proof.
  destruct (convertResult_entry k v r0 h) as [[r1 err] h1| |] eqn:Hentry; [|done..].
  intros _. apply convertResult_entry_inv in Hentry as (-> & key & Hkey & Heff).
  inversion Heff; subst;
    (eexists _, _; split; [eapply convertResult_entry_run; [done|]; by econstructor|]);
    eauto.
Qed.

Lemma convertResult_range_port es : ∀ r h k v val,
  Forall (λ kv, returned (convertResult_entry kv.1 kv.2 QueryResult_zero h) = true) es →
  (k, v) ∈ es →
  attrKey k h = Returns PortKey h →
  CFNumberToInterface v h = Returns val h →
  (∀ n, val ≠ Int32 n) →
  ∃ val', (∀ n, val' ≠ Int32 n) ∧
    convertResult_range es r h
    = Returns (None, Some (errorString ("expected int32 for PortKey, got "
                                         +:+ type_name val'))) h.
Proof.
  induction es as [|[k0 v0] es IH]; intros r h k v val Hall Hin Hkey Hval Hne.
  { by apply elem_of_nil in Hin. }
  apply Forall_cons in Hall as [Hret Hall]. cbn [fst snd] in Hret.
  destruct (entry_returned_indep k0 v0 r _ h Hret) as (r1 & err & Hrun & Herr).
  cbn [convertResult_range]. rewrite bind_unfold, Hrun. cbn beta iota.
  destruct Herr as [->|(val' & Hne' & ->)]; [|by exists val'].
  apply elem_of_cons in Hin as [[= <- <-]|Hin]; [|by eapply IH].
  rewrite (convertResult_entry_run k v r h PortKey r _ Hkey
             (eff_Port_mismatch _ _ _ _ val eq_refl Hval Hne)) in Hrun.
  done.
Qed.

End loops.

(** ** Queries *)

Lemma utf16_length_nonneg cs : 0 ≤ utf8.utf16_length cs.
Proof. pose proof (encode_size cs). induction cs; simpl in *; [lia|]. unfold utf8.utf16_units in *. destruct (_ <? _)%N; lia. Qed.

Lemma CFGetTypeID_live (r : Z) (h : CFHeap) o rc :
  h !! r = Some (Cell o rc) → CF.CFGetTypeID r h = Returns (CF.type_of o) h.
Proof.
  intros Hr. unfold CF.CFGetTypeID. mred. rewrite (deref_live _ _ _ _ Hr). by mred.
Qed.

Section query.
Context `{Platform}.

Lemma CFStringToString_live (r : Z) (h : CFHeap) cs rc :
  h !! r = Some (Cell (CFString cs) rc) → ∃ s, CFStringToString r h = Returns s h.
Proof.
  intros Hr. unfold CFStringToString, CF.as_string. mred.
  rewrite (deref_live _ _ _ _ Hr). mred.
  destruct (CFStringGetCStringPtr_hit cs); [by eexists|].
  destruct (_ =? 0); [by eexists|]. destruct (_ =? 0); [by eexists|].
  unfold make_bytes, CF.CFStringGetMaximumSizeForEncoding, CF.CFStringGetLength.
  pose proof (utf16_length_nonneg cs).
  destruct (_ <? 0) eqn:E; [lia|]. mred. by eexists.
Qed.

Lemma CFTypeDescription_live (ref : Z) (h : CFHeap) :
  is_Some (h !! ref) → ∃ desc, CFTypeDescription ref h = Returns desc h.
Proof.
  intros [[o rc] Href]. unfold CFTypeDescription. mred.
  rewrite (CFGetTypeID_live _ _ _ _ Href). mred.
  unfold CFCopyTypeIDDescription. rewrite create_unfold. mred.
  edestruct (CFStringToString_live (CF.next_ref h)) as [desc Hdesc];
    [apply lookup_insert_eq|].
  rewrite Hdesc. mred. erewrite release_last by apply lookup_insert_eq. mred.
  exists desc. f_equal. apply delete_insert_id, next_ref_fresh.
Qed.

(** ** The loop of [QueryItem] over an array response *)

Lemma QueryItem_array_inv arr : ∀ results h out h',
  QueryItem_array arr results h = Returns out h' → h' = h.
Proof.
  induction arr as [|p arr IH]; intros results h out h'; cbn [QueryItem_array].
  - by intros [= _ <-].
  - intros (t & h1 & Ht & Hrest)%bind_inv. apply reads_CFGetTypeID in Ht as ->.
    destruct (decide (t = CFDictionaryTypeID)); [|by injection Hrest as _ <-].
    apply bind_inv in Hrest as ([item err] & h1 & Hc & Hrest).
    apply reads_convertResult in Hc as ->.
    destruct err; [by injection Hrest as _ <-|].
    apply bind_inv in Hrest as (r & h1 & Hd & Hrest).
    destruct item; [|done]. injection Hd as <- <-. by apply IH in Hrest.
Qed.

(** An element that is not a dictionary: whatever stands before it, no
    list of results is returned; and an error is, when the elements
    before it are decoded. *)
Lemma QueryItem_array_not_dictionary pre : ∀ e post results (h : CFHeap) oe rce,
  h !! e = Some (Cell oe rce) → CF.type_of oe ≠ CFDictionaryTypeID →
  (∀ res err h', QueryItem_array (pre ++ e :: post) results h = Returns (res, err) h' →
                 res = None ∧ err ≠ None) ∧
  (Forall (λ p, decodes h p = true) pre →
   ∃ err, QueryItem_array (pre ++ e :: post) results h = Returns (None, Some err) h).
Proof.
  induction pre as [|p pre IH]; intros e post results h oe rce He Hnd.
  - cbn [app QueryItem_array]. rewrite bind_unfold, (CFGetTypeID_live _ _ _ _ He).
    cbn beta iota. destruct (decide _) as [?|_]; [done|]. split.
    + by intros res err h' [= <- <- _].
    + intros _. by eexists.
  - cbn [app QueryItem_array]. split.
    + intros res err h' (t & h1 & Ht & Hrest)%bind_inv.
      apply reads_CFGetTypeID in Ht as ->.
      destruct (decide (t = CFDictionaryTypeID)); [|by injection Hrest as <- <- _].
      apply bind_inv in Hrest as ([item err'] & h1 & Hc & Hrest).
      apply reads_convertResult in Hc as ->.
      destruct err'; [by injection Hrest as <- <- _|].
      apply bind_inv in Hrest as (r & h1 & Hd & Hrest).
      destruct item; [|done]. injection Hd as <- <-.
      by eapply (IH e post) in Hrest.
    + intros [Hp Hpre]%Forall_cons. unfold decodes in Hp. rewrite bind_unfold.
      destruct (CF.CFGetTypeID p h) as [t h1| |] eqn:Ht; [|done..].
      apply reads_CFGetTypeID in Ht as ->. cbn beta iota.
      destruct (decide (t = CFDictionaryTypeID)); [|by eexists].
      rewrite bind_unfold.
      destruct (convertResult p h) as [[item err] h1| |] eqn:Hc; [|done..].
      apply convertResult_inv in Hc as (-> & [(r & -> & ->)|(-> & e' & ->)]).
      * cbn beta iota. unfold deref_result. mred.
        by apply (IH e post _ h oe rce).
      * cbn beta iota. by eexists.
Qed.

End query.

(** * A platform to run on *)

Module Demo.

(** [CFStringGetCStringPtr] hands out the storage of a string of ASCII
    characters and of no other. *)
Definition ascii_only (cs : list N) : bool := forallb (λ c, (c <? 0x80)%N) cs.

Definition description (t : CFTypeID) : list N :=
  default []
    (utf8.decode
       match t with
       | CFStringTypeID => "CFString"
       | CFDictionaryTypeID => "CFDictionary"
       | CFArrayTypeID => "CFArray"
       | CFDataTypeID => "CFData"
       | CFNumberTypeID => "CFNumber"
       | CFBooleanTypeID => "CFBoolean"
       | CFDateTypeID => "CFDate"
       | CFOtherTypeID _ => "CFType"
       end).

(** A response is allocated object by object; each object may refer to the
    ones made before it, and the last one made is the response. *)
Fixpoint allocate (script : list (list CFTypeRef → CFObject)) (made : list CFTypeRef)
    (h : CFHeap) : list CFTypeRef * CFHeap :=
  match script with
  | [] => (made, h)
  | make :: rest =>
    let r := CF.next_ref h in
    allocate rest (made ++ [r]) (<[r := Cell (make made) 1]> h)
  end.

(** A store that gives every call the same status and the same response. *)
Definition answer (status : Z) (script : list (list CFTypeRef → CFObject))
    (h : CFHeap) : Z * CFTypeRef * CFHeap :=
  let '(made, h') := allocate script [] h in (status, List.last made 0, h').

Lemma allocate_keeps script : ∀ made h, h ⊆ (allocate script made h).2.
Proof.
  induction script as [|make script IH]; intros made h; cbn [allocate]; [done|].
  etrans; [|apply IH]. apply insert_subseteq, next_ref_fresh.
Qed.

Lemma answer_keeps status script h : h ⊆ (answer status script h).2.
Proof.
  unfold answer. pose proof (allocate_keeps script [] h) as Hk.
  by destruct (allocate script [] h).
Qed.

Definition platform (status : Z) (script : list (list CFTypeRef → CFObject)) : Platform :=
  {| CFStringGetCStringPtr_hit := ascii_only;
     CFCopyTypeIDDescription_text := description;
     range_attr := map_to_list;
     range_attr_perm := λ m, reflexivity (map_to_list m);
     range_refs := map_to_list;
     range_refs_perm := λ m, reflexivity (map_to_list m);
     SecItemAdd := λ _ h, (status, h);
     SecItemUpdate := λ _ _ h, (status, h);
     SecItemDelete := λ _ h, (status, h);
     SecItemCopyMatching := λ _ h, answer status script h;
     SecItemAdd_keeps := λ _ h, reflexivity h;
     SecItemUpdate_keeps := λ _ _ h, reflexivity h;
     SecItemDelete_keeps := λ _ h, reflexivity h;
     SecItemCopyMatching_keeps := λ _ h, answer_keeps status script h |}.

Definition text (s : string) : CFObject := CFString (default [] (utf8.decode s)).

(** Responses. *)
Definition a_number : list (list CFTypeRef → CFObject) :=
  [ λ _, CFNumber kCFNumberSInt32Type 7 ].

Definition nth_made (made : list CFTypeRef) (i : nat) : CFTypeRef := nth i made 0.

(** Two records, each with an account and a payload. *)
Definition two_records : list (list CFTypeRef → CFObject) :=
  [ λ _, text "acct"; λ _, text "v_Data";
    λ _, text "alice"; λ _, CFData [Byte.x01; Byte.x02];
    λ made, CFDictionary [(nth_made made 0, nth_made made 2); (nth_made made 1, nth_made made 3)];
    λ _, text "bob"; λ _, CFData [Byte.x03];
    λ made, CFDictionary [(nth_made made 0, nth_made made 5); (nth_made made 1, nth_made made 6)];
    λ made, CFArray [nth_made made 4; nth_made made 7] ].

(** A record and then a reference that is no dictionary. *)
Definition record_then_reference : list (list CFTypeRef → CFObject) :=
  [ λ _, text "acct"; λ _, text "alice";
    λ made, CFDictionary [(nth_made made 0, nth_made made 1)];
    λ _, CFOpaque 4242;
    λ made, CFArray [nth_made made 2; nth_made made 3] ].

(** A record whose port is a 64-bit number. *)
Definition port_record : list (list CFTypeRef → CFObject) :=
  [ λ _, text "port"; λ _, CFNumber kCFNumberSInt64Type 443;
    λ _, text "srvr"; λ _, text "example.org";
    λ made, CFDictionary [(nth_made made 0, nth_made made 1); (nth_made made 2, nth_made made 3)] ].

(** A record with a key of a later version of the store. *)
Definition record_of_the_future : list (list CFTypeRef → CFObject) :=
  [ λ _, text "acct"; λ _, text "alice";
    λ _, text "zzzz"; λ _, CFNumber kCFNumberCGFloatType 0;
    λ made, CFDictionary [(nth_made made 0, nth_made made 1); (nth_made made 2, nth_made made 3)] ].

Definition a_query : Item :=
  SetReturnAttributes true
    (SetMatchLimit MatchLimitAll
       (SetService "svc" (SetSecClass SecClassGenericPassword NewItem))).


Definition an_update : Item := SetLabel "renamed" NewItem.

(** An attribute map with an entry that cannot be converted: its text is
    not UTF-8. *)
Definition a_bad_map : gmap string GoValue :=
  <["acct" := Str (String (ascii_of_N 255) EmptyString)]>
    (<["port" := Int32 443]> (<["svce" := Str "svc"]> ∅)).

(** The heap once the store has made a response. *)
Definition response (script : list (list CFTypeRef → CFObject)) : CFHeap :=
  (allocate script [] constants).2.

(** An input the bridge refuses: 4 GiB of zero bytes. *)
Definition four_gigabytes : slice Byte.byte :=
  Some (replicate (Z.to_nat 4294967296) Byte.x00).

(** A text with a NUL byte in it. *)
Definition a_text_with_nul : string :=
  String "a" (String zero (String "b" EmptyString)).

(** A heap with one number: a [char] that holds -1. *)
Definition a_negative_char : CFHeap :=
  {[ 100 := Cell (CFNumber kCFNumberCharType (-1)) 1 ]}.

(** A heap with one number: a 64-bit integer that holds 5. *)
Definition a_wide_five : CFHeap :=
  {[ 100 := Cell (CFNumber kCFNumberSInt64Type 5) 1 ]}.

(** A heap with one number: a 16-bit integer that holds 300. *)
Definition a_short : CFHeap :=
  {[ 100 := Cell (CFNumber kCFNumberSInt16Type 300) 1 ]}.

(** Data that the encoder takes and the decoder cannot read: 2 GiB of
    zero bytes. *)
Definition two_gigabytes : slice Byte.byte :=
  Some (replicate (Z.to_nat 2147483648) Byte.x00).

(** A response that is a blob of two bytes. *)
Definition a_blob : list (list CFTypeRef → CFObject) :=
  [ λ _, CFData [Byte.x01; Byte.x02] ].

(** An item with an account that is not UTF-8. *)
Definition a_bad_item : Item :=
  SetAccount (String (ascii_of_N 255) EmptyString)
    (SetSecClass SecClassGenericPassword NewItem).


(** The heap of constants with an array of a boolean and a class marker
    at 100. *)
Definition a_heap_with_an_array : CFHeap :=
  <[100 := Cell (CFArray [kCFBooleanTrue; kSecClassGenericPassword]) 1]> constants.

(** The heap of constants with one byte of data at 100 and, at 101, a
    dictionary that has the data as its only key. *)
Definition a_heap_with_a_data_key : CFHeap :=
  <[101 := Cell (CFDictionary [(100, kCFBooleanTrue)]) 1]>
    (<[100 := Cell (CFData [Byte.x01]) 1]> constants).

(** A generic password with two bytes of data. *)
Definition a_password : Item :=
  NewGenericPassword "service" "account" "label" (Some [Byte.x01; Byte.x02]) "group".

End Demo.

(** * Two limits of the bridge *)

(** A text that holds a NUL byte comes back cut at that byte when the
    framework hands out the storage of the string: [C.GoString] reads a C
    string. *)
Example CFStringToString_stops_at_NUL :
  ∃ ref h', StringToCFString Demo.a_text_with_nul constants = Returns (ref, None) h' ∧
            CFStringToString (H := Demo.platform errSecSuccess []) ref h' = Returns "a" h'.
Proof.
  eexists _, _. split; [vm_compute; reflexivity|]. vm_compute. reflexivity.
Qed.

(** * The specification, statement by statement *)

(** C1: when the store reports "not found", [QueryItem] returns an empty
    result list and a nil error ([QueryItemRef] returns the null reference
    and a nil error), whereas [DeleteItem] and [UpdateItem] return the
    "item not found" error to the caller.  The store is reached once the
    attributes have been converted; whatever else the store does, these
    are the outcomes. *)
Theorem C1_not_found `{Platform} (item updateItem : Item) (h : CFHeap)
    (cfDict : CFTypeRef) (h1 : CFHeap) :
  ConvertMapToCFDictionary (attr item) h = Returns (cfDict, None) h1 →
  ((SecItemCopyMatching cfDict h1).1.1 = errSecItemNotFound →
     ∃ h', QueryItemRef item h = Returns (0, None) h' ∧
           QueryItem item h = Returns (None, None) h' ∧
           len (None : slice QueryResult) = 0%nat) ∧
  ((SecItemDelete cfDict h1).1 = errSecItemNotFound →
     ∃ h', DeleteItem item h = Returns (Some ErrorItemNotFound) h') ∧
  (∀ cfDictUpdate h2,
     ConvertMapToCFDictionary (attr updateItem) h1 = Returns (cfDictUpdate, None) h2 →
     (SecItemUpdate cfDict cfDictUpdate h2).1 = errSecItemNotFound →
     ∃ h', UpdateItem item updateItem h = Returns (Some ErrorItemNotFound) h').
Proof.
  intros Hconv.
  destruct (ConvertMapToCFDictionary_ok _ _ _ _ Hconv) as (Hnz & Hfree & Hlive & Hkeep).
  assert (is_Some (h1 !! cfDict)) as Hd by (destruct Hlive as [es ->]; eauto).
  split; [|split].
  - intros Hnf.
    destruct (SecItemCopyMatching cfDict h1) as [[errCode resultsRef] h2] eqn:Hstore.
    simpl in Hnf. subst errCode.
    pose proof (SecItemCopyMatching_keeps cfDict h1) as Hsub. rewrite Hstore in Hsub.
    destruct (release_live cfDict h2) as [h' Hrel]; [by eapply subseteq_live|].
    assert (QueryItemRef item h = Returns (0, None) h') as Hq.
    { unfold QueryItemRef. rewrite bind_unfold, Hconv. cbn beta iota.
      unfold C_SecItemCopyMatching. rewrite bind_unfold, Hstore. cbn beta iota.
      change (errSecItemNotFound =? errSecItemNotFound) with true. cbn beta iota.
      by rewrite bind_unfold, Hrel. }
    exists h'. split; [done|]. split; [|done].
    unfold QueryItem. by rewrite bind_unfold, Hq.
  - intros Hnf.
    destruct (SecItemDelete cfDict h1) as [errCode h2] eqn:Hstore.
    simpl in Hnf. subst errCode.
    pose proof (SecItemDelete_keeps cfDict h1) as Hsub. rewrite Hstore in Hsub.
    destruct (release_live cfDict h2) as [h' Hrel]; [by eapply subseteq_live|].
    exists h'. unfold DeleteItem. rewrite bind_unfold, Hconv. cbn beta iota.
    unfold C_SecItemDelete. rewrite bind_unfold, Hstore. cbn beta iota.
    by rewrite bind_unfold, Hrel.
  - intros cfDictUpdate h2 Hconv2 Hnf.
    destruct (ConvertMapToCFDictionary_ok _ _ _ _ Hconv2) as (Hnz2 & Hfree2 & Hlive2 & Hkeep2).
    destruct (SecItemUpdate cfDict cfDictUpdate h2) as [errCode h3] eqn:Hstore.
    simpl in Hnf. subst errCode.
    pose proof (SecItemUpdate_keeps cfDict cfDictUpdate h2) as Hsub. rewrite Hstore in Hsub.
    destruct (release_live cfDictUpdate h3) as [h4 Hrel4].
    { eapply subseteq_live; [done|]. destruct Hlive2 as [es ->]; eauto. }
    destruct (release_live cfDict h4) as [h' Hrel].
    { rewrite (release_frame _ _ _ _ Hrel4).
      - eapply subseteq_live; [done|]. by apply Hkeep2.
      - intros ->. rewrite Hfree2 in Hd. by destruct Hd. }
    exists h'. unfold UpdateItem. rewrite bind_unfold, Hconv. cbn beta iota.
    rewrite bind_unfold, Hconv2. cbn beta iota.
    unfold C_SecItemUpdate. rewrite bind_unfold, Hstore. cbn beta iota.
    rewrite bind_unfold, Hrel4. by rewrite bind_unfold, Hrel.
Qed.

(** A store that finds nothing, asked with a query for a generic password. *)
Lemma C1_not_found_witness :
  (∃ h', QueryItem (H := Demo.platform errSecItemNotFound []) Demo.a_query constants
         = Returns (None, None) h') ∧
  (∃ h', DeleteItem (H := Demo.platform errSecItemNotFound []) Demo.a_query constants
         = Returns (Some ErrorItemNotFound) h') ∧
  (∃ h', UpdateItem (H := Demo.platform errSecItemNotFound []) Demo.a_query Demo.an_update
           constants
         = Returns (Some ErrorItemNotFound) h').
Proof.
  edestruct (C1_not_found (H := Demo.platform errSecItemNotFound [])
               Demo.a_query Demo.an_update constants) as (Hq & Hd & Hu).
  { vm_compute. reflexivity. }
  split; [|split].
  - lapply Hq; [|vm_compute; reflexivity]. intros (h' & _ & Hq' & _). by exists h'.
  - apply Hd. vm_compute. reflexivity.
  - eapply Hu; vm_compute; reflexivity.
Defined.

(** C2 (as stated, it fails): a byte sequence longer than [math.MaxUint32]
    is not encoded at all, so there is nothing to decode back:
    [BytesToCFData] returns the null reference and an error. *)
Lemma C2_oversized_counterexample :
  BytesToCFData Demo.four_gigabytes constants
  = Returns (0, Some (errorString "data is too large")) constants
  ∧ ¬ ∃ ref h' out h'',
        BytesToCFData Demo.four_gigabytes constants = Returns (ref, None) h' ∧
        CFDataToBytes ref h' = Returns out h''.
Proof.
  assert (Z.of_nat (len Demo.four_gigabytes) > MaxUint32) as Hlen.
  { unfold Demo.four_gigabytes, len. rewrite length_replicate, Z2Nat.id by lia.
    unfold MaxUint32. lia. }
  destruct (BytesToCFData_cases Demo.four_gigabytes constants) as [[_ Hb]|[Hle _]]; [|lia].
  split; [exact Hb|]. intros (ref & h' & out & h'' & Hb' & _). congruence.
Qed.

(** C2 (amended): the value bridge round-trips exactly within the sizes
    it can carry.  For every valid UTF-8 string [s] of at most
    [math.MaxUint32] bytes that holds no NUL byte, decoding the encoded
    string yields [s]; for every byte sequence [b] of fewer than 2^31
    bytes, the empty and the nil one included, decoding the encoded data
    yields the bytes of [b] (as a non-nil slice); and for every int32 [n],
    [CFNumberToInterface] of [Int32ToCFNumber n] is the int32 [n].  Bytes
    and valid strings of more than [math.MaxUint32] bytes are not encoded:
    the encoder returns the null reference and an error. *)
Theorem C2_roundtrip `{Platform} (s : string) (b : slice Byte.byte) (n : Z) (h : CFHeap) :
  utf8.ValidString s = true →
  Z.of_nat (String.length s) ≤ MaxUint32 →
  has_nul s = false →
  Z.of_nat (len b) < 2 ^ 31 →
  - 2 ^ 31 ≤ n < 2 ^ 31 →
  (∃ ref h', StringToCFString s h = Returns (ref, None) h' ∧
             CFStringToString ref h' = Returns s h') ∧
  (∃ ref h', BytesToCFData b h = Returns (ref, None) h' ∧
             CFDataToBytes ref h' = Returns (Some (elems b), None) h') ∧
  (∃ ref h', Int32ToCFNumber n h = Returns ref h' ∧
             CFNumberToInterface ref h' = Returns (Int32 n) h') ∧
  (∀ b', Z.of_nat (len b') > MaxUint32 →
         BytesToCFData b' h = Returns (0, Some (errorString "data is too large")) h) ∧
  (∀ s', utf8.ValidString s' = true → Z.of_nat (String.length s') > MaxUint32 →
         StringToCFString s' h = Returns (0, Some (errorString "string is too large")) h).
Proof.
  intros Hvalid Hlen Hnul Hblen Hn. split; [|split; [|split; [|split]]].
  - destruct (StringToCFString_cases s h) as [[Hf _]|[_ (cs & Hdec & Hs)]].
    { unfold string_fails in Hf. rewrite Hvalid in Hf. simpl in Hf.
      apply Z.gtb_gt in Hf. lia. }
    eexists _, _. split; [exact Hs|].
    eapply CFStringToString_decoded; [apply lookup_insert_eq|done..].
  - destruct (BytesToCFData_cases b h) as [[Hf _]|[_ Hb]].
    { unfold MaxUint32 in Hf. lia. }
    eexists _, _. split; [exact Hb|].
    apply (CFDataToBytes_small _ _ _ 1%nat); [apply lookup_insert_eq|].
    by destruct b.
  - eexists _, _. split; [reflexivity|].
    unfold CFNumberToInterface, CF.as_number.
    mred. erewrite deref_live by apply lookup_insert_eq. mred.
    change (kCFNumberSInt32Type =? kCFNumberSInt8Type) with false.
    change (kCFNumberSInt32Type =? kCFNumberSInt16Type) with false.
    change (kCFNumberSInt32Type =? kCFNumberSInt32Type) with true.
    mred. rewrite !(to_signed_id 32 n) by lia. reflexivity.
  - intros b' Hb'. destruct (BytesToCFData_cases b' h) as [[_ Hb]|[Hle _]]; [exact Hb|lia].
  - intros s' Hv' Hl'. unfold StringToCFString. rewrite Hv'. cbn [negb].
    apply Z.gtb_gt in Hl'. by rewrite Hl'.
Qed.

(** A text of nine bytes with a two-byte and a three-byte character, two
    bytes of data, and a negative number. *)
Lemma C2_roundtrip_witness :
  (∃ ref h', StringToCFString "café €" constants = Returns (ref, None) h' ∧
             CFStringToString (H := Demo.platform errSecSuccess []) ref h'
             = Returns "café €" h') ∧
  (∃ ref h', BytesToCFData (Some [Byte.x01; Byte.x02]) constants = Returns (ref, None) h' ∧
             CFDataToBytes ref h' = Returns (Some [Byte.x01; Byte.x02], None) h') ∧
  (∃ ref h', Int32ToCFNumber (-5) constants = Returns ref h' ∧
             CFNumberToInterface ref h' = Returns (Int32 (-5)) h').
Proof.
  destruct (C2_roundtrip (H := Demo.platform errSecSuccess [])
              "café €" (Some [Byte.x01; Byte.x02]) (-5) constants)
    as (Hs & Hb & Hn & _);
    [reflexivity|vm_compute; discriminate|reflexivity|vm_compute; reflexivity|lia|].
  split; [exact Hs|]. split; [exact Hb|exact Hn].
Defined.

(** C3: setting a text, bytes or int attribute to its zero value (the empty
    string, the nil slice, zero) removes the key: afterwards the attribute
    map of the item has no entry for it.  And no setter ever stores the
    zero value: whatever is set, the map does not hold the empty string,
    the nil slice or the int 0 under that key. *)
Theorem C3_zero_value_removes_key (k : Item) (key : string) :
  attr (SetString key "" k) !! key = None ∧
  attr (SetInt32 key 0 k) !! key = None ∧
  attr (SetData None k) !! DataKey = None ∧
  (∀ s, attr (SetString key s k) !! key ≠ Some (Str "")) ∧
  (∀ v, attr (SetInt32 key v k) !! key ≠ Some (Int32 0)) ∧
  (∀ b, attr (SetData b k) !! DataKey ≠ Some (Bytes None)).
Proof.
  repeat split.
  - apply lookup_delete_eq.
  - apply lookup_delete_eq.
  - apply lookup_delete_eq.
  - intros s. unfold SetString. destruct (String.eqb s "") eqn:Hs; cbn [negb attr].
    + by rewrite lookup_delete_eq.
    + rewrite lookup_insert_eq. intros [= ->]. by rewrite String.eqb_refl in Hs.
  - intros v. unfold SetInt32. destruct (v =? 0) eqn:Hv; cbn [negb attr].
    + by rewrite lookup_delete_eq.
    + rewrite lookup_insert_eq. intros [= ->]. done.
  - intros [b|]; cbn [SetData attr].
    + by rewrite lookup_insert_eq.
    + by rewrite lookup_delete_eq.
Qed.

(** C4: when the conversion of a key or of a value of the attribute map
    fails, [ConvertMapToCFDictionary] returns the null reference and an
    error, and it leaves the heap exactly as it found it: every object it
    had created for the entries converted before has been released, and
    nothing else has been touched.  More generally, whenever the build
    returns an error, the reference is null and the heap is as before. *)
Theorem C4_failed_build_releases `{Platform} (attr : gmap string GoValue) (h : CFHeap)
    (key : string) (i : GoValue) :
  attr !! key = Some i →
  entry_fails key i →
  (∃ e, ConvertMapToCFDictionary attr h = Returns (0, Some e) h) ∧
  (∀ ref e h', ConvertMapToCFDictionary attr h = Returns (ref, Some e) h' →
               ref = 0 ∧ h' = h).
Proof.
  intros Hin Hf. unfold ConvertMapToCFDictionary.
  destruct (convert_entries_owned (range_attr attr) ∅ [] h h (owned_nil h))
    as (m' & ds' & err & h' & Hrun & Ho & Hex).
  rewrite bind_unfold, Hrun. cbn beta iota.
  destruct err as [e|].
  - rewrite bind_unfold, (run_deferred_owned _ _ _ Ho). cbn beta iota. split.
    + by exists e.
    + by intros ref e' h'' [= <- _ <-].
  - exfalso. apply Hex; [|done]. apply Exists_exists. exists (key, i). split; [|done].
    rewrite range_attr_perm. by apply elem_of_map_to_list.
Qed.

(** A map of three attributes, one of them a text that is not UTF-8. *)
Lemma C4_failed_build_releases_witness :
  ∃ e, ConvertMapToCFDictionary (H := Demo.platform errSecSuccess []) Demo.a_bad_map constants
       = Returns (0, Some e) constants.
Proof.
  apply (C4_failed_build_releases (H := Demo.platform errSecSuccess []) Demo.a_bad_map constants
           "acct" (Str (String (ascii_of_N 255) EmptyString))).
  - reflexivity.
  - left. reflexivity.
Defined.

(** C5, as stated, fails.  The native type is selected by the declared
    subtype and not by the stored value: a number of the 64-bit subtype
    that holds 5 is decoded as the int64 5, though int8 holds 5 exactly
    and is narrower.  And the type selected need not represent the stored
    value: a number of the [char] subtype that holds -1, a value of the
    range of its subtype, is decoded as the uint8 255. *)
Lemma C5_not_narrowest_counterexample :
  (CFNumberToInterface 100 Demo.a_wide_five = Returns (Int64 5) Demo.a_wide_five ∧
   ¬ narrowest_exact TInt64 5) ∧
  (CFNumberToInterface 100 Demo.a_negative_char = Returns (Uint8 255) Demo.a_negative_char ∧
   holds kCFNumberCharType (-1) ∧
   fits TUint8 (-1) = false ∧
   ¬ (∃ val h', CFNumberToInterface 100 Demo.a_negative_char = Returns val h' ∧
                number_of val = Some (-1))).
Proof.
  split.
  - split; [vm_compute; reflexivity|].
    intros [_ Hmin]. specialize (Hmin TInt8 eq_refl). vm_compute in Hmin. by apply Hmin.
  - assert (CFNumberToInterface 100 Demo.a_negative_char
            = Returns (Uint8 255) Demo.a_negative_char) as Hrun by (vm_compute; reflexivity).
    split; [exact Hrun|]. split; [vm_compute; split; [discriminate|reflexivity]|].
    split; [reflexivity|].
    intros (val & h' & Hval & Hn). rewrite Hrun in Hval. by injection Hval as <- _.
Qed.

(** C5, amended: the decoder branches on the declared subtype of the
    number, and on nothing else.  For each of the fifteen subtypes it knows
    it returns, on an unchanged heap, a value of the native type that the
    table [native_for] gives for the subtype (int8, int16, int32, int64 or
    int for the integer subtypes of 8, 16, 32 and 64 bits and of the
    platform's widths, float32 or float64 for the float subtypes, uint8
    for [char]); the value is the stored one whenever the stored value is
    in the range of the subtype, except that for [char] this holds only
    for a stored value that is not negative.  For every other subtype the
    decoder panics with "Unknown CFNumber type": there is no fallback. *)
Theorem C5_decoder_by_subtype (cfNumber : CFTypeRef) (h : CFHeap) (typ : CFNumberType)
    (v : Z) (rc : nat) :
  h !! cfNumber = Some (Cell (CFNumber typ v) rc) →
  match native_for typ with
  | Some t =>
    ∃ val, CFNumberToInterface cfNumber h = Returns val h ∧
           native_type val = Some t ∧
           (holds typ v → (typ = kCFNumberCharType → 0 ≤ v) → number_of val = Some v)
  | None => CFNumberToInterface cfNumber h = Panics "Unknown CFNumber type"
  end.
Proof.
  intros Href. unfold CFNumberToInterface, CF.as_number. mred.
  rewrite (deref_live _ _ _ _ Href). mred.
  unfold holds, native_for.
  repeat match goal with
         | |- context [typ =? ?k] => destruct (typ =? k) eqn:?
         end;
    try reflexivity;
    (eexists; split; [reflexivity|]; split; [reflexivity|]);
    repeat match goal with
           | E : (typ =? _) = true |- _ => apply Z.eqb_eq in E; subst typ
           end;
    cbn [number_of width]; intros Hv Hchar; f_equal.
  all: try (apply to_signed_id; [lia|exact Hv]).
  all: try (apply to_unsigned_id; exact Hv).
  specialize (Hchar eq_refl).
  assert (- 2 ^ (8 - 1) ≤ v < 2 ^ (8 - 1)) as Hv' by exact Hv.
  rewrite to_signed_id; [|lia|exact Hv']. apply to_unsigned_id. lia.
Qed.

(** A 16-bit number that holds 300 is decoded as the int16 300. *)
Lemma C5_decoder_by_subtype_witness :
  ∃ val, CFNumberToInterface 100 Demo.a_short = Returns val Demo.a_short ∧
         native_type val = Some TInt16 ∧ number_of val = Some 300.
Proof.
  destruct (C5_decoder_by_subtype 100 Demo.a_short kCFNumberSInt16Type 300 1 eq_refl)
    as (val & Hrun & Hty & Hval).
  exists val. split; [exact Hrun|]. split; [exact Hty|].
  apply Hval; [vm_compute; split; [discriminate|reflexivity]|discriminate].
Defined.

(** C6: whenever the query that [GetGenericPassword] makes comes back with
    more than one record, the call returns the error "too many results"
    and no data (the nil slice): it returns none of the records. *)
Theorem C6_too_many_results `{Platform} (service account label accessGroup : string)
    (h : CFHeap) (results : slice QueryResult) (h' : CFHeap) :
  QueryItem (GetGenericPassword_query service account label accessGroup) h
  = Returns (results, None) h' →
  (1 < len results)%nat →
  GetGenericPassword service account label accessGroup h
  = Returns (None, Some (errorString "too many results")) h'.
Proof.
  intros Hq Hlen. unfold GetGenericPassword. rewrite bind_unfold, Hq. cbn beta iota.
  apply Nat.ltb_lt in Hlen. by rewrite Hlen.
Qed.

(** A store that answers the query with two records. *)
Lemma C6_too_many_results_witness :
  ∃ h', GetGenericPassword (H := Demo.platform errSecSuccess Demo.two_records)
          "svc" "alice" "" "" constants
        = Returns (None, Some (errorString "too many results")) h'.
Proof.
  eexists.
  eapply (C6_too_many_results (H := Demo.platform errSecSuccess Demo.two_records)
            "svc" "alice" "" "" constants).
  - vm_compute. reflexivity.
  - vm_compute. lia.
Defined.

(** C7: let the store answer a query with a response that is not null and
    is alive.  If the type of the response is neither array nor dictionary
    nor data, [QueryItem] returns no results and the error "invalid result
    type: ..." with the description of the type: it neither panics nor
    crashes.  If the response is an array with an element that is alive
    and is not a dictionary, every return of [QueryItem] carries an error
    and no result list, never a partial list; and when the elements before
    that one are decoded, [QueryItem] does return, with that error. *)
Theorem C7_shape_error `{Platform} (item : Item) (h : CFHeap) (resultsRef : CFTypeRef)
    (h1 : CFHeap) (o : CFObject) (rc : nat) :
  QueryItemRef item h = Returns (resultsRef, None) h1 →
  resultsRef ≠ 0 →
  h1 !! resultsRef = Some (Cell o rc) →
  (CF.type_of o ∉ [CFArrayTypeID; CFDictionaryTypeID; CFDataTypeID] →
   ∃ desc h', QueryItem item h
              = Returns (None, Some (errorString ("invalid result type: " +:+ desc))) h') ∧
  (∀ pre e post oe rce,
     o = CFArray (pre ++ e :: post) →
     h1 !! e = Some (Cell oe rce) → CF.type_of oe ≠ CFDictionaryTypeID →
     (∀ res err h', QueryItem item h = Returns (res, err) h' → res = None ∧ err ≠ None) ∧
     (Forall (λ p, decodes h1 p = true) pre →
      ∃ err h', QueryItem item h = Returns (None, Some err) h')).
Proof.
  intros Hq Hnz Hres.
  assert ((resultsRef =? 0) = false) as Hnz' by lia.
  destruct (release_live resultsRef h1) as [h' Hrel]; [by eexists|].
  split.
  - intros Hty. unfold QueryItem. rewrite bind_unfold, Hq. cbn beta iota. rewrite Hnz'.
    unfold QueryItem_switch. mred. rewrite (CFGetTypeID_live _ _ _ _ Hres). mred.
    destruct (CFTypeDescription_live resultsRef h1) as [desc Hdesc]; [by eexists|].
    exists desc, h'.
    destruct o; cbn [CF.type_of] in *;
      try (exfalso; apply Hty; rewrite !elem_of_cons; tauto);
      mred; rewrite Hdesc; mred; rewrite Hrel; by mred.
  - intros pre e post oe rce -> He Hnd.
    destruct (QueryItem_array_not_dictionary pre e post [] h1 oe rce He Hnd) as [Hno Hyes].
    assert (QueryItem_switch resultsRef h1 = QueryItem_array (pre ++ e :: post) [] h1) as Hsw.
    { unfold QueryItem_switch. mred. rewrite (CFGetTypeID_live _ _ _ _ Hres). mred.
      cbn [CF.type_of]. unfold CFArrayToArray, CF.as_array. mred.
      rewrite (deref_live _ _ _ _ Hres). by mred. }
    split.
    + intros res err h''. unfold QueryItem. rewrite bind_unfold, Hq. cbn beta iota.
      rewrite Hnz'. rewrite bind_unfold, Hsw.
      destruct (QueryItem_array _ _ _) as [[res' err'] h2| |] eqn:Harr; [|done..].
      intros ([] & h3 & _ & [= <- <- _])%bind_inv. by eapply Hno.
    + intros Hpre. destruct (Hyes Hpre) as [err Harr]. exists err, h'.
      unfold QueryItem. rewrite bind_unfold, Hq. cbn beta iota.
      rewrite Hnz'. rewrite bind_unfold, Hsw, Harr. cbn beta iota.
      rewrite bind_unfold, Hrel. by mred.
Qed.

(** A store that answers with a number, and a store that answers with an
    array of a record and of a reference that is no dictionary. *)
Lemma C7_shape_error_witness :
  (∃ desc h', QueryItem (H := Demo.platform errSecSuccess Demo.a_number)
                Demo.a_query constants
              = Returns (None, Some (errorString ("invalid result type: " +:+ desc))) h') ∧
  (∃ err h', QueryItem (H := Demo.platform errSecSuccess Demo.record_then_reference)
               Demo.a_query constants
             = Returns (None, Some err) h').
Proof.
  split.
  - edestruct (C7_shape_error (H := Demo.platform errSecSuccess Demo.a_number)
                 Demo.a_query constants) as [Hshape _].
    + vm_compute. reflexivity.
    + vm_compute. discriminate.
    + vm_compute. reflexivity.
    + apply Hshape. vm_compute. intros Hin.
      repeat (apply elem_of_cons in Hin as [Hin|Hin]; [discriminate|]).
      by apply elem_of_nil in Hin.
  - edestruct (C7_shape_error (H := Demo.platform errSecSuccess Demo.record_then_reference)
                 Demo.a_query constants) as [_ Harray].
    + vm_compute. reflexivity.
    + vm_compute. discriminate.
    + vm_compute. reflexivity.
    + edestruct (Harray [18] 19 []) as [_ Hret].
      * reflexivity.
      * vm_compute. reflexivity.
      * vm_compute. discriminate.
      * apply Hret. apply Forall_cons. split; [vm_compute; reflexivity|apply Forall_nil_2].
Defined.

(** C8: the port of a response is decoded as an int32 and checked.  Let a
    response dictionary have an entry whose key reads "port" and whose
    value [CFNumberToInterface] decodes to a native value that is not an
    int32.  Then [convertResult] returns no [QueryResult] and the error
    "expected int32 for PortKey, got T", where T is the name of a native
    type other than int32: nothing is coerced.  (The other entries of the
    dictionary are supposed to be read without a panic or a crash.) *)
Theorem C8_port_type_mismatch `{Platform} (d : CFTypeRef) (h : CFHeap) (m : gmap Z Z)
    (k v : CFTypeRef) (val : GoValue) :
  CFDictionaryToMap d h = Returns m h →
  m !! k = Some v →
  attrKey k h = Returns PortKey h →
  CFNumberToInterface v h = Returns val h →
  (∀ n, val ≠ Int32 n) →
  map_Forall (λ k' v', returned (convertResult_entry k' v' QueryResult_zero h) = true) m →
  ∃ val', (∀ n, val' ≠ Int32 n) ∧
    convertResult d h
    = Returns (None, Some (errorString ("expected int32 for PortKey, got "
                                         +:+ type_name val'))) h.
Proof.
  intros Hm Hkv Hkey Hval Hne Hall.
  unfold convertResult. rewrite bind_unfold, Hm. cbn beta iota.
  eapply convertResult_range_port; [|by rewrite range_refs_perm, elem_of_map_to_list|done..].
  apply Forall_forall. intros [k' v']. rewrite range_refs_perm, elem_of_map_to_list.
  intros Hkv'. by apply Hall in Hkv'.
Qed.

(** A record of a server whose port is a 64-bit number. *)
Lemma C8_port_type_mismatch_witness :
  ∃ val', (∀ n, val' ≠ Int32 n) ∧
    convertResult (H := Demo.platform errSecSuccess []) 14 (Demo.response Demo.port_record)
    = Returns (None, Some (errorString ("expected int32 for PortKey, got "
                                         +:+ type_name val')))
        (Demo.response Demo.port_record).
Proof.
  apply (C8_port_type_mismatch (H := Demo.platform errSecSuccess []) 14
           (Demo.response Demo.port_record) (<[10 := 11]> (<[12 := 13]> ∅)) 10 11 (Int64 443)).
  - vm_compute. reflexivity.
  - reflexivity.
  - vm_compute. reflexivity.
  - vm_compute. reflexivity.
  - discriminate.
  - apply map_Forall_insert_2; [vm_compute; reflexivity|].
    apply map_Forall_insert_2; [vm_compute; reflexivity|]. apply map_Forall_empty.
Defined.

(** C9: [convertResult] passes over every entry whose key is none of the
    known attribute keys.  Such entries change neither the error nor any
    field: running the loop over the entries of a response is the same as
    running it over the entries that are left once the ignored ones are
    taken out.  Hence a response with ignored entries only gives the zero
    [QueryResult] and no error, and in every result the field of a known
    key that no entry of the response carries has its zero value. *)
Theorem C9_unknown_keys_ignored `{Platform} (d : CFTypeRef) (h : CFHeap) :
  (∀ es r, convertResult_range es r h
           = convertResult_range (filter (λ kv, ignored h kv = false) es) r h) ∧
  convertResult d h
  = (m ← CFDictionaryToMap d;
     convertResult_range (filter (λ kv, ignored h kv = false) (range_refs m))
       QueryResult_zero) h ∧
  (∀ entries rc, h !! d = Some (Cell (CFDictionary entries) rc) →
     (Forall (λ kv, ignored h kv = true) entries →
        convertResult d h = Returns (Some QueryResult_zero, None) h) ∧
     (∀ K same r h', (K, same) ∈ field_of_key →
        Forall (λ kv, ¬ reads_as h K kv) entries →
        convertResult d h = Returns (Some r, None) h' →
        same QueryResult_zero r)).
Proof.
  split; [|split].
  - intros es r. apply convertResult_range_filter.
  - unfold convertResult. rewrite !bind_unfold.
    destruct (CFDictionaryToMap d h) as [m h1| |] eqn:Hm; [|done..].
    apply reads_CFDictionaryToMap in Hm as ->. apply convertResult_range_filter.
  - intros entries rc Hd.
    destruct (CFDictionaryToMap_elem d h entries rc Hd) as (m & Hm & Hsub).
    split.
    + intros Hall. unfold convertResult. rewrite bind_unfold, Hm. cbn beta iota.
      rewrite convertResult_range_filter.
      replace (filter _ (range_refs m)) with (@nil (Z * Z)); [done|].
      symmetry. apply filter_none, Forall_forall. intros kv Hkv%Hsub.
      rewrite Forall_forall in Hall. rewrite (Hall kv Hkv). done.
    + intros K same r h' Hin Hall. unfold convertResult. rewrite bind_unfold, Hm. cbn beta iota.
      apply (convertResult_range_field K); [done|].
      apply Forall_forall. intros kv Hkv%Hsub. rewrite Forall_forall in Hall. by apply Hall.
Qed.

(** A record with the account and with a key that the package does not
    know, whose value it could not even decode: the result has the account
    and a port of zero. *)
Lemma C9_unknown_keys_ignored_witness :
  ∃ r h', convertResult (H := Demo.platform errSecSuccess []) 14
            (Demo.response Demo.record_of_the_future) = Returns (Some r, None) h' ∧
          Account r = "alice" ∧ Port r = 0 ∧
          ignored (H := Demo.platform errSecSuccess []) (Demo.response Demo.record_of_the_future)
            (12, 13) = true.
Proof.
  destruct (C9_unknown_keys_ignored (H := Demo.platform errSecSuccess []) 14
              (Demo.response Demo.record_of_the_future)) as (_ & _ & Hd).
  edestruct Hd as [_ Hfield]; [vm_compute; reflexivity|].
  eexists _, _. split; [vm_compute; reflexivity|].
  split; [reflexivity|]. split; [|vm_compute; reflexivity].
  symmetry. eapply (Hfield PortKey (λ a b, Port a = Port b)).
  - unfold field_of_key. do 4 apply list_elem_of_further. apply list_elem_of_here.
  - repeat (apply Forall_cons; split); [..|apply Forall_nil_2];
      intros [h' Hread]; vm_compute in Hread; discriminate.
  - vm_compute. reflexivity.
Defined.

(** C10: [SetData] removes the data key only for the nil slice.  A slice
    that is not nil is stored as the value, the empty slice included:
    after [SetData([]byte{})] the attribute map still has an entry for the
    data key. *)
Theorem C10_empty_data_is_stored (k : Item) (b : slice Byte.byte) :
  (attr (SetData b k) !! DataKey = None ↔ b = None) ∧
  (∀ bytes, attr (SetData (Some bytes) k) !! DataKey = Some (Bytes (Some bytes))) ∧
  attr (SetData (Some []) k) !! DataKey = Some (Bytes (Some [])).
Proof.
  split; [|split].
  - destruct b as [bytes|]; cbn [SetData attr].
    + rewrite lookup_insert_eq. split; discriminate.
    + by rewrite lookup_delete_eq.
  - intros bytes. apply lookup_insert_eq.
  - apply lookup_insert_eq.
Qed.

(** * Further properties of the code *)

(** [ArrayToCFArray] never builds an array that holds something: for the
    nil and the empty slice it creates an empty array, for a slice whose
    first element is the null reference it returns the null reference and
    leaves the heap alone, and for every other slice the Go runtime
    panics at the first element, because [values] has length 0. *)
Theorem ArrayToCFArray_cases (a : slice CFTypeRef) (h : CFHeap) :
  match elems a with
  | [] =>
    ArrayToCFArray a h
    = Returns (CF.next_ref h) (<[CF.next_ref h := Cell (CFArray []) 1]> h)
  | first :: _ =>
    if first =? 0 then ArrayToCFArray a h = Returns 0 h
    else ArrayToCFArray a h = Panics "index out of range [0] with length 0"
  end.
Proof.
  unfold ArrayToCFArray. destruct (elems a) as [|first rest]; [done|].
  cbn [ArrayToCFArray_loop]. destruct (first =? 0); [done|]. reflexivity.
Qed.

Section more.
Context `{Platform}.

Lemma GoString_nul s : GoString (s +:+ String zero EmptyString) = GoString s.
Proof.
  induction s as [|c s IH]; [done|].
  rewrite append_cons. cbn [GoString]. destruct (Ascii.eqb c zero); [done|]. by rewrite IH.
Qed.

(** Reading a string object: the text cut at its first NUL byte when the
    framework hands out the storage of the string, the whole text
    otherwise. *)
Lemma CFStringToString_text (ref : Z) (h : CFHeap) cs rc :
  h !! ref = Some (Cell (CFString cs) rc) →
  CFStringToString ref h
  = Returns (if CFStringGetCStringPtr_hit cs then GoString (utf8.encode cs)
             else utf8.encode cs) h.
Proof.
  intros Href. pose proof (encode_size cs) as Hsize.
  unfold CFStringToString, CF.as_string.
  mred. rewrite (deref_live _ _ _ _ Href). mred.
  destruct (CFStringGetCStringPtr_hit cs); [by rewrite GoString_nul|].
  unfold CF.CFStringGetLength.
  destruct (utf8.utf16_length cs =? 0) eqn:E0.
  { apply Z.eqb_eq, utf16_length_0 in E0. by subst cs. }
  unfold CF.CFStringGetMaximumSizeForEncoding.
  destruct (utf8.utf16_length cs * 3 =? 0) eqn:E2; [lia|].
  unfold make_bytes. destruct (utf8.utf16_length cs * 3 <? 0) eqn:E3; [lia|].
  mred. f_equal. rewrite CFStringGetBytes_fits; [done|]. lia.
Qed.

(** The round trip of a text: a string that [StringToCFString] accepts
    comes back from [CFStringToString] cut at its first NUL byte when the
    framework hands out the storage of the string object, and whole
    otherwise; the heap is not touched by the reading. *)
Theorem string_roundtrip_up_to_NUL (s : string) (h : CFHeap) :
  string_fails s = false →
  ∃ ref cs h',
    StringToCFString s h = Returns (ref, None) h' ∧
    ref ≠ 0 ∧ h !! ref = None ∧
    h' !! ref = Some (Cell (CFString cs) 1) ∧
    CFStringToString ref h'
    = Returns (if CFStringGetCStringPtr_hit cs then GoString s else s) h'.
Proof.
  intros Hok. destruct (StringToCFString_cases s h) as [[Hf _]|[_ (cs & Hdec & Hs)]].
  { congruence. }
  exists (CF.next_ref h), cs. eexists. split; [exact Hs|].
  split; [pose proof (next_ref_pos h); lia|]. split; [apply next_ref_fresh|].
  split; [apply lookup_insert_eq|].
  erewrite CFStringToString_text by apply lookup_insert_eq.
  by rewrite (decode_encode s cs Hdec).
Qed.

(** Data that [BytesToCFData] accepts and [CFDataToBytes] cannot read
    back: the encoder takes up to [math.MaxUint32] bytes, the decoder
    passes the length through [C.int]. *)
Theorem large_data_is_encoded_but_not_decoded (b : slice Byte.byte) (h : CFHeap) :
  2 ^ 31 ≤ Z.of_nat (len b) ≤ MaxUint32 →
  ∃ ref h', BytesToCFData b h = Returns (ref, None) h' ∧
            CFDataToBytes ref h' = Panics "gobytes: length out of range".
Proof.
  intros Hlen. destruct (BytesToCFData_cases b h) as [[Hf _]|[_ Hb]]; [lia|].
  eexists _, _. split; [exact Hb|].
  apply (CFDataToBytes_large _ _ (elems b) 1%nat); [apply lookup_insert_eq|].
  assert (length (elems b) = len b) as -> by (by destruct b).
  unfold MaxUint32 in Hlen. lia.
Qed.

End more.

Section store.
Context `{Platform}.

(** An attribute map with an entry that cannot be converted is refused,
    and the heap is as before. *)
Lemma ConvertMapToCFDictionary_refuses (attr : gmap string GoValue) (h : CFHeap) key i :
  attr !! key = Some i → entry_fails key i →
  ∃ e, ConvertMapToCFDictionary attr h = Returns (0, Some e) h.
Proof.
  intros Hin Hf. unfold ConvertMapToCFDictionary.
  destruct (convert_entries_owned (range_attr attr) ∅ [] h h (owned_nil h))
    as (m' & ds' & err & h' & Hrun & Ho & Hex).
  rewrite bind_unfold, Hrun. cbn beta iota.
  destruct err as [e|].
  - rewrite bind_unfold, (run_deferred_owned _ _ _ Ho). cbn beta iota. by exists e.
  - exfalso. apply Hex; [|done]. apply Exists_exists. exists (key, i). split; [|done].
    rewrite range_attr_perm. by apply elem_of_map_to_list.
Qed.

(** The dictionary of a query is alive when the store is done, and can be
    released. *)
Lemma release_after_store attr h cfDict h1 (h2 : CFHeap) :
  ConvertMapToCFDictionary attr h = Returns (cfDict, None) h1 →
  h1 ⊆ h2 →
  ∃ h', Release cfDict h2 = Returns tt h'.
Proof.
  intros Hconv Hsub.
  destruct (ConvertMapToCFDictionary_ok _ _ _ _ Hconv) as (_ & _ & [es Hlive] & _).
  apply release_live. eapply subseteq_live; [done|]. by rewrite Hlive.
Qed.

(** An item with an attribute that cannot be converted never reaches the
    store: [AddItem], [DeleteItem] and [UpdateItem] return the conversion
    error wrapped in their own message, [QueryItemRef] and [QueryItem]
    return it as it is, and the heap is left as it was.  When it is the
    second argument of [UpdateItem] that cannot be converted, the error is
    wrapped in the message for the update item. *)
Theorem unconvertible_item_is_refused (item other : Item) (h : CFHeap)
    (key : string) (i : GoValue) :
  attr item !! key = Some i →
  entry_fails key i →
  ∃ e,
    ConvertMapToCFDictionary (attr item) h = Returns (0, Some e) h ∧
    AddItem item h
    = Returns (Some (wrapError "failed to convert item attributes to CFDictionary: " e)) h ∧
    UpdateItem item other h
    = Returns (Some (wrapError "failed to convert query item attributes to CFDictionary: " e)) h ∧
    DeleteItem item h
    = Returns (Some (wrapError "failed to convert item to CFDictionary: " e)) h ∧
    QueryItemRef item h = Returns (0, Some e) h ∧
    QueryItem item h = Returns (None, Some e) h ∧
    (∀ cfDict h1,
       ConvertMapToCFDictionary (attr other) h = Returns (cfDict, None) h1 →
       ∃ e' h', UpdateItem other item h
                = Returns (Some (wrapError
                    "failed to convert update item attributes to CFDictionary: " e')) h').
Proof.
  intros Hin Hf.
  destruct (ConvertMapToCFDictionary_refuses _ h _ _ Hin Hf) as [e He].
  exists e. split; [exact He|].
  assert (QueryItemRef item h = Returns (0, Some e) h) as Hq.
  { unfold QueryItemRef. by rewrite bind_unfold, He. }
  unfold AddItem, DeleteItem, QueryItem.
  do 5 (split; [unfold UpdateItem; by rewrite ?bind_unfold, ?He, ?Hq|]).
  intros cfDict h1 Hconv.
  destruct (ConvertMapToCFDictionary_refuses _ h1 _ _ Hin Hf) as [e' He'].
  destruct (release_after_store _ _ _ _ h1 Hconv (reflexivity h1)) as [h' Hrel].
  exists e', h'. unfold UpdateItem. rewrite bind_unfold, Hconv. cbn beta iota.
  rewrite bind_unfold, He'. cbn beta iota. by rewrite bind_unfold, Hrel.
Qed.

(** The status of the store is what the caller gets.  Once the attributes
    are converted, [AddItem], [DeleteItem] and [UpdateItem] return
    [checkError] of the status of their call: no error for [errSecSuccess]
    and the status as a [keychain.Error] otherwise.  [QueryItemRef] turns
    "item not found" into the null reference and no error, returns every
    other failure as the error with the null reference, and on success
    hands over the reference that the store gave. *)
Theorem store_status_is_returned (item : Item) (h : CFHeap) (cfDict : CFTypeRef)
    (h1 : CFHeap) :
  ConvertMapToCFDictionary (attr item) h = Returns (cfDict, None) h1 →
  (∃ h', AddItem item h = Returns (checkError (SecItemAdd cfDict h1).1) h') ∧
  (∃ h', DeleteItem item h = Returns (checkError (SecItemDelete cfDict h1).1) h') ∧
  (∀ updateItem cfDictUpdate h2,
     ConvertMapToCFDictionary (attr updateItem) h1 = Returns (cfDictUpdate, None) h2 →
     ∃ h', UpdateItem item updateItem h
           = Returns (checkError (SecItemUpdate cfDict cfDictUpdate h2).1) h') ∧
  (∃ h', QueryItemRef item h
         = Returns (let '(errCode, resultsRef, _) := SecItemCopyMatching cfDict h1 in
                    if errCode =? errSecItemNotFound then (0, None)
                    else if errCode =? errSecSuccess then (resultsRef, None)
                    else (0, Some (KeychainError errCode))) h') ∧
  (∀ errCode, checkError errCode = None ↔ errCode = errSecSuccess).
Proof.
  intros Hconv.
  destruct (ConvertMapToCFDictionary_ok _ _ _ _ Hconv) as (Hnz & Hfree & Hlive & Hkeep).
  assert (is_Some (h1 !! cfDict)) as Hd by (destruct Hlive as [es ->]; eauto).
  split; [|split; [|split; [|split]]].
  - destruct (SecItemAdd cfDict h1) as [errCode h2] eqn:Hstore.
    pose proof (SecItemAdd_keeps cfDict h1) as Hsub. rewrite Hstore in Hsub.
    destruct (release_after_store _ _ _ _ h2 Hconv Hsub) as [h' Hrel].
    exists h'. unfold AddItem. rewrite bind_unfold, Hconv. cbn beta iota.
    unfold C_SecItemAdd. rewrite bind_unfold, Hstore. cbn beta iota.
    by rewrite bind_unfold, Hrel.
  - destruct (SecItemDelete cfDict h1) as [errCode h2] eqn:Hstore.
    pose proof (SecItemDelete_keeps cfDict h1) as Hsub. rewrite Hstore in Hsub.
    destruct (release_after_store _ _ _ _ h2 Hconv Hsub) as [h' Hrel].
    exists h'. unfold DeleteItem. rewrite bind_unfold, Hconv. cbn beta iota.
    unfold C_SecItemDelete. rewrite bind_unfold, Hstore. cbn beta iota.
    by rewrite bind_unfold, Hrel.
  - intros updateItem cfDictUpdate h2 Hconv2.
    destruct (ConvertMapToCFDictionary_ok _ _ _ _ Hconv2) as (Hnz2 & Hfree2 & Hlive2 & Hkeep2).
    destruct (SecItemUpdate cfDict cfDictUpdate h2) as [errCode h3] eqn:Hstore.
    pose proof (SecItemUpdate_keeps cfDict cfDictUpdate h2) as Hsub. rewrite Hstore in Hsub.
    destruct (release_after_store _ _ _ _ h3 Hconv2 Hsub) as [h4 Hrel4].
    destruct (release_live cfDict h4) as [h' Hrel].
    { rewrite (release_frame _ _ _ _ Hrel4).
      - eapply subseteq_live; [done|]. by apply Hkeep2.
      - intros ->. rewrite Hfree2 in Hd. by destruct Hd. }
    exists h'. unfold UpdateItem. rewrite bind_unfold, Hconv. cbn beta iota.
    rewrite bind_unfold, Hconv2. cbn beta iota.
    unfold C_SecItemUpdate. rewrite bind_unfold, Hstore. cbn beta iota.
    rewrite bind_unfold, Hrel4. by rewrite bind_unfold, Hrel.
  - destruct (SecItemCopyMatching cfDict h1) as [[errCode resultsRef] h2] eqn:Hstore.
    pose proof (SecItemCopyMatching_keeps cfDict h1) as Hsub. rewrite Hstore in Hsub.
    destruct (release_after_store _ _ _ _ h2 Hconv Hsub) as [h' Hrel].
    exists h'. unfold QueryItemRef. rewrite bind_unfold, Hconv. cbn beta iota.
    unfold C_SecItemCopyMatching. rewrite bind_unfold, Hstore. cbn beta iota.
    destruct (errCode =? errSecItemNotFound); [by rewrite bind_unfold, Hrel|].
    unfold checkError. destruct (errCode =? errSecSuccess); by rewrite bind_unfold, Hrel.
  - intros errCode. unfold checkError, errSecSuccess.
    destruct (errCode =? 0) eqn:E; split; try done; lia.
Qed.

End store.

Section shapes.
Context `{Platform}.

(** The loop over an array of dictionaries that all decode: one result
    for each element, in the order of the array. *)
Lemma QueryItem_array_all arr : ∀ rs results (h : CFHeap),
  Forall2 (λ e r, CF.CFGetTypeID e h = Returns CFDictionaryTypeID h ∧
                  convertResult e h = Returns (Some r, None) h) arr rs →
  QueryItem_array arr results h = Returns (Some (results ++ rs), None) h.
Proof.
  induction arr as [|e arr IH]; intros rs results h Hall.
  - apply Forall2_nil_inv_l in Hall as ->. by rewrite app_nil_r.
  - apply Forall2_cons_inv_l in Hall as (r & rs' & [Hty Hconv] & Hall & ->).
    cbn [QueryItem_array]. rewrite bind_unfold, Hty. cbn beta iota.
    destruct (decide (CFDictionaryTypeID = CFDictionaryTypeID)) as [_|]; [|done].
    rewrite bind_unfold, Hconv. cbn beta iota. unfold deref_result.
    rewrite bind_unfold, ret_unfold. cbn beta iota.
    rewrite (IH rs' (results ++ [r]) h Hall). by rewrite <- app_assoc.
Qed.

(** The switch of [QueryItem] only reads. *)
Lemma QueryItem_switch_reads resultsRef : reads (QueryItem_switch resultsRef).
Proof.
  intros h out h'. unfold QueryItem_switch. rewrite bind_unfold.
  destruct (CF.CFGetTypeID resultsRef h) as [t h0| |] eqn:Hty; [|done..].
  assert (is_Some (h !! resultsRef)) as Hlive.
  { revert Hty. unfold CF.CFGetTypeID, CF.deref. rewrite bind_unfold.
    destruct (h !! resultsRef); [eauto|done]. }
  apply reads_CFGetTypeID in Hty as ->.
  destruct t.
  all: try (destruct (CFTypeDescription_live resultsRef h Hlive) as [desc Hdesc];
            rewrite bind_unfold, Hdesc; by intros [= _ <-]).
  - intros ([item err] & h1 & Hconv & Hrest)%bind_inv.
    apply reads_convertResult in Hconv as ->.
    destruct err; [by injection Hrest as _ <-|].
    apply bind_inv in Hrest as (r & h2 & Hd & [= _ <-]).
    destruct item; [by injection Hd as _ <-|done].
  - intros (arr & h1 & Harr & Hrest)%bind_inv.
    apply reads_as_array in Harr as ->. by apply QueryItem_array_inv in Hrest.
  - intros ([b err] & h1 & Hb & Hrest)%bind_inv.
    apply reads_CFDataToBytes in Hb as ->. destruct err; by injection Hrest as _ <-.
Qed.

(** [QueryItem] once [QueryItemRef] has come back with a response: the
    switch, then the deferred release. *)
Lemma QueryItem_run (item : Item) (h : CFHeap) (resultsRef : CFTypeRef) (h1 h' : CFHeap) out :
  QueryItemRef item h = Returns (resultsRef, None) h1 →
  resultsRef ≠ 0 →
  Release resultsRef h1 = Returns tt h' →
  QueryItem_switch resultsRef h1 = Returns out h1 →
  QueryItem item h = Returns out h'.
Proof.
  intros Hq Hnz Hrel Hsw. assert ((resultsRef =? 0) = false) as Hnz' by lia.
  unfold QueryItem. rewrite bind_unfold, Hq. cbn beta iota.
  rewrite Hnz'. rewrite bind_unfold, Hsw. cbn beta iota.
  by rewrite bind_unfold, Hrel.
Qed.

Lemma QueryItem_switch_data (r : Z) (h : CFHeap) bytes rc :
  h !! r = Some (Cell (CFData bytes) rc) →
  Z.of_nat (length bytes) < 2 ^ 31 →
  QueryItem_switch r h = Returns (Some [with_Data (Some bytes) QueryResult_zero], None) h.
Proof.
  intros Hres Hlen. unfold QueryItem_switch.
  rewrite bind_unfold, (CFGetTypeID_live _ _ _ _ Hres). cbn beta iota. cbn [CF.type_of].
  by rewrite bind_unfold, (CFDataToBytes_small _ _ _ _ Hres Hlen).
Qed.

Lemma QueryItem_switch_array (r : Z) (h : CFHeap) arr rc rs :
  h !! r = Some (Cell (CFArray arr) rc) →
  Forall2 (λ e r, CF.CFGetTypeID e h = Returns CFDictionaryTypeID h ∧
                  convertResult e h = Returns (Some r, None) h) arr rs →
  QueryItem_switch r h = Returns (Some rs, None) h.
Proof.
  intros Hres Hall. unfold QueryItem_switch.
  rewrite bind_unfold, (CFGetTypeID_live _ _ _ _ Hres). cbn beta iota. cbn [CF.type_of].
  unfold CFArrayToArray, CF.as_array. rewrite !bind_unfold, (deref_live _ _ _ _ Hres).
  cbn beta iota. rewrite ret_unfold. cbn beta iota.
  by rewrite (QueryItem_array_all arr rs [] h Hall).
Qed.

Lemma QueryItem_not_found (item : Item) (h h' : CFHeap) :
  QueryItemRef item h = Returns (0, None) h' → QueryItem item h = Returns (None, None) h'.
Proof. intros Hq. unfold QueryItem. by rewrite bind_unfold, Hq. Qed.

Lemma QueryItem_error (item : Item) (h h' : CFHeap) r e :
  QueryItemRef item h = Returns (r, Some e) h' → QueryItem item h = Returns (None, Some e) h'.
Proof. intros Hq. unfold QueryItem. by rewrite bind_unfold, Hq. Qed.

(** What [QueryItem] does with the response once [QueryItemRef] has come
    back with a reference that is not null: it decodes the response by its
    shape, releases the response, once, and changes nothing else.  A data
    response of fewer than 2^31 bytes gives one result that holds the
    bytes and nothing else; a dictionary response gives the one result
    that [convertResult] decodes, or its error wrapped; an array of
    dictionaries that all decode gives their results, one for each element
    and in the order of the array, the empty array an empty list that is
    not nil. *)
Theorem QueryItem_by_shape (item : Item) (h : CFHeap) (resultsRef : CFTypeRef)
    (h1 : CFHeap) (o : CFObject) (rc : nat) :
  QueryItemRef item h = Returns (resultsRef, None) h1 →
  resultsRef ≠ 0 →
  h1 !! resultsRef = Some (Cell o rc) →
  ∃ h', Release resultsRef h1 = Returns tt h' ∧
    (∀ out h'', QueryItem item h = Returns out h'' → h'' = h') ∧
    (∀ bytes, o = CFData bytes → Z.of_nat (length bytes) < 2 ^ 31 →
       QueryItem item h
       = Returns (Some [with_Data (Some bytes) QueryResult_zero], None) h') ∧
    (∀ es r, o = CFDictionary es →
       convertResult resultsRef h1 = Returns (Some r, None) h1 →
       QueryItem item h = Returns (Some [r], None) h') ∧
    (∀ es e, o = CFDictionary es →
       convertResult resultsRef h1 = Returns (None, Some e) h1 →
       QueryItem item h
       = Returns (None, Some (wrapError "failed to convert CFDictionary to QueryResult: " e))
           h') ∧
    (∀ arr rs, o = CFArray arr →
       Forall2 (λ e r, CF.CFGetTypeID e h1 = Returns CFDictionaryTypeID h1 ∧
                       convertResult e h1 = Returns (Some r, None) h1) arr rs →
       QueryItem item h = Returns (Some rs, None) h').
Proof.
  intros Hq Hnz Hres.
  assert ((resultsRef =? 0) = false) as Hnz' by lia.
  destruct (release_live resultsRef h1) as [h' Hrel]; [by eexists|].
  exists h'. split; [exact Hrel|].
  assert (∀ out, QueryItem_switch resultsRef h1 = Returns out h1 →
                 QueryItem item h = Returns out h') as Hrun.
  { intros out. by apply QueryItem_run. }
  split; [|split; [|split; [|split]]].
  - intros out h''. unfold QueryItem. rewrite bind_unfold, Hq. cbn beta iota. rewrite Hnz'.
    intros (out' & h2 & Hsw & Hrest)%bind_inv.
    apply QueryItem_switch_reads in Hsw as ->.
    apply bind_inv in Hrest as ([] & h3 & Hrel' & [= _ <-]). congruence.
  - intros bytes -> Hlen. apply Hrun. by eapply QueryItem_switch_data.
  - intros es r -> Hconv. apply Hrun. unfold QueryItem_switch.
    rewrite bind_unfold, (CFGetTypeID_live _ _ _ _ Hres). cbn beta iota. cbn [CF.type_of].
    rewrite bind_unfold, Hconv. done.
  - intros es e -> Hconv. apply Hrun. unfold QueryItem_switch.
    rewrite bind_unfold, (CFGetTypeID_live _ _ _ _ Hres). cbn beta iota. cbn [CF.type_of].
    rewrite bind_unfold, Hconv. done.
  - intros arr rs -> Hall. apply Hrun. by eapply QueryItem_switch_array.
Qed.

End shapes.

Section convenience.
Context `{Platform}.

(** [GetGenericPassword] by what the store answers to its query: nothing
    found gives no data and no error (nil, nil); an error of the query is
    returned with no data; a data response of fewer than 2^31 bytes is
    returned as it is. *)
Theorem GetGenericPassword_outcomes (service account label accessGroup : string)
    (h : CFHeap) :
  let query := GetGenericPassword_query service account label accessGroup in
  (∀ h', QueryItemRef query h = Returns (0, None) h' →
         GetGenericPassword service account label accessGroup h
         = Returns (None, None) h') ∧
  (∀ r e h', QueryItemRef query h = Returns (r, Some e) h' →
             GetGenericPassword service account label accessGroup h
             = Returns (None, Some e) h') ∧
  (∀ r h1 bytes rc,
     QueryItemRef query h = Returns (r, None) h1 → r ≠ 0 →
     h1 !! r = Some (Cell (CFData bytes) rc) →
     Z.of_nat (length bytes) < 2 ^ 31 →
     ∃ h', GetGenericPassword service account label accessGroup h
           = Returns (Some bytes, None) h').
Proof.
  intros query. split; [|split].
  - intros h' Hq%QueryItem_not_found. unfold GetGenericPassword.
    fold query. by rewrite bind_unfold, Hq.
  - intros r e h' Hq%QueryItem_error. unfold GetGenericPassword.
    fold query. by rewrite bind_unfold, Hq.
  - intros r h1 bytes rc Hq Hnz Hres Hlen.
    destruct (release_live r h1) as [h' Hrel]; [by eexists|].
    exists h'. unfold GetGenericPassword. fold query.
    rewrite bind_unfold.
    by rewrite (QueryItem_run _ _ _ _ _ _ Hq Hnz Hrel (QueryItem_switch_data _ _ _ _ Hres Hlen)).
Qed.

(** [GetGenericPasswordAccounts] (and [GetAccountsForService], which calls
    it) by what the store answers to its query: nothing found gives an
    empty list that is not nil, where [QueryItem] gives nil; an array of
    records gives the account of each record, in the order of the array;
    an error of the query is returned with a nil list. *)
Theorem GetGenericPasswordAccounts_outcomes (service : string) (h : CFHeap) :
  let query := GetGenericPasswordAccounts_query service in
  GetAccountsForService service h = GetGenericPasswordAccounts service h ∧
  (∀ h', QueryItemRef query h = Returns (0, None) h' →
         QueryItem query h = Returns (None, None) h' ∧
         GetGenericPasswordAccounts service h = Returns (Some [], None) h') ∧
  (∀ r e h', QueryItemRef query h = Returns (r, Some e) h' →
             GetGenericPasswordAccounts service h = Returns (None, Some e) h') ∧
  (∀ r h1 arr rc rs,
     QueryItemRef query h = Returns (r, None) h1 → r ≠ 0 →
     h1 !! r = Some (Cell (CFArray arr) rc) →
     Forall2 (λ e r, CF.CFGetTypeID e h1 = Returns CFDictionaryTypeID h1 ∧
                     convertResult e h1 = Returns (Some r, None) h1) arr rs →
     ∃ h', GetGenericPasswordAccounts service h
           = Returns (Some (Account <$> rs), None) h').
Proof.
  intros query. split; [done|]. split; [|split].
  - intros h' Hq%QueryItem_not_found. split; [done|].
    unfold GetGenericPasswordAccounts. fold (GetGenericPasswordAccounts_query service).
    fold query. by rewrite bind_unfold, Hq.
  - intros r e h' Hq%QueryItem_error.
    unfold GetGenericPasswordAccounts. fold (GetGenericPasswordAccounts_query service).
    fold query. by rewrite bind_unfold, Hq.
  - intros r h1 arr rc rs Hq Hnz Hres Hall.
    destruct (release_live r h1) as [h' Hrel]; [by eexists|].
    exists h'. unfold GetGenericPasswordAccounts.
    fold (GetGenericPasswordAccounts_query service). fold query. rewrite bind_unfold.
    by rewrite (QueryItem_run _ _ _ _ _ _ Hq Hnz Hrel (QueryItem_switch_array _ _ _ _ _ Hres Hall)).
Qed.

End convenience.

(** ** The setters of an item *)


(** ** What a built dictionary holds *)

Lemma survives_refl h : survives h h.
Proof. intros r o rc Hr. eauto. Qed.

Lemma survives_trans h1 h2 h3 : survives h1 h2 → survives h2 h3 → survives h1 h3.
Proof. intros H12 H23 r o rc Hr. destruct (H12 _ _ _ Hr) as [rc' Hr']. eauto. Qed.

Lemma survives_insert (h : CFHeap) r c : h !! r = None → survives h (<[r := c]> h).
Proof.
  intros Hfree r' o rc Hr'. exists rc. rewrite lookup_insert_ne; [done|]. congruence.
Qed.

Lemma text_object_mono h h' s r : survives h h' → text_object h s r → text_object h' s r.
Proof.
  intros Hs (cs & rc & Hdec & Hr). destruct (Hs _ _ _ Hr) as [rc' Hr']. by exists cs, rc'.
Qed.

Lemma stands_for_mono h h' i r : survives h h' → stands_for h i r → stands_for h' i r.
Proof.
  intros Hs. destruct i; simpl; try done.
  - intros [rc Hr]. destruct (Hs _ _ _ Hr) as [rc' Hr']. eauto.
  - intros [rc Hr]. destruct (Hs _ _ _ Hr) as [rc' Hr']. eauto.
  - by apply text_object_mono.
  - intros [[o rc] Hr]. destruct (Hs _ _ _ Hr) as [rc' Hr']. eauto.
Qed.

(** Retaining keeps every object and raises the count of the retained. *)
Lemma retain_object (r : Z) (h : CFHeap) u h' r' o rc :
  CF.CFRetain r h = Returns u h' →
  h !! r' = Some (Cell o rc) →
  ∃ rc', h' !! r' = Some (Cell o rc') ∧ (rc ≤ rc')%nat ∧ (r' = r → (rc < rc')%nat).
Proof.
  unfold CF.CFRetain. destruct (h !! r) as [c|] eqn:Hr; [|done].
  intros [= <- <-] Hr'. destruct (decide (r' = r)) as [->|Hne].
  - rewrite lookup_insert_eq. assert (c = Cell o rc) as -> by congruence.
    exists (S rc). simpl. split; [done|]. split; lia.
  - rewrite lookup_insert_ne by done. exists rc. split; [done|]. split; [lia|done].
Qed.

Lemma retain_all_object rs : ∀ (h : CFHeap) u h' r' o rc,
  CF.retain_all rs h = Returns u h' →
  h !! r' = Some (Cell o rc) →
  ∃ rc', h' !! r' = Some (Cell o rc') ∧ (rc ≤ rc')%nat ∧ (r' ∈ rs → (rc < rc')%nat).
Proof.
  induction rs as [|r rs IH]; intros h u h' r' o rc; cbn [CF.retain_all].
  - intros [= <- <-] Hr'. exists rc. split; [done|]. split; [lia|]. by intros ?%elem_of_nil.
  - intros (u1 & h1 & Hr & Hrest)%bind_inv Hr'.
    destruct (retain_object _ _ _ _ _ _ _ Hr Hr') as (rc1 & Hr1 & Hle1 & Hlt1).
    destruct (IH _ _ _ _ _ _ Hrest Hr1) as (rc2 & Hr2 & Hle2 & Hlt2).
    exists rc2. split; [done|]. split; [lia|].
    intros [->|Hin]%elem_of_cons; [specialize (Hlt1 eq_refl); lia|specialize (Hlt2 Hin); lia].
Qed.

Lemma retain_all_live rs : ∀ (h : CFHeap),
  Forall (λ r, is_Some (h !! r)) rs → ∃ h', CF.retain_all rs h = Returns tt h'.
Proof.
  induction rs as [|r rs IH]; intros h Hall; cbn [CF.retain_all]; [by eexists|].
  apply Forall_cons in Hall as [[c Hr] Hall].
  assert (CF.CFRetain r h = Returns tt (<[r := Cell (object c) (S (retainCount c))]> h)) as Hret.
  { unfold CF.CFRetain. by rewrite Hr. }
  destruct (IH (<[r := Cell (object c) (S (retainCount c))]> h)) as [h' Hrest].
  { eapply Forall_impl; [exact Hall|]. intros r' Hr'. cbn beta.
    rewrite (retain_inv _ _ _ _ Hret). done. }
  exists h'. by rewrite bind_unfold, Hret.
Qed.

(** The deferred releases free no object that is held twice. *)
Lemma run_deferred_object ds : ∀ (h : CFHeap) h' r o rc,
  run_deferred ds h = Returns tt h' → NoDup ds →
  h !! r = Some (Cell o rc) → (r ∈ ds → (2 ≤ rc)%nat) →
  ∃ rc', h' !! r = Some (Cell o rc').
Proof.
  induction ds as [|d ds IH]; intros h h' r o rc; cbn [run_deferred].
  - intros [= <-] _ Hr _. eauto.
  - intros ([] & h1 & Hrel & Hrest)%bind_inv [Hd Hnd]%NoDup_cons Hr Hrc.
    destruct (decide (r = d)) as [->|Hne].
    + assert (2 ≤ rc)%nat as Hge by (apply Hrc; left).
      assert (h1 !! d = Some (Cell o (pred rc))) as Hr1.
      { revert Hrel. unfold Release, CF.CFRelease. rewrite Hr. simpl.
        destruct (rc <=? 1)%nat eqn:E; [apply Nat.leb_le in E; lia|].
        intros [= <-]. apply lookup_insert_eq. }
      eapply (IH _ _ _ _ _ Hrest Hnd Hr1). intros Hin. done.
    + eapply (IH _ _ _ _ _ Hrest Hnd); [by rewrite (release_frame _ _ _ _ Hrel)|].
      intros Hin. apply Hrc. by right.
Qed.

Lemma run_deferred_live ds : ∀ (h : CFHeap),
  NoDup ds → Forall (λ r, is_Some (h !! r)) ds → ∃ h', run_deferred ds h = Returns tt h'.
Proof.
  induction ds as [|d ds IH]; intros h Hnd Hall; cbn [run_deferred]; [by eexists|].
  apply NoDup_cons in Hnd as [Hd Hnd]. apply Forall_cons in Hall as [Hlive Hall].
  destruct (release_live d h Hlive) as [h1 Hrel].
  destruct (IH h1 Hnd) as [h' Hrest].
  { apply Forall_forall. intros r Hr. rewrite (release_frame _ _ _ _ Hrel).
    - rewrite Forall_forall in Hall. by apply Hall.
    - intros ->. done. }
  exists h'. by rewrite bind_unfold, Hrel.
Qed.

Section built.
Context `{Platform}.

(** The value that the switch on the dynamic type gives stands for the Go
    value. *)
Lemma convert_value_stands i h r d h' :
  convert_value i h = Returns (r, d, None) h' → stands_for h' i r.
Proof.
  destruct i as [|val|b|n|n|n|n|n|n|n|n|b|s|c]; simpl; try done.
  - by intros [= <- _ _].
  - destruct b; by intros [= <- _ _].
  - intros [= <- _ <-]. exists 1%nat. apply lookup_insert_eq.
  - destruct (BytesToCFData_cases b h) as [[? Hb]|[? Hb]]; rewrite bind_unfold, Hb; [done|].
    intros [= <- _ <-]. exists 1%nat. apply lookup_insert_eq.
  - destruct (StringToCFString_cases s h) as [[? [e Hs]]|[? (cs & Hdec & Hs)]];
      rewrite bind_unfold, Hs; [done|].
    intros [= <- _ <-]. exists cs, 1%nat. split; [done|]. apply lookup_insert_eq.
  - destruct (Convert_owned c h) as [(r' & e & Hc)|(o & Hc)]; rewrite bind_unfold, Hc; [done|].
    intros [= <- _ <-]. rewrite lookup_insert_eq. by eexists.
Qed.

(** What the loop of [ConvertMapToCFDictionary] has built after the
    entries [done] (the latest first): a map with one pair of references
    for each entry, whose key is an object the loop has made and will
    release, and which holds every such object. *)
Definition conv_inv (h : CFHeap) (ds : list Z) (done : list (string * GoValue))
    (m : gmap Z Z) : Prop :=
  ∃ pairs : list (Z * Z),
    map_to_list m ≡ₚ pairs ∧
    Forall2 (λ kv p, text_object h kv.1 p.1 ∧ stands_for h kv.2 p.2) done pairs ∧
    (∀ p, p ∈ pairs → p.1 ∈ ds) ∧
    (∀ d, d ∈ ds → d ∈ pairs.*1 ∨ d ∈ pairs.*2).

Lemma conv_inv_step h0 h ds done m key i cs r h1 ds1 :
  owned h0 ds h →
  conv_inv h ds done m →
  survives h h1 →
  h1 !! CF.next_ref h1 = None →
  utf8.decode key = Some cs →
  stands_for h1 i r →
  (∀ d, d ∈ ds1 → d ∈ ds ∨ d = r) →
  (∀ d, d ∈ ds → d ∈ ds1) →
  (∀ d, d ∈ ds1 → is_Some (h1 !! d)) →
  conv_inv (<[CF.next_ref h1 := Cell (CFString cs) 1]> h1) (CF.next_ref h1 :: ds1)
    ((key, i) :: done) (<[CF.next_ref h1 := r]> m).
Proof.
  intros Ho (pairs & Hperm & Hall & Hkeys & Hds) Hsurv Hfresh Hdec Hst Hds1 Hsub Hlive.
  set (k := CF.next_ref h1). set (h2 := <[k := Cell (CFString cs) 1]> h1).
  assert (survives h1 h2) as Hs12 by by apply survives_insert.
  assert (m !! k = None) as Hmk.
  { destruct (m !! k) as [v|] eqn:E; [|done]. exfalso.
    assert ((k, v) ∈ pairs) as Hin by (rewrite <- Hperm; by apply elem_of_map_to_list).
    apply Hkeys, Hsub, Hlive in Hin. destruct Hin as [c Hc]. simpl in Hc.
    unfold k in Hc. congruence. }
  exists ((k, r) :: pairs). split; [|split; [|split]].
  - rewrite map_to_list_insert by done. by rewrite Hperm.
  - constructor.
    + split; [|by eapply stands_for_mono]. exists cs, 1%nat. split; [done|].
      apply lookup_insert_eq.
    + eapply Forall2_impl; [exact Hall|]. intros kv p [Ht Hv]. split.
      * eapply text_object_mono; [|exact Ht]. by eapply survives_trans.
      * eapply stands_for_mono; [|exact Hv]. by eapply survives_trans.
  - intros p [->|Hp]%elem_of_cons; [left|right; by apply Hsub, Hkeys].
  - intros d [->|Hd]%elem_of_cons; [left; left|].
    destruct (Hds1 _ Hd) as [Hd'| ->].
    + destruct (Hds _ Hd') as [?|?]; [left|right]; by right.
    + right. left.
Qed.

Lemma convert_entries_built es : ∀ m ds h0 h done m' ds' h',
  owned h0 ds h → conv_inv h ds done m →
  convert_entries es m ds h = Returns (m', ds', None) h' →
  owned h0 ds' h' ∧ conv_inv h' ds' (reverse es ++ done) m'.
Proof.
  induction es as [|[key i] es IH]; intros m ds h0 h done m' ds' h' Ho Hinv.
  - cbn [convert_entries]. by intros [= <- <- <-].
  - cbn [convert_entries]. rewrite reverse_cons, <- app_assoc. cbn [app].
    destruct (convert_value_cases i h) as [[e Hv]|[[Hnf [r Hv]]|[Hnf [o Hv]]]];
      rewrite bind_unfold, Hv; cbn beta iota; [done| |].
    + pose proof (convert_value_stands _ _ _ _ _ Hv) as Hst.
      destruct (StringToCFString_cases key h) as [[? [e Hs]]|[Hk (cs & Hdec & Hs)]];
        rewrite bind_unfold, Hs; cbn beta iota; [done|].
      apply IH; [by apply owned_create|].
      eapply (conv_inv_step h0 h ds done m key i cs r h ds); try done.
      * apply survives_refl.
      * apply next_ref_fresh.
      * auto.
      * intros d Hd. destruct Ho as (_ & Hin & _). destruct (Hin _ Hd) as (_ & o' & ->). eauto.
    + pose proof (convert_value_stands _ _ _ _ _ Hv) as Hst.
      set (v := CF.next_ref h) in *. set (h1 := <[v := Cell o 1]> h) in *.
      assert (owned h0 (v :: ds) h1) as Ho1 by by apply owned_create.
      destruct (StringToCFString_cases key h1) as [[? [e Hs]]|[Hk (cs & Hdec & Hs)]];
        rewrite bind_unfold, Hs; cbn beta iota; [done|].
      apply IH; [by apply owned_create|].
      eapply (conv_inv_step h0 h ds done m key i cs v h1 (v :: ds)); try done.
      * apply survives_insert, next_ref_fresh.
      * apply next_ref_fresh.
      * intros d [->|Hd]%elem_of_cons; auto.
      * intros d Hd. by right.
      * intros d Hd. destruct Ho1 as (_ & Hin & _). destruct (Hin _ Hd) as (_ & o' & ->). eauto.
Qed.

End built.

Section built_dictionary.
Context `{Platform}.

Lemma Forall2_elem_l {A B} (P : A → B → Prop) l k x :
  Forall2 P l k → x ∈ l → ∃ y, y ∈ k ∧ P x y.
Proof.
  intros Hall [i Hi]%list_elem_of_lookup.
  destruct (Forall2_lookup_l _ _ _ _ _ Hall Hi) as (y & Hy & HP).
  exists y. split; [|done]. apply list_elem_of_lookup. eauto.
Qed.

Lemma Forall2_elem_r {A B} (P : A → B → Prop) l k y :
  Forall2 P l k → y ∈ k → ∃ x, x ∈ l ∧ P x y.
Proof.
  intros Hall [i Hi]%list_elem_of_lookup.
  destruct (Forall2_lookup_r _ _ _ _ _ Hall Hi) as (x & Hx & HP).
  exists x. split; [|done]. apply list_elem_of_lookup. eauto.
Qed.

Lemma conv_inv_nil h : conv_inv h [] [] ∅.
Proof.
  exists []. split; [by rewrite map_to_list_empty|]. split; [constructor|].
  split; intros ? ?%elem_of_nil; done.
Qed.

(** The run of a build that succeeds, step by step. *)
Lemma ConvertMapToCFDictionary_run attr h0 cfDict h1 :
  ConvertMapToCFDictionary attr h0 = Returns (cfDict, None) h1 →
  ∃ m ds h' ha h2 kvs,
    owned h0 ds h' ∧ conv_inv h' ds (reverse (range_attr attr)) m ∧
    kvs ≡ₚ map_to_list m ∧
    CF.retain_all kvs.*1 h' = Returns tt ha ∧
    CF.retain_all kvs.*2 ha = Returns tt h2 ∧
    cfDict = CF.next_ref h2 ∧
    run_deferred ds (<[cfDict := Cell (CFDictionary kvs) 1]> h2) = Returns tt h1.
Proof.
  unfold ConvertMapToCFDictionary.
  intros ([[m ds] err] & h' & Hrun & Hrest)%bind_inv.
  destruct err as [e|].
  { apply bind_inv in Hrest as (u & h2 & _ & [=]). }
  destruct (convert_entries_built _ _ _ h0 h0 [] _ _ _ (owned_nil h0) (conv_inv_nil h0) Hrun)
    as [Ho Hinv].
  rewrite app_nil_r in Hinv.
  apply bind_inv in Hrest as ([d err] & h3 & Hmap & Hrest).
  unfold MapToCFDictionary, CF.CFDictionaryCreate in Hmap.
  apply bind_inv in Hmap as (r & h3' & Hc & Hret).
  apply bind_inv in Hc as ([] & ha & Hk & Hc).
  apply bind_inv in Hc as ([] & h2 & Hv & Hc).
  rewrite create_unfold in Hc. injection Hc as <- <-.
  rewrite next_ref_eqb in Hret. injection Hret as <- <- <-.
  apply bind_inv in Hrest as ([] & h4 & Hdef & [= <- <-]).
  rewrite zip_fst_snd in Hdef.
  exists m, ds, h', ha, h2, (range_refs m).
  repeat (split; [done|]). split; [apply range_refs_perm|]. done.
Qed.

(** Every object of the heap at the end of the loop is in the heap that
    the build leaves. *)
Lemma built_survives attr h0 cfDict h1 m ds h' ha h2 kvs :
  owned h0 ds h' → conv_inv h' ds (reverse (range_attr attr)) m →
  kvs ≡ₚ map_to_list m →
  CF.retain_all kvs.*1 h' = Returns tt ha →
  CF.retain_all kvs.*2 ha = Returns tt h2 →
  cfDict = CF.next_ref h2 →
  run_deferred ds (<[cfDict := Cell (CFDictionary kvs) 1]> h2) = Returns tt h1 →
  survives h' h1.
Proof.
  intros (Hnd & Hin & Hout) (pairs & Hperm & Hall & Hkeys & Hds) Hkvs Hk Hv -> Hdef r o rc Hr.
  destruct (retain_all_object _ _ _ _ _ _ _ Hk Hr) as (rca & Hra & Hlea & Hlta).
  destruct (retain_all_object _ _ _ _ _ _ _ Hv Hra) as (rc2 & Hr2 & Hle2 & Hlt2).
  assert (r ≠ CF.next_ref h2) as Hne.
  { intros ->. rewrite next_ref_fresh in Hr2. done. }
  eapply (run_deferred_object _ _ _ _ _ rc2 Hdef Hnd).
  - by rewrite lookup_insert_ne.
  - intros Hd. destruct (Hin _ Hd) as (_ & o' & Hr').
    assert (rc = 1%nat) as -> by congruence.
    destruct (Hds _ Hd) as [Hp|Hp].
    + assert (r ∈ kvs.*1) as Hp' by (by rewrite Hkvs, Hperm). specialize (Hlta Hp'). lia.
    + assert (r ∈ kvs.*2) as Hp' by (by rewrite Hkvs, Hperm). specialize (Hlt2 Hp'). lia.
Qed.

End built_dictionary.

Section built_theorems.
Context `{Platform}.

(** The dictionary that [ConvertMapToCFDictionary] returns holds the
    attribute map, entry for entry.  It is a new object, held once; it has
    as many entries as the map, under distinct keys; and for each
    attribute it has an entry whose key is a new string object with the
    text of the attribute's name and whose value stands for the
    attribute's value: the reference itself, the constant of the boolean,
    a 32-bit number, the data or the text.  The deferred releases free
    none of them, and every object that was alive before the call is
    still alive. *)
Theorem built_dictionary_holds_the_attributes (attr : gmap string GoValue)
    (h0 : CFHeap) (cfDict : CFTypeRef) (h1 : CFHeap) :
  ConvertMapToCFDictionary attr h0 = Returns (cfDict, None) h1 →
  cfDict ≠ 0 ∧ h0 !! cfDict = None ∧ survives h0 h1 ∧
  ∃ es, h1 !! cfDict = Some (Cell (CFDictionary es) 1) ∧
        length es = size attr ∧ NoDup es.*1 ∧
        ∀ key i, attr !! key = Some i →
          ∃ kr vr, (kr, vr) ∈ es ∧ h0 !! kr = None ∧
                   text_object h1 key kr ∧ stands_for h1 i vr.
Proof.
  intros Hrun.
  destruct (ConvertMapToCFDictionary_run _ _ _ _ Hrun)
    as (m & ds & h' & ha & h2 & kvs & Ho & Hinv & Hkvs & Hk & Hv & Hd & Hdef).
  pose proof (built_survives _ _ _ _ _ _ _ _ _ _ Ho Hinv Hkvs Hk Hv Hd Hdef) as Hsurv.
  subst cfDict. set (cfDict := CF.next_ref h2) in *.
  destruct Ho as (Hnd & Hin & Hout).
  destruct Hinv as (pairs & Hperm & Hall & Hkeys & Hds).
  assert (∀ r, is_Some (h' !! r) → is_Some (h2 !! r)) as Hlive2.
  { intros r Hr. rewrite (retain_all_inv _ _ _ _ Hv r). by rewrite (retain_all_inv _ _ _ _ Hk r). }
  assert (∀ r, is_Some (h' !! r) → r ≠ cfDict) as Hnew.
  { intros r Hr%Hlive2 ->. unfold cfDict in Hr. rewrite next_ref_fresh in Hr. by destruct Hr. }
  assert (cfDict ∉ ds) as Hnotin.
  { intros Hd'. destruct (Hin _ Hd') as (_ & o & Ho). eapply Hnew; [|done]. by rewrite Ho. }
  split; [pose proof (next_ref_pos h2); unfold cfDict; lia|]. split; [|split].
  - rewrite <- Hout by done. destruct (h' !! cfDict) eqn:E; [|done].
    exfalso. eapply Hnew; [|done]. by rewrite E.
  - intros r o rc Hr. apply (Hsurv r o rc). rewrite Hout; [done|].
    intros Hd'. destruct (Hin _ Hd') as (Hnone & _). congruence.
  - exists kvs. split; [|split; [|split]].
    + rewrite (run_deferred_frame _ _ _ _ Hdef Hnotin). apply lookup_insert_eq.
    + rewrite Hkvs, Hperm, <- (Forall2_length _ _ _ Hall), length_reverse.
      rewrite range_attr_perm. apply length_map_to_list.
    + rewrite Hkvs. apply NoDup_fst_map_to_list.
    + intros key i Hki.
      assert ((key, i) ∈ reverse (range_attr attr)) as Hel.
      { rewrite elem_of_reverse, range_attr_perm. by apply elem_of_map_to_list. }
      destruct (Forall2_elem_l _ _ _ _ Hall Hel) as ([kr vr] & Hp & Ht & Hs).
      exists kr, vr. split; [by rewrite Hkvs, Hperm|]. split; [|split].
      * apply Hkeys in Hp. by destruct (Hin _ Hp) as (Hnone & _).
      * by eapply text_object_mono.
      * by eapply stands_for_mono.
Qed.

(** [ConvertMapToCFDictionary] comes back whenever the references that
    the attribute map holds are alive (and the two boolean constants, if
    it holds a boolean): with an error and the heap as it was, or with a
    dictionary. *)
Theorem ConvertMapToCFDictionary_returns (attr : gmap string GoValue) (h0 : CFHeap) :
  (∀ key r, attr !! key = Some (Ref r) → is_Some (h0 !! r)) →
  (∀ key b, attr !! key = Some (Bool b) →
            is_Some (h0 !! kCFBooleanTrue) ∧ is_Some (h0 !! kCFBooleanFalse)) →
  (∃ e, ConvertMapToCFDictionary attr h0 = Returns (0, Some e) h0) ∨
  (∃ cfDict h1, cfDict ≠ 0 ∧ ConvertMapToCFDictionary attr h0 = Returns (cfDict, None) h1).
Proof.
  intros Hrefs Hbools. unfold ConvertMapToCFDictionary.
  destruct (convert_entries_owned (range_attr attr) ∅ [] h0 h0 (owned_nil h0))
    as (m & ds & err & h' & Hrun & Ho & _).
  rewrite bind_unfold, Hrun. cbn beta iota.
  destruct err as [e|].
  { left. exists e. by rewrite bind_unfold, (run_deferred_owned _ _ _ Ho). }
  right.
  destruct (convert_entries_built _ _ _ h0 h0 [] _ _ _ (owned_nil h0) (conv_inv_nil h0) Hrun)
    as [_ Hinv].
  rewrite app_nil_r in Hinv.
  destruct Ho as (Hnd & Hin & Hout).
  destruct Hinv as (pairs & Hperm & Hall & Hkeys & Hds).
  assert (∀ r, is_Some (h0 !! r) → is_Some (h' !! r)) as Hold.
  { intros r Hr. rewrite Hout; [done|]. intros Hd. destruct (Hin _ Hd) as (Hnone & _).
    rewrite Hnone in Hr. by destruct Hr. }
  assert (∀ p, p ∈ range_refs m → is_Some (h' !! p.1) ∧ is_Some (h' !! p.2)) as Hlive.
  { intros [kr vr] Hp. rewrite range_refs_perm, Hperm in Hp. cbn [fst snd]. split.
    - destruct (Hin _ (Hkeys _ Hp)) as (_ & o & Hkr). simpl in Hkr. rewrite Hkr. eauto.
    - destruct (Forall2_elem_r _ _ _ _ Hall Hp) as ([key i] & Hel & _ & Hs).
      rewrite elem_of_reverse, range_attr_perm in Hel. apply elem_of_map_to_list in Hel.
      simpl in Hs. destruct i; simpl in Hs; try done.
      + subst. by eapply Hold, Hrefs.
      + destruct (Hbools _ _ Hel) as [Ht Hf]. subst. destruct b; by apply Hold.
      + destruct Hs as [rc ->]. eauto.
      + destruct Hs as [rc ->]. eauto.
      + destruct Hs as (cs & rc & _ & ->). eauto. }
  destruct (retain_all_live (range_refs m).*1 h') as [ha Hk].
  { apply Forall_forall. intros r (p & -> & Hp)%list_elem_of_fmap. by apply Hlive. }
  destruct (retain_all_live (range_refs m).*2 ha) as [h2 Hv].
  { apply Forall_forall. intros r (p & -> & Hp)%list_elem_of_fmap.
    rewrite (retain_all_inv _ _ _ _ Hk). by apply Hlive. }
  set (cfDict := CF.next_ref h2).
  destruct (run_deferred_live ds
              (<[cfDict := Cell (CFDictionary (zip (range_refs m).*1 (range_refs m).*2)) 1]> h2)
              Hnd) as [h1 Hdef].
  { apply Forall_forall. intros d Hd. destruct (Hin _ Hd) as (_ & o & Hd').
    assert (is_Some (h2 !! d)) as [c Hc].
    { rewrite (retain_all_inv _ _ _ _ Hv), (retain_all_inv _ _ _ _ Hk). by rewrite Hd'. }
    rewrite lookup_insert_ne; [by rewrite Hc|].
    intros <-. unfold cfDict in Hc. by rewrite next_ref_fresh in Hc. }
  exists cfDict, h1. split; [pose proof (next_ref_pos h2); unfold cfDict; lia|].
  assert (MapToCFDictionary m h'
          = Returns (cfDict, None)
              (<[cfDict := Cell (CFDictionary (zip (range_refs m).*1 (range_refs m).*2)) 1]> h2))
    as Hmap.
  { unfold MapToCFDictionary, CF.CFDictionaryCreate.
    rewrite !bind_unfold, Hk. cbn beta iota. rewrite !bind_unfold, Hv. cbn beta iota.
    rewrite create_unfold. cbn beta iota. by rewrite next_ref_eqb. }
  rewrite bind_unfold, Hmap. cbn beta iota. by rewrite bind_unfold, Hdef.
Qed.

End built_theorems.

(** Filling a Go map from a list of pairs, the way [CFDictionaryToMap]
    does. *)
Lemma foldl_insert_list_to_map (l : list (Z * Z)) :
  foldl (λ (m : gmap Z Z) kv, <[kv.1 := kv.2]> m) ∅ l = list_to_map (reverse l).
Proof.
  induction l as [|[k v] l IH] using rev_ind; [done|].
  rewrite foldl_app, reverse_app. cbn [foldl reverse rev_append app list_to_map]. simpl.
  by rewrite IH.
Qed.

Section dictionary_roundtrip.
Context `{Platform}.


(** [CFTypeDescription] releases the description that it copies: it
    leaves the heap as it found it, and returns the text of the
    description of the type (cut at a NUL byte, should the framework hand
    out the storage of a description that has one). *)
Theorem CFTypeDescription_leaves_the_heap (ref : CFTypeRef) (h : CFHeap) (o : CFObject)
    (rc : nat) :
  h !! ref = Some (Cell o rc) →
  let text := utf8.encode (CFCopyTypeIDDescription_text (CF.type_of o)) in
  CFTypeDescription ref h
  = Returns (if CFStringGetCStringPtr_hit (CFCopyTypeIDDescription_text (CF.type_of o))
             then GoString text else text) h.
Proof.
  intros Href text. unfold CFTypeDescription.
  rewrite bind_unfold, (CFGetTypeID_live _ _ _ _ Href). cbn beta iota.
  unfold CFCopyTypeIDDescription. rewrite bind_unfold, create_unfold. cbn beta iota.
  rewrite bind_unfold.
  erewrite CFStringToString_text by apply lookup_insert_eq. cbn beta iota.
  rewrite bind_unfold. erewrite release_last by apply lookup_insert_eq. cbn beta iota.
  rewrite ret_unfold. f_equal. apply delete_insert_id, next_ref_fresh.
Qed.

End dictionary_roundtrip.

(** [NewGenericPassword] sets the class, always, and each of the service,
    the account, the label and the access group that is not the empty
    string, and the data unless it is nil; it sets nothing else. *)
Theorem NewGenericPassword_attributes (service account label accessGroup : string)
    (data : slice Byte.byte) :
  let item := NewGenericPassword service account label data accessGroup in
  let text (s : string) := if String.eqb s "" then None else Some (Str s) in
  attr item !! SecClassKey = Some (Ref kSecClassGenericPassword) ∧
  attr item !! ServiceKey = text service ∧
  attr item !! AccountKey = text account ∧
  attr item !! LabelKey = text label ∧
  attr item !! AccessGroupKey = text accessGroup ∧
  attr item !! DataKey = (if data is Some _ then Some (Bytes data) else None) ∧
  ∀ key, key ∉ [SecClassKey; ServiceKey; AccountKey; LabelKey; AccessGroupKey; DataKey] →
         attr item !! key = None.
Proof.
  intros item text. unfold item, NewGenericPassword, SetAccessGroup, SetLabel, SetAccount,
    SetService, SetSecClass, SetString, SetData, NewItem, text.
  destruct (String.eqb service ""), (String.eqb account ""), (String.eqb label ""),
    (String.eqb accessGroup ""), data; cbn [negb attr].
  all: repeat split;
    try (intros key Hkey; rewrite !not_elem_of_cons in Hkey;
         destruct Hkey as (? & ? & ? & ? & ? & ? & _));
    repeat first [rewrite lookup_insert_eq | rewrite lookup_delete_eq
                 | rewrite lookup_insert_ne by done | rewrite lookup_delete_ne by done
                 | rewrite lookup_empty];
    done.
Qed.

Section fields.
Context `{Platform}.

(** The loop of [convertResult] at the one entry that reads as [K]: the
    switch writes the field there, and the turns after it keep it. *)
Lemma convertResult_range_at K same l1 : ∀ k v l2 r0 (h : CFHeap) r h',
  (K, same) ∈ field_of_key →
  attrKey k h = Returns K h →
  Forall (λ kv, ¬ reads_as h K kv) l2 →
  convertResult_range (l1 ++ (k, v) :: l2) r0 h = Returns (Some r, None) h' →
  ∃ r1 r2, entry_effect v h K r1 r2 None ∧ same r2 r.
Proof.
  induction l1 as [|[k1 v1] l1 IH]; intros k v l2 r0 h r h' Hin Hkey Hl2;
    cbn [app convertResult_range].
  - intros ([r2 [e|]] & h1 & Hentry & Hrest)%bind_inv; [done|].
    apply convertResult_entry_inv in Hentry as (-> & key & Hkey' & Heff).
    assert (key = K) as -> by congruence.
    exists r0, r2. split; [done|]. by eapply convertResult_range_field.
  - intros ([r1 [e|]] & h1 & Hentry & Hrest)%bind_inv; [done|].
    apply convertResult_entry_inv in Hentry as (-> & _).
    by eapply IH.
Qed.

(** The Go map of a dictionary has the pair that is the only one of its
    key. *)
Lemma CFDictionaryToMap_lookup d (h : CFHeap) entries rc k v :
  h !! d = Some (Cell (CFDictionary entries) rc) →
  (k, v) ∈ entries → (∀ v', (k, v') ∈ entries → v' = v) →
  ∃ m, CFDictionaryToMap d h = Returns m h ∧ m !! k = Some v ∧
       ∀ kv, kv ∈ range_refs m → kv ∈ entries.
Proof.
  intros Hd Hin Huniq.
  destruct (CFDictionaryToMap_elem d h entries rc Hd) as (m & Hm & Hsub).
  exists m. split; [done|]. split; [|done].
  assert (CFDictionaryToMap d h
          = Returns (foldl (λ (m : gmap Z Z) kv, <[kv.1 := kv.2]> m) ∅ entries) h) as Hm'.
  { unfold CFDictionaryToMap, CF.as_dictionary.
    by rewrite !bind_unfold, (deref_live _ _ _ _ Hd). }
  rewrite Hm' in Hm. injection Hm as <-.
  rewrite foldl_insert_list_to_map. apply elem_of_list_to_map_1'.
  - intros y Hy. rewrite elem_of_reverse in Hy. symmetry. by apply Huniq.
  - by apply elem_of_reverse.
Qed.

(** [convertResult] at an entry that is the only one to read as its key:
    the field of the key is what the switch wrote at that entry. *)
Lemma convertResult_at d (h : CFHeap) entries rc k v K same r h' :
  h !! d = Some (Cell (CFDictionary entries) rc) →
  (k, v) ∈ entries →
  attrKey k h = Returns K h →
  (∀ kv, kv ∈ entries → reads_as h K kv → kv = (k, v)) →
  (K, same) ∈ field_of_key →
  convertResult d h = Returns (Some r, None) h' →
  ∃ r1 r2, entry_effect v h K r1 r2 None ∧ same r2 r.
Proof.
  intros Hd Hin Hkey Huniq Hf Hrun.
  destruct (CFDictionaryToMap_lookup d h entries rc k v Hd Hin) as (m & Hm & Hkv & Hsub).
  { intros v' Hv'. assert ((k, v') = (k, v)) as [= ->]; [|done].
    apply Huniq; [done|]. by exists h. }
  unfold convertResult in Hrun. rewrite bind_unfold, Hm in Hrun. cbn beta iota in Hrun.
  assert ((k, v) ∈ range_refs m) as Hel.
  { rewrite range_refs_perm. by apply elem_of_map_to_list. }
  destruct (list_elem_of_split _ _ Hel) as (l1 & l2 & Hsplit).
  assert (NoDup (l1 ++ (k, v) :: l2).*1) as Hnd.
  { rewrite <- Hsplit, range_refs_perm. apply NoDup_fst_map_to_list. }
  rewrite Hsplit in Hrun. eapply convertResult_range_at; [done|done| |exact Hrun].
  apply Forall_forall. intros [k' v'] Hkv' Hreads.
  assert ((k', v') = (k, v)) as [= -> ->].
  { apply Huniq; [|done]. apply Hsub. rewrite Hsplit. apply elem_of_app. right. by right. }
  rewrite fmap_app, fmap_cons in Hnd. cbn [fst] in Hnd.
  apply NoDup_app in Hnd as (_ & _ & Hnd). apply NoDup_cons in Hnd as [Hnotin _].
  apply Hnotin. apply list_elem_of_fmap. by exists (k, v).
Qed.

Lemma text_fields_same K field :
  (K, field) ∈ text_fields → (K, λ a b, field a = field b) ∈ field_of_key.
Proof.
  unfold text_fields, field_of_key. intros Hin.
  repeat (apply elem_of_cons in Hin as [[= -> ->]|Hin];
          [rewrite !elem_of_cons; tauto|]).
  by apply elem_of_nil in Hin.
Qed.

(** Each known key fills its own field with the decoded value.  Let a
    response dictionary have an entry that is the only one whose key reads
    as the text [K], and let [convertResult] return a result.  If [K] is
    the key of a text field, the field holds the text that
    [CFStringToString] reads from the value of the entry; if [K] is the
    data key, [Data] holds the bytes that [CFDataToBytes] reads; and if
    [K] is the port key, [Port] holds the int32 that [CFNumberToInterface]
    decodes. *)
Theorem convertResult_fills_the_field (d : CFTypeRef) (h : CFHeap)
    (entries : list (CFTypeRef * CFTypeRef)) (rc : nat) (k v : CFTypeRef) (K : string)
    (r : QueryResult) (h' : CFHeap) :
  h !! d = Some (Cell (CFDictionary entries) rc) →
  (k, v) ∈ entries →
  attrKey k h = Returns K h →
  (∀ kv, kv ∈ entries → reads_as h K kv → kv = (k, v)) →
  convertResult d h = Returns (Some r, None) h' →
  (∀ field s, (K, field) ∈ text_fields →
              CFStringToString v h = Returns s h → field r = s) ∧
  (∀ b, K = DataKey → CFDataToBytes v h = Returns (b, None) h → Data r = b) ∧
  (∀ n, K = PortKey → CFNumberToInterface v h = Returns (Int32 n) h → Port r = n).
Proof.
  intros Hd Hin Hkey Huniq Hrun. split; [|split].
  - intros field s Hf Hs.
    destruct (convertResult_at d h entries rc k v K _ r h' Hd Hin Hkey Huniq
                (text_fields_same _ _ Hf) Hrun) as (r1 & r2 & Heff & <-).
    unfold text_fields in Hf.
    repeat (apply elem_of_cons in Hf as [[= -> ->]|Hf];
            [inversion Heff; subst; try discriminate; simpl; congruence|]).
    by apply elem_of_nil in Hf.
  - intros b -> Hb.
    destruct (convertResult_at d h entries rc k v DataKey (λ a b, Data a = Data b) r h'
                Hd Hin Hkey Huniq) as (r1 & r2 & Heff & <-); [|done|].
    { unfold field_of_key. rewrite !elem_of_cons. tauto. }
    inversion Heff; subst; try discriminate; simpl; congruence.
  - intros n -> Hn.
    destruct (convertResult_at d h entries rc k v PortKey (λ a b, Port a = Port b) r h'
                Hd Hin Hkey Huniq) as (r1 & r2 & Heff & <-); [|done|].
    { unfold field_of_key. rewrite !elem_of_cons. tauto. }
    inversion Heff; subst; try discriminate; simpl; congruence.
Qed.

End fields.

(** ** [Convert] *)

Lemma nested_bind_unfold {A B} (m : Nested A) (f : A → Nested B) h :
  (m ≫= f) h = match m h with
               | Some (Returns a h') => f a h'
               | Some (Panics msg) => Some (Panics msg)
               | Some Crashes => Some Crashes
               | None => None
               end.
Proof. reflexivity. Qed.

Lemma nested_ret_unfold {A} (a : A) h : (mret a : Nested A) h = Some (Returns a h).
Proof. reflexivity. Qed.

Lemma run_unfold {A} (m : M A) h : run m h = Some (m h).
Proof. reflexivity. Qed.

Lemma nested_bind_run {A B} (m : M A) (f : A → Nested B) h a h' :
  m h = Returns a h' → (run m ≫= f) h = f a h'.
Proof. intros Hm. by rewrite nested_bind_unfold, run_unfold, Hm. Qed.

Lemma nested_bind_inv {A B} (m : Nested A) (f : A → Nested B) h b h2 :
  (m ≫= f) h = Some (Returns b h2) →
  ∃ a h1, m h = Some (Returns a h1) ∧ f a h1 = Some (Returns b h2).
Proof.
  rewrite nested_bind_unfold. destruct (m h) as [[a h1| |]|]; [eauto|done..].
Qed.

(** An outcome of a conversion at some depth is its outcome at every
    greater depth. *)
Definition stable {A} (m m' : Nested A) : Prop :=
  ∀ h out, m h = Some out → m' h = Some out.

Lemma stable_bind {A B} (m m' : Nested A) (f f' : A → Nested B) :
  stable m m' → (∀ a, stable (f a) (f' a)) → stable (m ≫= f) (m' ≫= f').
Proof.
  intros Hm Hf h out. rewrite !nested_bind_unfold.
  destruct (m h) as [o|] eqn:E; [|done]. rewrite (Hm _ _ E).
  destruct o; [apply Hf|done..].
Qed.

Lemma stable_refl {A} (m : Nested A) : stable m m.
Proof. by intros h out. Qed.

Section convert_facts.
Context `{Platform}.

Lemma Convert_array_stable conv conv' arr : ∀ results,
  (∀ r, stable (conv r) (conv' r)) →
  stable (Convert_array conv arr results) (Convert_array conv' arr results).
Proof.
  induction arr as [|r arr IH]; intros results Hc; cbn [Convert_array]; [apply stable_refl|].
  apply stable_bind; [apply Hc|]. intros [v [e|]]; [apply stable_refl|by apply IH].
Qed.

Lemma ConvertCFDictionary_range_stable conv conv' entries : ∀ result,
  (∀ r, stable (conv r) (conv' r)) →
  stable (ConvertCFDictionary_range conv entries result)
         (ConvertCFDictionary_range conv' entries result).
Proof.
  induction entries as [|[k v] entries IH]; intros result Hc;
    cbn [ConvertCFDictionary_range]; [apply stable_refl|].
  apply stable_bind; [apply Hc|]. intros [gk [e|]]; [apply stable_refl|].
  apply stable_bind; [apply Hc|]. intros [gv [e|]]; [apply stable_refl|].
  apply stable_bind; [apply stable_refl|]. intros result'. by apply IH.
Qed.

Lemma Convert_switch_stable conv conv' ref :
  (∀ r, stable (conv r) (conv' r)) →
  stable (Convert_switch conv ref) (Convert_switch conv' ref).
Proof.
  intros Hc. unfold Convert_switch. apply stable_bind; [apply stable_refl|].
  intros t. destruct t; try apply stable_refl.
  - apply stable_bind; [|intros [m err]; apply stable_refl].
    unfold ConvertCFDictionary_with. apply stable_bind; [apply stable_refl|].
    intros m. by apply ConvertCFDictionary_range_stable.
  - apply stable_bind; [apply stable_refl|]. intros arr. by apply Convert_array_stable.
Qed.

Lemma Convert_ref_step depth : ∀ ref, stable (Convert_ref depth ref) (Convert_ref (S depth) ref).
Proof.
  induction depth as [|depth IH]; intros ref; [by intros h out|].
  change (stable (Convert_switch (Convert_ref depth) ref)
                 (Convert_switch (Convert_ref (S depth)) ref)).
  by apply Convert_switch_stable.
Qed.

Lemma Convert_ref_stable depth depth' ref :
  (depth ≤ depth')%nat → stable (Convert_ref depth ref) (Convert_ref depth' ref).
Proof.
  induction 1 as [|depth' _ IH]; [apply stable_refl|].
  intros h out Hout. by apply Convert_ref_step, IH.
Qed.

End convert_facts.

(** A conversion that only reads. *)
Definition nested_reads {A} (m : Nested A) : Prop :=
  ∀ h a h', m h = Some (Returns a h') → h' = h.

Lemma nested_reads_ret {A} (a : A) : nested_reads (mret a).
Proof. by intros h a' h' [= _ <-]. Qed.

Lemma nested_reads_run {A} (m : M A) : reads m → nested_reads (run m).
Proof. intros Hm h a h' [= Hrun]. by eapply Hm. Qed.

Lemma nested_reads_bind {A B} (m : Nested A) (f : A → Nested B) :
  nested_reads m → (∀ a, nested_reads (f a)) → nested_reads (m ≫= f).
Proof.
  intros Hm Hf h b h2 (a & h1 & Hma & Hfb)%nested_bind_inv.
  apply Hm in Hma as ->. by apply Hf in Hfb.
Qed.

Lemma reads_map_assign m k v : reads (map_assign m k v).
Proof.
  unfold map_assign. destruct (unhashable k); [apply reads_panic|apply reads_ret].
Qed.

Lemma reads_CFBooleanGetValue r : reads (CFBooleanGetValue r).
Proof.
  unfold CFBooleanGetValue. apply reads_bind; [apply reads_deref|].
  intros o. destruct o; first [apply reads_ret|apply reads_crash].
Qed.

Section convert_reads.
Context `{Platform}.

Lemma reads_CFTypeDescription ref : reads (CFTypeDescription ref).
Proof.
  intros h desc h' Hrun.
  assert (is_Some (h !! ref)) as Hlive.
  { revert Hrun. unfold CFTypeDescription, CF.CFGetTypeID, CF.deref. rewrite !bind_unfold.
    destruct (h !! ref); [eauto|done]. }
  destruct (CFTypeDescription_live _ _ Hlive) as [desc' Hdesc].
  rewrite Hdesc in Hrun. by injection Hrun as _ <-.
Qed.

Lemma Convert_array_reads conv arr : ∀ results,
  (∀ r, nested_reads (conv r)) → nested_reads (Convert_array conv arr results).
Proof.
  induction arr as [|r arr IH]; intros results Hc; cbn [Convert_array];
    [apply nested_reads_ret|].
  apply nested_reads_bind; [apply Hc|].
  intros [v [e|]]; [apply nested_reads_ret|by apply IH].
Qed.

Lemma ConvertCFDictionary_range_reads conv entries : ∀ result,
  (∀ r, nested_reads (conv r)) →
  nested_reads (ConvertCFDictionary_range conv entries result).
Proof.
  induction entries as [|[k v] entries IH]; intros result Hc;
    cbn [ConvertCFDictionary_range]; [apply nested_reads_ret|].
  apply nested_reads_bind; [apply Hc|]. intros [gk [e|]]; [apply nested_reads_ret|].
  apply nested_reads_bind; [apply Hc|]. intros [gv [e|]]; [apply nested_reads_ret|].
  apply nested_reads_bind; [apply nested_reads_run, reads_map_assign|].
  intros result'. by apply IH.
Qed.

Lemma Convert_switch_reads conv ref :
  (∀ r, nested_reads (conv r)) → nested_reads (Convert_switch conv ref).
Proof.
  intros Hc. unfold Convert_switch.
  apply nested_reads_bind; [apply nested_reads_run, reads_CFGetTypeID|].
  intros t. destruct t.
  - apply nested_reads_bind; [apply nested_reads_run, reads_CFStringToString|].
    intros s. apply nested_reads_ret.
  - apply nested_reads_bind; [|intros [m err]; apply nested_reads_ret].
    unfold ConvertCFDictionary_with.
    apply nested_reads_bind; [apply nested_reads_run, reads_CFDictionaryToMap|].
    intros m. by apply ConvertCFDictionary_range_reads.
  - apply nested_reads_bind; [apply nested_reads_run, reads_as_array|].
    intros arr. by apply Convert_array_reads.
  - apply nested_reads_bind; [apply nested_reads_run, reads_CFDataToBytes|].
    intros [b [e|]]; apply nested_reads_ret.
  - apply nested_reads_bind; [apply nested_reads_run, reads_CFNumberToInterface|].
    intros v. apply nested_reads_ret.
  - apply nested_reads_bind; [apply nested_reads_run, reads_CFBooleanGetValue|].
    intros b. apply nested_reads_ret.
  - apply nested_reads_bind; [apply nested_reads_run, reads_CFTypeDescription|].
    intros desc. apply nested_reads_ret.
  - apply nested_reads_bind; [apply nested_reads_run, reads_CFTypeDescription|].
    intros desc. apply nested_reads_ret.
Qed.

Lemma Convert_ref_reads depth : ∀ ref, nested_reads (Convert_ref depth ref).
Proof.
  induction depth as [|depth IH]; intros ref; [by intros h a h'|].
  change (nested_reads (Convert_switch (Convert_ref depth) ref)).
  by apply Convert_switch_reads.
Qed.

(** The loop over an array whose elements all convert. *)
Lemma Convert_array_all conv arr : ∀ ds results (h : CFHeap),
  Forall2 (λ e d, conv e h = Some (Returns (d, None) h)) arr ds →
  Convert_array conv arr results h = Some (Returns (DSlice (results ++ ds), None) h).
Proof.
  induction arr as [|e arr IH]; intros ds results h Hall.
  - apply Forall2_nil_inv_l in Hall as ->. by rewrite app_nil_r.
  - apply Forall2_cons_inv_l in Hall as (d & ds' & He & Hall & ->).
    cbn [Convert_array]. rewrite nested_bind_unfold, He. cbn beta iota.
    rewrite (IH ds' (results ++ [d]) h Hall). by rewrite <- app_assoc.
Qed.

(** The loop over an array at the first element that does not convert. *)
Lemma Convert_array_error conv pre : ∀ ds e post results (h : CFHeap) v err,
  Forall2 (λ e d, conv e h = Some (Returns (d, None) h)) pre ds →
  conv e h = Some (Returns (v, Some err) h) →
  Convert_array conv (pre ++ e :: post) results h
  = Some (Returns (DNil, Some (wrapError "failed to convert CFArray element: " err)) h).
Proof.
  induction pre as [|p pre IH]; intros ds e post results h v err Hall He.
  - cbn [app Convert_array]. by rewrite nested_bind_unfold, He.
  - apply Forall2_cons_inv_l in Hall as (d & ds' & Hp & Hall & ->).
    cbn [app Convert_array]. rewrite nested_bind_unfold, Hp. cbn beta iota.
    by eapply IH.
Qed.

End convert_reads.

Section convert_theorems.
Context `{Platform}.

Lemma Convert_switch_at conv (ref : Z) (h : CFHeap) o rc :
  h !! ref = Some (Cell o rc) →
  Convert_switch conv ref h
  = match CF.type_of o with
    | CFStringTypeID =>
      (s ← run (CFStringToString ref); mret (DValue (Str s), None)) h
    | CFDictionaryTypeID =>
      ('(m, err) ← ConvertCFDictionary_with conv ref; mret (DMap m, err)) h
    | CFArrayTypeID =>
      (arr ← run (CFArrayToArray ref); Convert_array conv arr []) h
    | CFDataTypeID =>
      ('(b, err) ← run (CFDataToBytes ref);
       match err with
       | Some e => mret (DNil, Some (wrapError "failed to convert CFData: " e))
       | None => mret (DValue (Bytes b), None)
       end) h
    | CFNumberTypeID =>
      (v ← run (CFNumberToInterface ref); mret (DValue v, None)) h
    | CFBooleanTypeID =>
      (b ← run (CFBooleanGetValue ref); mret (DValue (Bool b), None)) h
    | _ =>
      (desc ← run (CFTypeDescription ref);
       mret (DNil, Some (errorString ("invalid type: " +:+ desc)))) h
    end.
Proof.
  intros Href. unfold Convert_switch.
  rewrite (nested_bind_run _ _ _ _ _ (CFGetTypeID_live _ _ _ _ Href)).
  by destruct (CF.type_of o).
Qed.

(** [Convert] of an object that holds no other object, at any depth but
    0.  A string gives its text (cut at a NUL byte where the framework
    hands out the storage), data of fewer than 2^31 bytes the bytes, a
    boolean its value, a number what [CFNumberToInterface] gives (a panic
    included).  A date, like every object of another type, is not
    converted: the value is nil and the error "invalid type: ..." has the
    description of the type.  The heap is never changed. *)
Theorem Convert_of_a_leaf (depth : nat) (ref : CFTypeRef) (h : CFHeap) (o : CFObject)
    (rc : nat) :
  h !! ref = Some (Cell o rc) →
  match o with
  | CFString cs =>
    Convert_ref (S depth) ref h
    = Some (Returns (DValue (Str (if CFStringGetCStringPtr_hit cs
                                  then GoString (utf8.encode cs)
                                  else utf8.encode cs)), None) h)
  | CFData bytes =>
    Z.of_nat (length bytes) < 2 ^ 31 →
    Convert_ref (S depth) ref h = Some (Returns (DValue (Bytes (Some bytes)), None) h)
  | CFBoolean b =>
    Convert_ref (S depth) ref h = Some (Returns (DValue (Bool b), None) h)
  | CFNumber typ v =>
    Convert_ref (S depth) ref h
    = Some match CFNumberToInterface ref h with
           | Returns val h' => Returns (DValue val, None) h'
           | Panics msg => Panics msg
           | Crashes => Crashes
           end
  | CFDate _ | CFOpaque _ =>
    ∃ desc, CFTypeDescription ref h = Returns desc h ∧
            Convert_ref (S depth) ref h
            = Some (Returns (DNil, Some (errorString ("invalid type: " +:+ desc))) h)
  | CFDictionary _ | CFArray _ => True
  end.
Proof.
  intros Href. cbn [Convert_ref].
  destruct o as [cs|bytes|typ v|b|t|es|vs|id]; try done;
    rewrite (Convert_switch_at _ _ _ _ _ Href); cbn [CF.type_of].
  - by rewrite (nested_bind_run _ _ _ _ _ (CFStringToString_text _ _ _ _ Href)).
  - intros Hlen. by rewrite (nested_bind_run _ _ _ _ _ (CFDataToBytes_small _ _ _ _ Href Hlen)).
  - rewrite nested_bind_unfold, run_unfold. by destruct (CFNumberToInterface ref h).
  - assert (CFBooleanGetValue ref h = Returns b h) as Hb.
    { unfold CFBooleanGetValue. by rewrite bind_unfold, (deref_live _ _ _ _ Href). }
    by rewrite (nested_bind_run _ _ _ _ _ Hb).
  - destruct (CFTypeDescription_live ref h) as [desc Hdesc]; [by eexists|].
    exists desc. split; [done|]. by rewrite (nested_bind_run _ _ _ _ _ Hdesc).
  - destruct (CFTypeDescription_live ref h) as [desc Hdesc]; [by eexists|].
    exists desc. split; [done|]. by rewrite (nested_bind_run _ _ _ _ _ Hdesc).
Qed.

(** [Convert] of an array.  When the elements all convert, the result is
    the slice of their values, in the order of the array (an empty slice
    that is not nil for the empty array); at the first element that does
    not convert, [Convert] returns nil and the error of the element
    wrapped in "failed to convert CFArray element: ". *)
Theorem Convert_of_an_array (depth : nat) (ref : CFTypeRef) (h : CFHeap)
    (arr : list CFTypeRef) (rc : nat) :
  h !! ref = Some (Cell (CFArray arr) rc) →
  (∀ ds, Forall2 (λ e d, Convert_ref depth e h = Some (Returns (d, None) h)) arr ds →
         Convert_ref (S depth) ref h = Some (Returns (DSlice ds, None) h)) ∧
  (∀ pre e post ds v err,
     arr = pre ++ e :: post →
     Forall2 (λ e d, Convert_ref depth e h = Some (Returns (d, None) h)) pre ds →
     Convert_ref depth e h = Some (Returns (v, Some err) h) →
     Convert_ref (S depth) ref h
     = Some (Returns (DNil, Some (wrapError "failed to convert CFArray element: " err)) h)).
Proof.
  intros Href.
  assert (CFArrayToArray ref h = Returns arr h) as Harr.
  { unfold CFArrayToArray, CF.as_array. by rewrite bind_unfold, (deref_live _ _ _ _ Href). }
  split.
  - intros ds Hall. cbn [Convert_ref].
    rewrite (Convert_switch_at _ _ _ _ _ Href). cbn [CF.type_of].
    rewrite (nested_bind_run _ _ _ _ _ Harr). by rewrite (Convert_array_all _ _ ds [] h Hall).
  - intros pre e post ds v err -> Hall He. cbn [Convert_ref].
    rewrite (Convert_switch_at _ _ _ _ _ Href). cbn [CF.type_of].
    rewrite (nested_bind_run _ _ _ _ _ Harr). by eapply Convert_array_error.
Qed.

(** [Convert] changes nothing: whatever it returns, the heap is the one
    it was given (the description that an error needs is released); and
    what a run gives with some room for nesting, it gives with more. *)
Theorem Convert_only_reads (depth depth' : nat) (ref : CFTypeRef) (h : CFHeap)
    (out : Outcome (Dynamic * option error)) :
  Convert_ref depth ref h = Some out →
  (∀ v err h', out = Returns (v, err) h' → h' = h) ∧
  ((depth ≤ depth')%nat → Convert_ref depth' ref h = Some out).
Proof.
  intros Hrun. split.
  - intros v err h' ->. by eapply Convert_ref_reads.
  - intros Hle. by eapply Convert_ref_stable.
Qed.

(** The loop at the first entry whose key cannot be hashed. *)
Lemma ConvertCFDictionary_range_unhashable conv pre : ∀ gs k v post result (h : CFHeap)
    gk gv t,
  Forall2 (λ kv g, conv kv.1 h = Some (Returns (g.1, None) h) ∧
                   conv kv.2 h = Some (Returns (g.2, None) h) ∧
                   unhashable g.1 = None) pre gs →
  conv k h = Some (Returns (gk, None) h) →
  conv v h = Some (Returns (gv, None) h) →
  unhashable gk = Some t →
  ConvertCFDictionary_range conv (pre ++ (k, v) :: post) result h
  = Some (Panics ("hash of unhashable type " +:+ t)).
Proof.
  induction pre as [|[k0 v0] pre IH]; intros gs k v post result h gk gv t Hall Hk Hv Hhash.
  - cbn [app ConvertCFDictionary_range].
    rewrite nested_bind_unfold, Hk. cbn beta iota.
    rewrite nested_bind_unfold, Hv. cbn beta iota.
    rewrite nested_bind_unfold, run_unfold. unfold map_assign. by rewrite Hhash.
  - apply Forall2_cons_inv_l in Hall as ([gk0 gv0] & gs' & (Hk0 & Hv0 & Hhash0) & Hall & ->).
    cbn [app ConvertCFDictionary_range fst snd] in *.
    rewrite nested_bind_unfold, Hk0. cbn beta iota.
    rewrite nested_bind_unfold, Hv0. cbn beta iota.
    rewrite nested_bind_unfold, run_unfold. unfold map_assign. rewrite Hhash0.
    rewrite ret_unfold. cbn beta iota. by eapply IH.
Qed.

End convert_theorems.

Lemma Forall2_perm_r {A B} (P : A → B → Prop) k k' :
  k ≡ₚ k' → ∀ l, Forall2 P l k → ∃ l', l ≡ₚ l' ∧ Forall2 P l' k'.
Proof.
  induction 1 as [|y k k' _ IH|y1 y2 k|k1 k2 k3 _ IH1 _ IH2]; intros l Hall.
  - exists l. by split.
  - apply Forall2_cons_inv_r in Hall as (x & l0 & Hx & Hall & ->).
    destruct (IH _ Hall) as (l' & Hp & Hall'). exists (x :: l').
    split; [by constructor|by constructor].
  - apply Forall2_cons_inv_r in Hall as (x1 & l0 & Hx1 & Hall & ->).
    apply Forall2_cons_inv_r in Hall as (x2 & l1 & Hx2 & Hall & ->).
    exists (x2 :: x1 :: l1). split; [apply perm_swap|by repeat constructor].
  - destruct (IH1 _ Hall) as (l1 & Hp1 & Hall1).
    destruct (IH2 _ Hall1) as (l2 & Hp2 & Hall2).
    exists l2. split; [by etrans|done].
Qed.

Lemma GoString_id s : has_nul s = false → GoString s = s.
Proof.
  induction s as [|c s IH]; [done|].
  cbn [has_nul]. intros [Hc Hs]%orb_false_elim.
  cbn [GoString]. rewrite Hc. f_equal. by apply IH.
Qed.

Lemma to_signed_range w v : 0 < w → - 2 ^ (w - 1) ≤ to_signed w v < 2 ^ (w - 1).
Proof.
  intros Hw. unfold to_signed.
  assert (2 ^ w = 2 * 2 ^ (w - 1)) as Hp.
  { rewrite <- Z.pow_succ_r by lia. f_equal. lia. }
  assert (0 < 2 ^ (w - 1)) by (apply Z.pow_pos_nonneg; lia).
  pose proof (Z.mod_pos_bound (v + 2 ^ (w - 1)) (2 ^ w)). lia.
Qed.

(** ** The entries of a Go map with string keys *)

Lemma key_eqb_Str k s : key_eqb k (DValue (Str s)) = true → k = DValue (Str s).
Proof.
  destruct k as [|v| |]; try done. destruct v; try done.
  simpl. by intros ->%String.eqb_eq.
Qed.

Lemma index_assign_Str m s v s' :
  index (assign m (DValue (Str s)) v) (DValue (Str s'))
  = if String.eqb s s' then Some v else index m (DValue (Str s')).
Proof.
  induction m as [|[k' v'] m IH].
  - simpl. by destruct (String.eqb s s').
  - cbn [assign]. destruct (key_eqb k' (DValue (Str s))) eqn:Ek.
    + apply key_eqb_Str in Ek as ->. cbn [index key_eqb].
      by destruct (String.eqb s s').
    + cbn [index]. rewrite IH. destruct (key_eqb k' (DValue (Str s'))) eqn:Ek'; [|done].
      apply key_eqb_Str in Ek' as ->. simpl in Ek. by rewrite String.eqb_sym, Ek.
Qed.

Lemma length_assign_new m k v : index m k = None → length (assign m k v) = S (length m).
Proof.
  induction m as [|[k' v'] m IH]; [done|].
  cbn [index assign]. destruct (key_eqb k' k); [done|]. intros Hm. simpl. by rewrite IH.
Qed.

Section entries.
Variable f : GoValue → Dynamic.

Definition filled (m : list (Dynamic * Dynamic)) (kvs : list (string * GoValue)) :=
  foldl (λ m kv, assign m (DValue (Str kv.1)) (f kv.2)) m kvs.

Lemma index_filled kvs : ∀ m s,
  NoDup kvs.*1 →
  index (filled m kvs) (DValue (Str s))
  = match (list_to_map kvs : gmap string GoValue) !! s with
    | Some i => Some (f i)
    | None => index m (DValue (Str s))
    end.
Proof.
  induction kvs as [|[k i] kvs IH]; intros m s Hnd; [done|].
  apply NoDup_cons in Hnd as [Hk Hnd]. cbn [filled foldl fst snd list_to_map foldr].
  fold (filled (assign m (DValue (Str k)) (f i)) kvs). rewrite IH by done.
  rewrite index_assign_Str. simpl.
  destruct (decide (k = s)) as [->|Hne].
  - rewrite lookup_insert_eq, String.eqb_refl.
    by rewrite (not_elem_of_list_to_map_1 (M := gmap string) kvs s Hk).
  - rewrite lookup_insert_ne by done.
    destruct (list_to_map kvs !! s); [done|].
    by apply String.eqb_neq in Hne as ->.
Qed.

Lemma length_filled kvs : ∀ m,
  NoDup kvs.*1 → (∀ kv, kv ∈ kvs → index m (DValue (Str kv.1)) = None) →
  length (filled m kvs) = (length m + length kvs)%nat.
Proof.
  induction kvs as [|[k i] kvs IH]; intros m Hnd Hnew; [simpl; lia|].
  apply NoDup_cons in Hnd as [Hk Hnd]. cbn [filled foldl fst snd].
  fold (filled (assign m (DValue (Str k)) (f i)) kvs). rewrite IH; [| done |].
  - rewrite length_assign_new; [simpl; lia|]. apply (Hnew (k, i)), list_elem_of_here.
  - intros [k' i'] Hin. cbn [fst]. rewrite index_assign_Str.
    destruct (String.eqb k k') eqn:E.
    + apply String.eqb_eq in E as ->. exfalso. apply Hk.
      apply list_elem_of_fmap. by exists (k', i').
    + apply (Hnew (k', i')), list_elem_of_further, Hin.
Qed.

End entries.

Section converts_back.
Context `{Platform}.

(** [Convert] of a string, of data and of a boolean. *)
Lemma Convert_leaf_value depth (ref : Z) (h : CFHeap) o rc d :
  h !! ref = Some (Cell o rc) → leaf_value o = Some d →
  Convert_ref (S depth) ref h = Some (Returns (d, None) h).
Proof.
  intros Href Hd. cbn [Convert_ref]. rewrite (Convert_switch_at _ _ _ _ _ Href).
  destruct o as [cs|bytes|typ v|b|t|es|vs|id]; try done; cbn [CF.type_of leaf_value] in *.
  - injection Hd as <-.
    by rewrite (nested_bind_run _ _ _ _ _ (CFStringToString_text _ _ _ _ Href)).
  - destruct (Z.of_nat (length bytes) <? 2 ^ 31) eqn:E; [|done]. injection Hd as <-.
    apply Z.ltb_lt in E.
    by rewrite (nested_bind_run _ _ _ _ _ (CFDataToBytes_small _ _ _ _ Href E)).
  - injection Hd as <-.
    assert (CFBooleanGetValue ref h = Returns b h) as Hb.
    { unfold CFBooleanGetValue. by rewrite bind_unfold, (deref_live _ _ _ _ Href). }
    by rewrite (nested_bind_run _ _ _ _ _ Hb).
Qed.

Lemma Convert_object_value depth (ref : Z) (h0 h1 : CFHeap) d :
  survives h0 h1 → object_value h0 ref = Some d →
  Convert_ref (S depth) ref h1 = Some (Returns (d, None) h1).
Proof.
  intros Hs. unfold object_value. destruct (h0 !! ref) as [[o rc]|] eqn:E; [|done].
  intros Hd. destruct (Hs _ _ _ E) as [rc' Hr]. by eapply Convert_leaf_value.
Qed.

(** [Convert] of the key of a built entry. *)
Lemma Convert_text_key depth (h : CFHeap) key kr :
  text_object h key kr → has_nul key = false →
  Convert_ref (S depth) kr h = Some (Returns (DValue (Str key), None) h).
Proof.
  intros (cs & rc & Hdec & Hr) Hnul.
  rewrite (Convert_leaf_value depth _ _ _ _ (DValue (Str key)) Hr); [done|].
  cbn [leaf_value]. unfold read_text. rewrite (decode_encode key cs Hdec).
  rewrite GoString_id by done. by destruct (CFStringGetCStringPtr_hit cs).
Qed.

(** [Convert] of the value of a built entry. *)
Lemma Convert_stands_for depth (h0 h1 : CFHeap) i vr d :
  survives h0 h1 → stands_for h1 i vr → read_back h0 i = Some d →
  Convert_ref (S depth) vr h1 = Some (Returns (d, None) h1).
Proof.
  intros Hs Hst Hd. destruct i; try done; cbn [stands_for read_back] in *.
  - subst vr. by eapply Convert_object_value.
  - subst vr. by eapply Convert_object_value.
  - destruct Hst as [rc Hr]. injection Hd as <-.
    cbn [Convert_ref]. rewrite (Convert_switch_at _ _ _ _ _ Hr). cbn [CF.type_of].
    assert (CFNumberToInterface vr h1 = Returns (Int32 (to_signed 32 n)) h1) as Hn.
    { unfold CFNumberToInterface, CF.as_number.
      rewrite !bind_unfold, (deref_live _ _ _ _ Hr). cbn beta iota.
      rewrite ret_unfold. cbn beta iota.
      change (kCFNumberSInt32Type =? kCFNumberSInt8Type) with false.
      change (kCFNumberSInt32Type =? kCFNumberSInt16Type) with false.
      change (kCFNumberSInt32Type =? kCFNumberSInt32Type) with true.
      cbn beta iota. rewrite ret_unfold.
      by rewrite (to_signed_id 32 (to_signed 32 n)) by (try apply to_signed_range; lia). }
    by rewrite (nested_bind_run _ _ _ _ _ Hn).
  - destruct Hst as [rc Hr].
    destruct (Z.of_nat (len b) <? 2 ^ 31) eqn:E; [|done]. injection Hd as <-.
    eapply Convert_leaf_value; [done|]. cbn [leaf_value].
    assert (length (elems b) = len b) as -> by (by destruct b). by rewrite E.
  - destruct Hst as (cs & rc & Hdec & Hr). rewrite Hdec in Hd. injection Hd as <-.
    by eapply Convert_leaf_value.
Qed.

(** The loop of [ConvertCFDictionary] over the entries of a built
    dictionary. *)
Lemma ConvertCFDictionary_range_built depth (h0 h1 : CFHeap) kvs : ∀ entries result,
  survives h0 h1 →
  Forall2 (λ kv p, text_object h1 kv.1 p.1 ∧ stands_for h1 kv.2 p.2) kvs entries →
  (∀ kv, kv ∈ kvs → has_nul kv.1 = false ∧ is_Some (read_back h0 kv.2)) →
  ConvertCFDictionary_range (Convert_ref (S depth)) entries result h1
  = Some (Returns (Some (filled (λ i, default DNil (read_back h0 i)) result kvs), None) h1).
Proof.
  induction kvs as [|[key i] kvs IH]; intros entries result Hs Hall Hok.
  - by apply Forall2_nil_inv_l in Hall as ->.
  - apply Forall2_cons_inv_l in Hall as ([kr vr] & entries' & [Hk Hv] & Hall & ->).
    destruct (Hok (key, i)) as [Hnul [d Hd]]; [apply list_elem_of_here|].
    cbn [fst snd] in *. cbn [ConvertCFDictionary_range].
    rewrite nested_bind_unfold, (Convert_text_key depth h1 key kr Hk Hnul). cbn beta iota.
    rewrite nested_bind_unfold, (Convert_stands_for depth h0 h1 i vr d Hs Hv Hd).
    cbn beta iota. rewrite nested_bind_unfold, run_unfold. unfold map_assign.
    cbn [unhashable]. rewrite ret_unfold. cbn beta iota.
    rewrite (IH entries' _ Hs Hall).
    + cbn [filled foldl fst snd]. by rewrite Hd.
    + intros kv Hkv. by apply Hok, list_elem_of_further.
Qed.

(** The entries of the dictionary that a build returns, in the order of
    the dictionary. *)
Lemma built_entries attr h0 cfDict h1 :
  ConvertMapToCFDictionary attr h0 = Returns (cfDict, None) h1 →
  survives h0 h1 ∧
  ∃ es kvs, h1 !! cfDict = Some (Cell (CFDictionary es) 1) ∧ NoDup es.*1 ∧
            kvs ≡ₚ map_to_list attr ∧
            Forall2 (λ kv p, text_object h1 kv.1 p.1 ∧ stands_for h1 kv.2 p.2) kvs es.
Proof.
  intros Hrun.
  destruct (ConvertMapToCFDictionary_run _ _ _ _ Hrun)
    as (m & ds & h' & ha & h2 & kvs & Ho & Hinv & Hkvs & Hk & Hv & Hd & Hdef).
  pose proof (built_survives _ _ _ _ _ _ _ _ _ _ Ho Hinv Hkvs Hk Hv Hd Hdef) as Hsurv.
  subst cfDict. set (cfDict := CF.next_ref h2) in *.
  destruct Ho as (Hnd & Hin & Hout).
  destruct Hinv as (pairs & Hperm & Hall & Hkeys & Hds).
  assert (cfDict ∉ ds) as Hnotin.
  { intros Hd'. destruct (Hin _ Hd') as (_ & o & Ho).
    assert (is_Some (h2 !! cfDict)) as [c Hc].
    { rewrite (retain_all_inv _ _ _ _ Hv), (retain_all_inv _ _ _ _ Hk). by rewrite Ho. }
    unfold cfDict in Hc. by rewrite next_ref_fresh in Hc. }
  split.
  - intros r o rc Hr. apply (Hsurv r o rc). rewrite Hout; [done|].
    intros Hd'. destruct (Hin _ Hd') as (Hnone & _). congruence.
  - assert (pairs ≡ₚ kvs) as Hpk by (by rewrite Hkvs, Hperm).
    destruct (Forall2_perm_r _ _ _ Hpk _ Hall) as (kvs' & Hp' & Hall').
    exists kvs, kvs'. split; [|split; [|split]].
    + rewrite (run_deferred_frame _ _ _ _ Hdef Hnotin). apply lookup_insert_eq.
    + rewrite Hkvs. apply NoDup_fst_map_to_list.
    + by rewrite <- Hp', reverse_Permutation, range_attr_perm.
    + eapply Forall2_impl; [exact Hall'|]. intros kv p [Ht Hst].
      split; [by eapply text_object_mono|by eapply stands_for_mono].
Qed.

(** [CFDictionaryToMap] of a dictionary whose keys are distinct. *)
Lemma CFDictionaryToMap_distinct d (h : CFHeap) es rc :
  h !! d = Some (Cell (CFDictionary es) rc) → NoDup es.*1 →
  ∃ m, CFDictionaryToMap d h = Returns m h ∧ map_to_list m ≡ₚ es.
Proof.
  intros Hd Hnd. exists (list_to_map (reverse es)). split.
  - unfold CFDictionaryToMap, CF.as_dictionary.
    rewrite !bind_unfold, (deref_live _ _ _ _ Hd). cbn beta iota.
    rewrite !ret_unfold. cbn beta iota. by rewrite foldl_insert_list_to_map.
  - rewrite map_to_list_to_map; [apply reverse_Permutation|].
    by rewrite fmap_reverse, reverse_Permutation.
Qed.

(** The round trip of an attribute map: [ConvertMapToCFDictionary], then
    [ConvertCFDictionary] (or [Convert]) on the dictionary.  When no key
    holds a NUL byte and every value reads back (a text, fewer than 2^31
    bytes of data, an [int32], or a reference or a boolean whose object
    is a string, such data or a boolean), the conversion returns a map
    with one entry for each attribute: under the name of the attribute as
    a string, what the value reads back as.  The heap is left as it
    is. *)
Theorem built_dictionary_converts_back (attr : gmap string GoValue) (h0 : CFHeap)
    (cfDict : CFTypeRef) (h1 : CFHeap) :
  ConvertMapToCFDictionary attr h0 = Returns (cfDict, None) h1 →
  (∀ key i, attr !! key = Some i → has_nul key = false ∧ is_Some (read_back h0 i)) →
  ∃ result,
    (∀ depth, ConvertCFDictionary (S depth) cfDict h1
              = Some (Returns (Some result, None) h1) ∧
              Convert_ref (S (S depth)) cfDict h1
              = Some (Returns (DMap (Some result), None) h1)) ∧
    length result = size attr ∧
    ∀ key, index result (DValue (Str key)) = attr !! key ≫= read_back h0.
Proof.
  intros Hrun Hok.
  destruct (built_entries _ _ _ _ Hrun) as (Hs & es & kvs & Hd & Hnd & Hperm & Hall).
  destruct (CFDictionaryToMap_distinct _ _ _ _ Hd Hnd) as (m & Hm & Hmes).
  assert (es ≡ₚ range_refs m) as Hpr by (by rewrite range_refs_perm, Hmes).
  destruct (Forall2_perm_r _ _ _ Hpr _ Hall) as (kvs' & Hp' & Hall').
  assert (kvs' ≡ₚ map_to_list attr) as Hperm' by (by rewrite <- Hp').
  assert (NoDup kvs'.*1) as Hnd'.
  { rewrite Hperm'. apply NoDup_fst_map_to_list. }
  assert (∀ kv, kv ∈ kvs' → has_nul kv.1 = false ∧ is_Some (read_back h0 kv.2)) as Hok'.
  { intros [key i] Hkv. rewrite Hperm' in Hkv. apply elem_of_map_to_list in Hkv.
    by apply Hok in Hkv. }
  assert ((list_to_map kvs' : gmap string GoValue) = attr) as Hattr.
  { rewrite <- (list_to_map_to_list attr). by apply list_to_map_proper. }
  set (f := λ i, default DNil (read_back h0 i)).
  assert (∀ depth, ConvertCFDictionary (S depth) cfDict h1
                   = Some (Returns (Some (filled f [] kvs'), None) h1)) as Hconv.
  { intros depth. unfold ConvertCFDictionary, ConvertCFDictionary_with.
    rewrite (nested_bind_run _ _ _ _ _ Hm).
    by apply (ConvertCFDictionary_range_built depth h0 h1 kvs'). }
  exists (filled f [] kvs'). split; [|split].
  - intros depth. split; [apply Hconv|].
    specialize (Hconv depth). unfold ConvertCFDictionary in Hconv.
    change (Convert_ref (S (S depth)) cfDict h1)
      with (Convert_switch (Convert_ref (S depth)) cfDict h1).
    rewrite (Convert_switch_at _ _ _ _ _ Hd). cbn [CF.type_of].
    by rewrite nested_bind_unfold, Hconv.
  - rewrite length_filled by done. simpl. rewrite Hperm'. apply length_map_to_list.
  - intros key. rewrite index_filled by done. rewrite Hattr.
    destruct (attr !! key) as [i|] eqn:E; [|done]. simpl.
    destruct (Hok _ _ E) as [_ [d Hd']]. unfold f. by rewrite Hd'.
Qed.

End converts_back.

Section unhashable_keys.
Context `{Platform}.

Lemma Convert_array_slice conv arr : ∀ results (h : CFHeap) v h',
  Convert_array conv arr results h = Some (Returns (v, None) h') → ∃ ds, v = DSlice ds.
Proof.
  induction arr as [|e arr IH]; intros results h v h'; cbn [Convert_array].
  - intros [= <- _]. eauto.
  - intros ([d [err|]] & h1 & _ & Hrest)%nested_bind_inv; [done|]. by eapply IH.
Qed.

Lemma Convert_not_a_key depth (k : Z) (h : CFHeap) o krc gk h' :
  h !! k = Some (Cell o krc) → not_a_key o = true →
  Convert_ref depth k h = Some (Returns (gk, None) h') →
  ∃ t, unhashable gk = Some t.
Proof.
  intros Hk Ho. destruct depth as [|depth]; [done|].
  cbn [Convert_ref]. rewrite (Convert_switch_at _ _ _ _ _ Hk).
  destruct o as [cs|bytes|typ v|b|t|es|vs|id]; try done; cbn [CF.type_of].
  - intros ([b [err|]] & h1 & _ & Hrest)%nested_bind_inv; [done|].
    injection Hrest as <- _. simpl. eauto.
  - intros ([m err] & h1 & _ & Hrest)%nested_bind_inv.
    injection Hrest as <- _ _. simpl. eauto.
  - intros (arr & h1 & _ & Hrest)%nested_bind_inv.
    apply Convert_array_slice in Hrest as [ds ->]. simpl. eauto.
Qed.

(** A loop of [ConvertCFDictionary] that returns a map has converted
    every key to a value that can be hashed. *)
Lemma ConvertCFDictionary_range_keys depth entries : ∀ result (h : CFHeap) r h' k v,
  ConvertCFDictionary_range (Convert_ref depth) entries result h
  = Some (Returns (Some r, None) h') →
  (k, v) ∈ entries →
  ∃ gk, Convert_ref depth k h = Some (Returns (gk, None) h) ∧ unhashable gk = None.
Proof.
  induction entries as [|[k0 v0] entries IH]; intros result h r h' k v Hrun Hin.
  { by apply elem_of_nil in Hin. }
  cbn [ConvertCFDictionary_range] in Hrun.
  apply nested_bind_inv in Hrun as ([gk [e|]] & h1 & Hk & Hrun); [done|].
  pose proof (Convert_ref_reads _ _ _ _ _ Hk) as ->.
  apply nested_bind_inv in Hrun as ([gv [e|]] & h2 & Hv & Hrun); [done|].
  pose proof (Convert_ref_reads _ _ _ _ _ Hv) as ->.
  apply nested_bind_inv in Hrun as (result' & h3 & Ha & Hrun).
  rewrite run_unfold in Ha. unfold map_assign in Ha.
  destruct (unhashable gk) eqn:Eh; [done|]. injection Ha as <- <-.
  apply elem_of_cons in Hin as [[= -> ->]|Hin]; [by exists gk|].
  by eapply IH.
Qed.

(** A dictionary with a key that is data, an array or a dictionary is
    never converted to a map: neither [ConvertCFDictionary] nor [Convert]
    returns one for it, whatever the other entries are.  When such an
    entry is the only one, and its key and its value convert, the
    assignment [result[gk] = gv] panics with "hash of unhashable type"
    and the name of the type of the key. *)
Theorem ConvertCFDictionary_needs_hashable_keys (depth : nat) (d : CFTypeRef)
    (h : CFHeap) (es : list (CFTypeRef * CFTypeRef)) (rc : nat) (k v : CFTypeRef)
    (o : CFObject) (krc : nat) :
  h !! d = Some (Cell (CFDictionary es) rc) → NoDup es.*1 → (k, v) ∈ es →
  h !! k = Some (Cell o krc) → not_a_key o = true →
  (∀ result h', ConvertCFDictionary depth d h ≠ Some (Returns (Some result, None) h') ∧
                Convert_ref (S depth) d h ≠ Some (Returns (DMap (Some result), None) h')) ∧
  (∀ gk gv, es = [(k, v)] →
            Convert_ref depth k h = Some (Returns (gk, None) h) →
            Convert_ref depth v h = Some (Returns (gv, None) h) →
            ∃ t, unhashable gk = Some t ∧
                 ConvertCFDictionary depth d h
                 = Some (Panics ("hash of unhashable type " +:+ t))).
Proof.
  intros Hd Hnd Hin Hk Ho.
  destruct (CFDictionaryToMap_distinct _ _ _ _ Hd Hnd) as (m & Hm & Hmes).
  assert (∀ result h', ConvertCFDictionary depth d h ≠ Some (Returns (Some result, None) h'))
    as Hnever.
  { intros result h' Hrun. unfold ConvertCFDictionary, ConvertCFDictionary_with in Hrun.
    rewrite (nested_bind_run _ _ _ _ _ Hm) in Hrun.
    assert ((k, v) ∈ range_refs m) as Hin' by (by rewrite range_refs_perm, Hmes).
    destruct (ConvertCFDictionary_range_keys _ _ _ _ _ _ _ _ Hrun Hin') as (gk & Hgk & Hh).
    destruct (Convert_not_a_key _ _ _ _ _ _ _ Hk Ho Hgk) as [t Ht]. congruence. }
  split.
  - intros result h'. split; [apply Hnever|].
    cbn [Convert_ref]. rewrite (Convert_switch_at _ _ _ _ _ Hd). cbn [CF.type_of].
    intros ([m' err] & h1 & Hrun & Hret)%nested_bind_inv.
    injection Hret as -> -> _. by eapply Hnever.
  - intros gk gv -> Hgk Hgv.
    destruct (Convert_not_a_key _ _ _ _ _ _ _ Hk Ho Hgk) as [t Ht].
    exists t. split; [done|].
    unfold ConvertCFDictionary, ConvertCFDictionary_with.
    rewrite (nested_bind_run _ _ _ _ _ Hm).
    assert (range_refs m = [(k, v)]) as ->.
    { apply Permutation_singleton_r. by rewrite range_refs_perm, Hmes. }
    by apply (ConvertCFDictionary_range_unhashable _ [] [] k v [] [] h gk gv t).
Qed.

End unhashable_keys.

Section decodes.
Context `{Platform}.

Lemma CFNumberToInterface_int32 (vr : Z) (h : CFHeap) n rc :
  h !! vr = Some (Cell (CFNumber kCFNumberSInt32Type (to_signed 32 n)) rc) →
  CFNumberToInterface vr h = Returns (Int32 (to_signed 32 n)) h.
Proof.
  intros Hr. unfold CFNumberToInterface, CF.as_number.
  rewrite !bind_unfold, (deref_live _ _ _ _ Hr). cbn beta iota.
  rewrite ret_unfold. cbn beta iota.
  change (kCFNumberSInt32Type =? kCFNumberSInt8Type) with false.
  change (kCFNumberSInt32Type =? kCFNumberSInt16Type) with false.
  change (kCFNumberSInt32Type =? kCFNumberSInt32Type) with true.
  cbn beta iota. rewrite ret_unfold.
  by rewrite (to_signed_id 32 (to_signed 32 n)) by (try apply to_signed_range; lia).
Qed.

(** Reading the text of a string object made from a text without a NUL
    byte. *)
Lemma CFStringToString_text_object (h : CFHeap) s r :
  text_object h s r → has_nul s = false → CFStringToString r h = Returns s h.
Proof.
  intros (cs & rc & Hdec & Hr) Hnul. rewrite (CFStringToString_text _ _ _ _ Hr).
  rewrite (decode_encode s cs Hdec), GoString_id by done.
  by destruct (CFStringGetCStringPtr_hit cs).
Qed.

(** One turn of the loop of [convertResult] at an entry that
    [ConvertMapToCFDictionary] has made. *)
Lemma convertResult_entry_built (h : CFHeap) key i kr vr r0 :
  text_object h key kr → stands_for h i vr →
  has_nul key = false → decodable key i = true →
  ∃ r', convertResult_entry kr vr r0 h = Returns (r', None) h.
Proof.
  intros Hk Hv Hnul Hdec.
  pose proof (CFStringToString_text_object _ _ _ Hk Hnul) as Hkey.
  unfold decodable in Hdec.
  destruct (existsb (String.eqb key) text_fields.*1) eqn:Etext.
  - apply existsb_exists in Etext as (K & HK & ->%String.eqb_eq).
    destruct i as [| | | | | | | | | | | |s|]; try done.
    apply negb_true_iff in Hdec.
    pose proof (CFStringToString_text_object _ _ _ Hv Hdec) as Hs.
    cbn in HK.
    repeat (destruct HK as [<-|HK];
            [eexists; eapply convertResult_entry_run; [exact Hkey|];
             econstructor; solve [reflexivity | exact Hs]|]).
    done.
  - destruct (String.eqb key PortKey) eqn:Eport.
    { apply String.eqb_eq in Eport as ->.
      destruct i as [| | | | |n| | | | | | | |]; try done. destruct Hv as [rc Hr].
      eexists. eapply convertResult_entry_run; [exact Hkey|].
      eapply eff_Port; [done|]. by eapply CFNumberToInterface_int32. }
    destruct (String.eqb key DataKey) eqn:Edata.
    { apply String.eqb_eq in Edata as ->.
      destruct i as [| | | | | | | | | | |b| |]; try done. destruct Hv as [rc Hr].
      apply Z.ltb_lt in Hdec.
      eexists. eapply convertResult_entry_run; [exact Hkey|].
      eapply eff_Data; [done|]. eapply CFDataToBytes_small; [done|].
      assert (length (elems b) = len b) as -> by (by destruct b). done. }
    apply negb_true_iff in Hdec.
    eexists. eapply convertResult_entry_run; [exact Hkey|]. by apply eff_skip.
Qed.

(** The loop of [convertResult] over the entries of a built dictionary
    comes back with a result. *)
Lemma convertResult_range_built (h : CFHeap) kvs : ∀ entries r0,
  Forall2 (λ kv p, text_object h kv.1 p.1 ∧ stands_for h kv.2 p.2) kvs entries →
  (∀ kv, kv ∈ kvs → has_nul kv.1 = false ∧ decodable kv.1 kv.2 = true) →
  ∃ r, convertResult_range entries r0 h = Returns (Some r, None) h.
Proof.
  induction kvs as [|[key i] kvs IH]; intros entries r0 Hall Hok.
  - apply Forall2_nil_inv_l in Hall as ->. by exists r0.
  - apply Forall2_cons_inv_l in Hall as ([kr vr] & entries' & [Hk Hv] & Hall & ->).
    destruct (Hok (key, i)) as [Hnul Hdec]; [apply list_elem_of_here|].
    cbn [fst snd] in *.
    destruct (convertResult_entry_built h key i kr vr r0 Hk Hv Hnul Hdec) as [r1 Hentry].
    destruct (IH entries' r1 Hall) as [r Hrest].
    { intros kv Hkv. by apply Hok, list_elem_of_further. }
    exists r. cbn [convertResult_range]. by rewrite bind_unfold, Hentry.
Qed.

(** [convertResult] on the dictionary that [ConvertMapToCFDictionary]
    has made of attributes that can be read back: it comes back with a
    result, in which the field of each known key was written at the
    entry of that key, and the field of a key that the map does not have
    was left alone. *)
Lemma built_decoding attr h0 cfDict h1 :
  ConvertMapToCFDictionary attr h0 = Returns (cfDict, None) h1 →
  (∀ key i, attr !! key = Some i → has_nul key = false ∧ decodable key i = true) →
  ∃ r, convertResult cfDict h1 = Returns (Some r, None) h1 ∧
       (∀ K same i, (K, same) ∈ field_of_key → attr !! K = Some i →
          ∃ vr r1 r2, stands_for h1 i vr ∧ entry_effect vr h1 K r1 r2 None ∧ same r2 r) ∧
       (∀ K same, (K, same) ∈ field_of_key → attr !! K = None → same QueryResult_zero r).
Proof.
  intros Hrun Hok.
  destruct (built_entries _ _ _ _ Hrun) as (Hs & es & kvs & Hd & Hnd & Hperm & Hall).
  destruct (CFDictionaryToMap_distinct _ _ _ _ Hd Hnd) as (m & Hm & Hmes).
  assert (es ≡ₚ range_refs m) as Hpr by (by rewrite range_refs_perm, Hmes).
  destruct (Forall2_perm_r _ _ _ Hpr _ Hall) as (kvs' & Hp' & Hall').
  assert (kvs' ≡ₚ map_to_list attr) as Hperm' by (by rewrite <- Hp').
  assert (∀ l kv, l ≡ₚ map_to_list attr → kv ∈ l →
                  has_nul kv.1 = false ∧ decodable kv.1 kv.2 = true) as Hokl.
  { intros l [key i] Hl Hkv. rewrite Hl in Hkv. apply elem_of_map_to_list in Hkv.
    by apply Hok in Hkv. }
  assert (∀ l ps kv p, l ≡ₚ map_to_list attr →
            Forall2 (λ kv p, text_object h1 kv.1 p.1 ∧ stands_for h1 kv.2 p.2) l ps →
            p ∈ ps → reads_as h1 kv p →
            ∃ i, attr !! kv = Some i) as Hreads.
  { intros l ps K p Hl Hall0 Hp [h' Hr].
    destruct (Forall2_elem_r _ _ _ _ Hall0 Hp) as ([key i] & Hkv & Hk & _).
    destruct (Hokl l (key, i) Hl Hkv) as [Hnul _]. cbn [fst snd] in *.
    unfold attrKey in Hr. rewrite (CFStringToString_text_object _ _ _ Hk Hnul) in Hr.
    injection Hr as <- _. exists i. apply elem_of_map_to_list. by rewrite <- Hl. }
  destruct (convertResult_range_built h1 kvs' (range_refs m) QueryResult_zero Hall'
              (λ kv, Hokl kvs' kv Hperm')) as [r Hr].
  assert (convertResult cfDict h1 = Returns (Some r, None) h1) as Hconv.
  { unfold convertResult. by rewrite bind_unfold, Hm. }
  exists r. split; [exact Hconv|]. split.
  - intros K same i Hf Hi.
    assert ((K, i) ∈ kvs) as Hin by (rewrite Hperm; by apply elem_of_map_to_list).
    apply list_elem_of_lookup in Hin as [j Hj].
    destruct (Forall2_lookup_l _ _ _ _ _ Hall Hj) as ([kr vr] & Hej & Hk & Hv).
    cbn [fst snd] in *.
    destruct (Hokl kvs (K, i) Hperm) as [Hnul _]; [by eapply list_elem_of_lookup_2|].
    cbn [fst] in Hnul.
    destruct (convertResult_at cfDict h1 es 1 kr vr K same r h1 Hd) as (r1 & r2 & Heff & Hsame);
      [by eapply list_elem_of_lookup_2|by apply CFStringToString_text_object| |done|done|].
    + intros kv' Hkv' [h' Hr'].
      apply list_elem_of_lookup in Hkv' as [j' Hj'].
      destruct (Forall2_lookup_r _ _ _ _ _ Hall Hj') as ([key' i'] & Hkj' & Hk' & _).
      cbn [fst snd] in *.
      destruct (Hokl kvs (key', i') Hperm) as [Hnul' _]; [by eapply list_elem_of_lookup_2|].
      cbn [fst] in Hnul'. unfold attrKey in Hr'.
      rewrite (CFStringToString_text_object _ _ _ Hk' Hnul') in Hr'. injection Hr' as -> _.
      assert (j' = j) as ->.
      { assert (NoDup kvs.*1) as Hndk by (rewrite Hperm; apply NoDup_fst_map_to_list).
        eapply (NoDup_lookup _ _ _ K Hndk); rewrite list_lookup_fmap.
        - by rewrite Hkj'.
        - by rewrite Hj. }
      congruence.
    + exists vr, r1, r2. done.
  - intros K same Hf Hnone.
    eapply (convertResult_range_field K same (range_refs m)); [done| |exact Hr].
    apply Forall_forall. intros p Hp Hreadsp.
    destruct (Hreads kvs' (range_refs m) K p Hperm' Hall' Hp Hreadsp) as [i Hi]. congruence.
Qed.

(** What [ConvertMapToCFDictionary] writes, [convertResult] reads.  Let
    the keys of an attribute map hold no NUL byte and let its attributes
    be of the kind their keys call for (a text without a NUL byte for a
    text field, an [int32] for the port, fewer than 2^31 bytes for the
    data; anything under the other keys, such as the class of the item).
    Then [convertResult] on the dictionary that
    [ConvertMapToCFDictionary] returns comes back with a result and no
    error, and leaves the heap as it is.  Each text field of the result
    is the text of its attribute, or empty when the map has none; [Port]
    is the port; and [Data] is the data, or nil when the map has none. *)
Theorem built_dictionary_decodes (attr : gmap string GoValue) (h0 : CFHeap)
    (cfDict : CFTypeRef) (h1 : CFHeap) :
  ConvertMapToCFDictionary attr h0 = Returns (cfDict, None) h1 →
  (∀ key i, attr !! key = Some i → has_nul key = false ∧ decodable key i = true) →
  ∃ r, convertResult cfDict h1 = Returns (Some r, None) h1 ∧
       (∀ K field, (K, field) ∈ text_fields →
          field r = match attr !! K with Some (Str s) => s | _ => EmptyString end) ∧
       Port r = match attr !! PortKey with Some (Int32 n) => to_signed 32 n | _ => 0 end ∧
       Data r = match attr !! DataKey with Some (Bytes b) => Some (elems b) | _ => None end.
Proof.
  intros Hrun Hok.
  destruct (built_decoding _ _ _ _ Hrun Hok) as (r & Hconv & Hin & Hout).
  exists r. split; [exact Hconv|]. split; [|split].
  - intros K field Hf. destruct (attr !! K) as [i|] eqn:Hi.
    + destruct (Hok _ _ Hi) as [_ Hdec]. unfold decodable in Hdec.
      assert (existsb (String.eqb K) text_fields.*1 = true) as Etext.
      { apply existsb_exists. exists K. split; [|apply String.eqb_refl].
        apply list_elem_of_In, list_elem_of_fmap. by exists (K, field). }
      rewrite Etext in Hdec. destruct i as [| | | | | | | | | | | |s|]; try done.
      apply negb_true_iff in Hdec.
      destruct (Hin K _ _ (text_fields_same _ _ Hf) Hi) as (vr & r1 & r2 & Hv & Heff & <-).
      pose proof (CFStringToString_text_object _ _ _ Hv Hdec) as Hs.
      unfold text_fields in Hf.
      repeat (apply elem_of_cons in Hf as [[= -> ->]|Hf];
              [inversion Heff; subst; try discriminate; simpl; congruence|]).
      by apply elem_of_nil in Hf.
    + rewrite <- (Hout K _ (text_fields_same _ _ Hf) Hi).
      unfold text_fields in Hf.
      repeat (apply elem_of_cons in Hf as [[= -> ->]|Hf]; [reflexivity|]).
      by apply elem_of_nil in Hf.
  - assert ((PortKey, λ a b, Port a = Port b) ∈ field_of_key) as Hf.
    { unfold field_of_key. rewrite !elem_of_cons. tauto. }
    destruct (attr !! PortKey) as [i|] eqn:Hi.
    + destruct (Hok _ _ Hi) as [_ Hdec].
      destruct i as [| | | | |n| | | | | | | |]; try done.
      destruct (Hin PortKey _ _ Hf Hi) as (vr & r1 & r2 & [rc Hv] & Heff & <-).
      pose proof (CFNumberToInterface_int32 _ _ _ _ Hv) as Hn.
      inversion Heff; subst; try discriminate; simpl; congruence.
    + by rewrite <- (Hout PortKey _ Hf Hi).
  - assert ((DataKey, λ a b, Data a = Data b) ∈ field_of_key) as Hf.
    { unfold field_of_key. rewrite !elem_of_cons. tauto. }
    destruct (attr !! DataKey) as [i|] eqn:Hi.
    + destruct (Hok _ _ Hi) as [_ Hdec].
      destruct i as [| | | | | | | | | | |b| |]; try done.
      apply Z.ltb_lt in Hdec.
      destruct (Hin DataKey _ _ Hf Hi) as (vr & r1 & r2 & [rc Hv] & Heff & <-).
      assert (CFDataToBytes vr h1 = Returns (Some (elems b), None) h1) as Hb.
      { eapply CFDataToBytes_small; [done|].
        assert (length (elems b) = len b) as -> by (by destruct b). done. }
      inversion Heff; subst; try discriminate; simpl; congruence.
    + by rewrite <- (Hout DataKey _ Hf Hi).
Qed.

End decodes.

Section succeeds.
Context `{Platform}.

Lemma convert_value_convertible i (h : CFHeap) :
  convertible i = true → ∃ r d h', convert_value i h = Returns (r, d, None) h'.
Proof.
  destruct i as [|r|b|n|n|n|n|n|n|n|n|b|s|c]; try done; intros Hc; cbn [convert_value].
  - by eexists _, _, _.
  - destruct b; by eexists _, _, _.
  - unfold Int32ToCFNumber, CF.CFNumberCreate. rewrite bind_unfold, create_unfold.
    by eexists _, _, _.
  - simpl in Hc. apply Z.leb_le in Hc.
    destruct (BytesToCFData_cases b h) as [[Hl _]|[_ Hb]]; [lia|].
    rewrite bind_unfold, Hb. by eexists _, _, _.
  - simpl in Hc. apply negb_true_iff in Hc.
    destruct (StringToCFString_cases s h) as [[Hf _]|[_ (cs & _ & Hs)]]; [congruence|].
    rewrite bind_unfold, Hs. by eexists _, _, _.
Qed.

(** The loop of [ConvertMapToCFDictionary] over entries that can all be
    converted goes to the end. *)
Lemma convert_entries_convertible es : ∀ m ds (h : CFHeap),
  Forall (λ kv, string_fails kv.1 = false ∧ convertible kv.2 = true) es →
  ∃ m' ds' h', convert_entries es m ds h = Returns (m', ds', None) h'.
Proof.
  induction es as [|[key i] es IH]; intros m ds h Hall; [by eexists _, _, _|].
  apply Forall_cons in Hall as [[Hk Hi] Hall]. cbn [fst snd] in *.
  cbn [convert_entries].
  destruct (convert_value_convertible i h Hi) as (r & d & h1 & Hv).
  rewrite bind_unfold, Hv. cbn beta iota.
  destruct (StringToCFString_cases key h1) as [[Hf _]|[_ (cs & _ & Hs)]]; [congruence|].
  rewrite bind_unfold, Hs. cbn beta iota. by apply IH.
Qed.

(** Once the loop is through, the dictionary is made and the deferred
    releases run, provided that the references of the map are alive. *)
Lemma ConvertMapToCFDictionary_builds (attr : gmap string GoValue) (h0 : CFHeap) m ds h' :
  convert_entries (range_attr attr) ∅ [] h0 = Returns (m, ds, None) h' →
  (∀ key r, attr !! key = Some (Ref r) → is_Some (h0 !! r)) →
  (∀ key b, attr !! key = Some (Bool b) →
            is_Some (h0 !! kCFBooleanTrue) ∧ is_Some (h0 !! kCFBooleanFalse)) →
  ∃ cfDict h1, cfDict ≠ 0 ∧ ConvertMapToCFDictionary attr h0 = Returns (cfDict, None) h1.
Proof.
  intros Hrun Hrefs Hbools. unfold ConvertMapToCFDictionary.
  rewrite bind_unfold, Hrun. cbn beta iota.
  destruct (convert_entries_built _ _ _ h0 h0 [] _ _ _ (owned_nil h0) (conv_inv_nil h0) Hrun)
    as [Ho Hinv].
  rewrite app_nil_r in Hinv.
  destruct Ho as (Hnd & Hin & Hout).
  destruct Hinv as (pairs & Hperm & Hall & Hkeys & Hds).
  assert (∀ r, is_Some (h0 !! r) → is_Some (h' !! r)) as Hold.
  { intros r Hr. rewrite Hout; [done|]. intros Hd. destruct (Hin _ Hd) as (Hnone & _).
    rewrite Hnone in Hr. by destruct Hr. }
  assert (∀ p, p ∈ range_refs m → is_Some (h' !! p.1) ∧ is_Some (h' !! p.2)) as Hlive.
  { intros [kr vr] Hp. rewrite range_refs_perm, Hperm in Hp. cbn [fst snd]. split.
    - destruct (Hin _ (Hkeys _ Hp)) as (_ & o & Hkr). simpl in Hkr. rewrite Hkr. eauto.
    - destruct (Forall2_elem_r _ _ _ _ Hall Hp) as ([key i] & Hel & _ & Hs).
      rewrite elem_of_reverse, range_attr_perm in Hel. apply elem_of_map_to_list in Hel.
      simpl in Hs. destruct i; simpl in Hs; try done.
      + subst. by eapply Hold, Hrefs.
      + destruct (Hbools _ _ Hel) as [Ht Hf]. subst. destruct b; by apply Hold.
      + destruct Hs as [rc ->]. eauto.
      + destruct Hs as [rc ->]. eauto.
      + destruct Hs as (cs & rc & _ & ->). eauto. }
  destruct (retain_all_live (range_refs m).*1 h') as [ha Hk].
  { apply Forall_forall. intros r (p & -> & Hp)%list_elem_of_fmap. by apply Hlive. }
  destruct (retain_all_live (range_refs m).*2 ha) as [h2 Hv].
  { apply Forall_forall. intros r (p & -> & Hp)%list_elem_of_fmap.
    rewrite (retain_all_inv _ _ _ _ Hk). by apply Hlive. }
  set (cfDict := CF.next_ref h2).
  destruct (run_deferred_live ds
              (<[cfDict := Cell (CFDictionary (zip (range_refs m).*1 (range_refs m).*2)) 1]> h2)
              Hnd) as [h1 Hdef].
  { apply Forall_forall. intros d Hd. destruct (Hin _ Hd) as (_ & o & Hd').
    assert (is_Some (h2 !! d)) as [c Hc].
    { rewrite (retain_all_inv _ _ _ _ Hv), (retain_all_inv _ _ _ _ Hk). by rewrite Hd'. }
    rewrite lookup_insert_ne; [by rewrite Hc|].
    intros <-. unfold cfDict in Hc. by rewrite next_ref_fresh in Hc. }
  exists cfDict, h1. split; [pose proof (next_ref_pos h2); unfold cfDict; lia|].
  assert (MapToCFDictionary m h'
          = Returns (cfDict, None)
              (<[cfDict := Cell (CFDictionary (zip (range_refs m).*1 (range_refs m).*2)) 1]> h2))
    as Hmap.
  { unfold MapToCFDictionary, CF.CFDictionaryCreate.
    rewrite !bind_unfold, Hk. cbn beta iota. rewrite !bind_unfold, Hv. cbn beta iota.
    rewrite create_unfold. cbn beta iota. by rewrite next_ref_eqb. }
  rewrite bind_unfold, Hmap. cbn beta iota. by rewrite bind_unfold, Hdef.
Qed.

Lemma ConvertMapToCFDictionary_convertible (attr : gmap string GoValue) (h0 : CFHeap) :
  (∀ key i, attr !! key = Some i → string_fails key = false ∧ convertible i = true) →
  (∀ key r, attr !! key = Some (Ref r) → is_Some (h0 !! r)) →
  (∀ key b, attr !! key = Some (Bool b) →
            is_Some (h0 !! kCFBooleanTrue) ∧ is_Some (h0 !! kCFBooleanFalse)) →
  ∃ cfDict h1, cfDict ≠ 0 ∧ ConvertMapToCFDictionary attr h0 = Returns (cfDict, None) h1.
Proof.
  intros Hok Hrefs Hbools.
  destruct (convert_entries_convertible (range_attr attr) ∅ [] h0) as (m & ds & h' & Hrun).
  { apply Forall_forall. intros [key i] Hkv. rewrite range_attr_perm in Hkv.
    apply elem_of_map_to_list in Hkv. by apply Hok. }
  by eapply ConvertMapToCFDictionary_builds.
Qed.

(** [ConvertMapToCFDictionary] fails only for a reason of its own.  When
    every key is a text that [StringToCFString] takes (well-formed UTF-8
    of at most [math.MaxUint32] bytes) and every value is a reference, a
    boolean, an [int32], at most [math.MaxUint32] bytes or such a text,
    and the references are alive, it returns a dictionary, not the null
    reference, and no error.  And when one key or one such value is not
    of that kind, it returns the null reference and an error. *)
Theorem convertible_attributes_are_built (attr : gmap string GoValue) (h0 : CFHeap) :
  (∀ key i, attr !! key = Some i → ∀ c, i ≠ Conv c) →
  (∀ key r, attr !! key = Some (Ref r) → is_Some (h0 !! r)) →
  (∀ key b, attr !! key = Some (Bool b) →
            is_Some (h0 !! kCFBooleanTrue) ∧ is_Some (h0 !! kCFBooleanFalse)) →
  ((∀ key i, attr !! key = Some i → string_fails key = false ∧ convertible i = true) →
   ∃ cfDict h1, cfDict ≠ 0 ∧ ConvertMapToCFDictionary attr h0 = Returns (cfDict, None) h1) ∧
  (∀ key i, attr !! key = Some i → string_fails key = true ∨ convertible i = false →
            ∃ e, ConvertMapToCFDictionary attr h0 = Returns (0, Some e) h0).
Proof.
  intros Hnc Hrefs Hbools. split.
  - intros Hok. by apply ConvertMapToCFDictionary_convertible.
  - intros key i Hi Hbad. eapply ConvertMapToCFDictionary_refuses; [exact Hi|].
    destruct Hbad as [Hk|Hc]; [by right|]. left.
    destruct i as [|r|b|n|n|n|n|n|n|n|n|b|s|c]; try done; simpl in *.
    + apply Z.leb_gt in Hc. lia.
    + by apply negb_false_iff in Hc.
    + by destruct (Hnc _ _ Hi c).
Qed.


End succeeds.

(** The text "a", NUL, "b" comes back as "a" where the framework hands
    out the storage of a string of ASCII characters. *)
Lemma string_roundtrip_up_to_NUL_witness :
  ∃ ref h', StringToCFString Demo.a_text_with_nul constants = Returns (ref, None) h' ∧
            CFStringToString (H := Demo.platform errSecSuccess []) ref h' = Returns "a" h'.
Proof.
  destruct (string_roundtrip_up_to_NUL (H := Demo.platform errSecSuccess [])
              Demo.a_text_with_nul constants) as (ref & cs & h' & Hs & _ & _ & Hobj & Hread);
    [vm_compute; reflexivity|].
  exists ref, h'. split; [exact Hs|]. rewrite Hread. f_equal.
  assert (Returns (ref, None) h'
          = Returns (10, None) (<[10 := Cell (CFString [97; 0; 98]%N) 1]> constants))
    as [= -> ->] by (rewrite <- Hs; vm_compute; reflexivity).
  rewrite lookup_insert_eq in Hobj. injection Hobj as <-. reflexivity.
Defined.

Lemma large_data_is_encoded_but_not_decoded_witness :
  ∃ ref h', BytesToCFData Demo.two_gigabytes constants = Returns (ref, None) h' ∧
            CFDataToBytes ref h' = Panics "gobytes: length out of range".
Proof.
  apply (large_data_is_encoded_but_not_decoded Demo.two_gigabytes constants).
  unfold Demo.two_gigabytes, len, MaxUint32. rewrite length_replicate, Z2Nat.id by lia. lia.
Defined.

Lemma unconvertible_item_is_refused_witness :
  ∃ e, AddItem (H := Demo.platform errSecSuccess []) Demo.a_bad_item constants
       = Returns (Some (wrapError "failed to convert item attributes to CFDictionary: " e))
           constants ∧
       QueryItem (H := Demo.platform errSecSuccess []) Demo.a_bad_item constants
       = Returns (None, Some e) constants.
Proof.
  destruct (unconvertible_item_is_refused (H := Demo.platform errSecSuccess [])
              Demo.a_bad_item NewItem constants AccountKey
              (Str (String (ascii_of_N 255) EmptyString)))
    as (e & _ & Hadd & _ & _ & _ & Hq & _).
  - vm_compute. reflexivity.
  - left. vm_compute. reflexivity.
  - exists e. split; [exact Hadd|exact Hq].
Defined.

(** A store that reports a duplicate item. *)
Lemma store_status_is_returned_witness :
  ∃ h', AddItem (H := Demo.platform errSecDuplicateItem []) Demo.a_query constants
        = Returns (Some (KeychainError errSecDuplicateItem)) h'.
Proof.
  edestruct (store_status_is_returned (H := Demo.platform errSecDuplicateItem [])
               Demo.a_query constants) as ([h' Hadd] & _).
  { vm_compute. reflexivity. }
  exists h'. rewrite Hadd. reflexivity.
Defined.

(** A store that answers with a blob of two bytes. *)
Lemma QueryItem_by_shape_witness :
  ∃ h', QueryItem (H := Demo.platform errSecSuccess Demo.a_blob) Demo.a_query constants
        = Returns (Some [with_Data (Some [Byte.x01; Byte.x02]) QueryResult_zero], None) h'.
Proof.
  edestruct (QueryItem_by_shape (H := Demo.platform errSecSuccess Demo.a_blob)
               Demo.a_query constants) as (h' & _ & _ & Hdata & _).
  { vm_compute. reflexivity. }
  { vm_compute. discriminate. }
  { vm_compute. reflexivity. }
  exists h'. apply Hdata; [reflexivity|vm_compute; reflexivity].
Defined.

Lemma GetGenericPassword_outcomes_witness :
  ∃ h', GetGenericPassword (H := Demo.platform errSecSuccess Demo.a_blob)
          "svc" "alice" "" "" constants
        = Returns (Some [Byte.x01; Byte.x02], None) h'.
Proof.
  destruct (GetGenericPassword_outcomes (H := Demo.platform errSecSuccess Demo.a_blob)
              "svc" "alice" "" "" constants) as (_ & _ & Hdata).
  eapply Hdata.
  - vm_compute. reflexivity.
  - vm_compute. discriminate.
  - vm_compute. reflexivity.
  - vm_compute. reflexivity.
Defined.

Lemma GetGenericPasswordAccounts_outcomes_witness :
  ∃ h', GetGenericPasswordAccounts (H := Demo.platform errSecItemNotFound []) "svc" constants
        = Returns (Some [], None) h'.
Proof.
  destruct (GetGenericPasswordAccounts_outcomes (H := Demo.platform errSecItemNotFound [])
              "svc" constants) as (_ & Hnone & _).
  eexists. eapply Hnone. vm_compute. reflexivity.
Defined.


Lemma built_dictionary_holds_the_attributes_witness :
  ∃ cfDict h1 es,
    ConvertMapToCFDictionary (H := Demo.platform errSecSuccess []) (attr Demo.a_query)
      constants = Returns (cfDict, None) h1 ∧
    h1 !! cfDict = Some (Cell (CFDictionary es) 1) ∧ length es = 4%nat.
Proof.
  eassert (ConvertMapToCFDictionary (H := Demo.platform errSecSuccess []) (attr Demo.a_query)
             constants = Returns (_, None) _) as Hrun.
  { vm_compute. reflexivity. }
  destruct (built_dictionary_holds_the_attributes (H := Demo.platform errSecSuccess [])
              _ _ _ _ Hrun) as (_ & _ & _ & es & Hes & Hlen & _).
  eexists _, _, es. split; [exact Hrun|]. split; [exact Hes|]. rewrite Hlen. reflexivity.
Defined.

Lemma ConvertMapToCFDictionary_returns_witness :
  (∃ e, ConvertMapToCFDictionary (H := Demo.platform errSecSuccess []) (attr Demo.a_query)
          constants = Returns (0, Some e) constants) ∨
  (∃ cfDict h1, cfDict ≠ 0 ∧
     ConvertMapToCFDictionary (H := Demo.platform errSecSuccess []) (attr Demo.a_query)
       constants = Returns (cfDict, None) h1).
Proof.
  apply (ConvertMapToCFDictionary_returns (H := Demo.platform errSecSuccess [])).
  - intros key r Hkey.
    assert (key = SecClassKey ∧ r = kSecClassGenericPassword
            ∨ key = MatchLimitKey ∧ r = kSecMatchLimitAll) as [[-> ->]|[-> ->]];
      [|by eexists..].
    revert Hkey. unfold Demo.a_query, SetReturnAttributes, SetMatchLimit, SetService,
      SetSecClass, SetString, NewItem. cbn [negb attr String.eqb Ascii.eqb Bool.eqb Z.eqb
      MatchLimitAll MatchLimitDefault].
    intros Hkey.
    repeat (apply lookup_insert_Some in Hkey as [[<- Hkey]|[_ Hkey]];
            [first [discriminate | injection Hkey as <-; auto]|]).
    by rewrite lookup_empty in Hkey.
  - intros key b _. split; by eexists.
Defined.


Lemma CFTypeDescription_leaves_the_heap_witness :
  CFTypeDescription (H := Demo.platform errSecSuccess []) kCFBooleanTrue constants
  = Returns "CFBoolean" constants.
Proof.
  rewrite (CFTypeDescription_leaves_the_heap (H := Demo.platform errSecSuccess [])
             kCFBooleanTrue constants (CFBoolean true) 1); [|reflexivity].
  vm_compute. reflexivity.
Defined.

(** The record of a server: its port is a 64-bit number, so no result
    comes back; the record of the future has an account. *)
Lemma convertResult_fills_the_field_witness :
  ∃ r h', convertResult (H := Demo.platform errSecSuccess []) 14
            (Demo.response Demo.record_of_the_future) = Returns (Some r, None) h' ∧
          Account r = "alice".
Proof.
  eassert (convertResult (H := Demo.platform errSecSuccess []) 14
             (Demo.response Demo.record_of_the_future) = Returns (Some _, None) _) as Hrun.
  { vm_compute. reflexivity. }
  eexists _, _. split; [exact Hrun|].
  edestruct (convertResult_fills_the_field (H := Demo.platform errSecSuccess []) 14
               (Demo.response Demo.record_of_the_future) [(10, 11); (12, 13)] 1 10 11
               AccountKey) as (Htext & _).
  - vm_compute. reflexivity.
  - left.
  - vm_compute. reflexivity.
  - intros kv Hkv Hread. apply elem_of_cons in Hkv as [->|Hkv]; [reflexivity|].
    apply elem_of_cons in Hkv as [->|Hkv]; [|exfalso; exact (proj1 (elem_of_nil _) Hkv)].
    destruct Hread as [h' Hread]. vm_compute in Hread. discriminate.
  - exact Hrun.
  - apply (Htext Account "alice").
    + unfold text_fields. do 5 apply list_elem_of_further. apply list_elem_of_here.
    + vm_compute. reflexivity.
Defined.

Lemma Convert_of_a_leaf_witness :
  Convert_ref (H := Demo.platform errSecSuccess []) 1 kCFBooleanTrue constants
  = Some (Returns (DValue (Bool true), None) constants).
Proof.
  apply (Convert_of_a_leaf (H := Demo.platform errSecSuccess []) 0 kCFBooleanTrue constants
           (CFBoolean true) 1).
  vm_compute. reflexivity.
Defined.

Lemma Convert_of_an_array_witness :
  Convert_ref (H := Demo.platform errSecSuccess []) 2 100 Demo.a_heap_with_an_array
  = Some (Returns (DSlice [DValue (Bool true); DValue (Str "genp")], None)
            Demo.a_heap_with_an_array).
Proof.
  apply (Convert_of_an_array (H := Demo.platform errSecSuccess []) 1 100
           Demo.a_heap_with_an_array [kCFBooleanTrue; kSecClassGenericPassword] 1).
  - vm_compute. reflexivity.
  - constructor; [vm_compute; reflexivity|].
    constructor; [vm_compute; reflexivity|]. constructor.
Defined.

Lemma Convert_only_reads_witness :
  Convert_ref (H := Demo.platform errSecSuccess []) 5 100 Demo.a_heap_with_an_array
  = Some (Returns (DSlice [DValue (Bool true); DValue (Str "genp")], None)
            Demo.a_heap_with_an_array).
Proof.
  apply (Convert_only_reads (H := Demo.platform errSecSuccess []) 2 5 100
           Demo.a_heap_with_an_array).
  - vm_compute. reflexivity.
  - lia.
Defined.

Lemma ConvertCFDictionary_needs_hashable_keys_witness :
  ConvertCFDictionary (H := Demo.platform errSecSuccess []) 1 101 Demo.a_heap_with_a_data_key
  = Some (Panics "hash of unhashable type []uint8").
Proof.
  destruct (ConvertCFDictionary_needs_hashable_keys (H := Demo.platform errSecSuccess [])
              1 101 Demo.a_heap_with_a_data_key [(100, kCFBooleanTrue)] 1 100 kCFBooleanTrue
              (CFData [Byte.x01]) 1) as [_ Hpanic].
  - vm_compute. reflexivity.
  - apply NoDup_singleton.
  - apply list_elem_of_here.
  - vm_compute. reflexivity.
  - reflexivity.
  - destruct (Hpanic (DValue (Bytes (Some [Byte.x01]))) (DValue (Bool true)))
      as (t & Ht & Hrun).
    + reflexivity.
    + vm_compute. reflexivity.
    + vm_compute. reflexivity.
    + injection Ht as <-. exact Hrun.
Defined.

(** A generic password, built and read back: the service, and the data
    as a slice. *)
Lemma built_dictionary_converts_back_witness :
  ∃ cfDict h1 result,
    ConvertMapToCFDictionary (H := Demo.platform errSecSuccess []) (attr Demo.a_password)
      constants = Returns (cfDict, None) h1 ∧
    Convert_ref (H := Demo.platform errSecSuccess []) 2 cfDict h1
    = Some (Returns (DMap (Some result), None) h1) ∧
    length result = 6%nat ∧
    index result (DValue (Str ServiceKey)) = Some (DValue (Str "service")) ∧
    index result (DValue (Str DataKey)) = Some (DValue (Bytes (Some [Byte.x01; Byte.x02]))).
Proof.
  eassert (ConvertMapToCFDictionary (H := Demo.platform errSecSuccess [])
             (attr Demo.a_password) constants = Returns (_, None) _) as Hrun.
  { vm_compute. reflexivity. }
  eassert (map_to_list (attr Demo.a_password) = _) as Hlist.
  { vm_compute. reflexivity. }
  destruct (built_dictionary_converts_back (H := Demo.platform errSecSuccess [])
              _ _ _ _ Hrun) as (result & Hconv & Hlen & Hindex).
  - intros key i Hki. apply elem_of_map_to_list in Hki. rewrite Hlist in Hki.
    repeat (apply elem_of_cons in Hki as [[= -> ->]|Hki];
            [split; [reflexivity|vm_compute; eexists; reflexivity]|]).
    exfalso. exact (proj1 (elem_of_nil _) Hki).
  - eexists _, _, result. split; [exact Hrun|].
    split; [exact (proj2 (Hconv 0%nat))|].
    split; [rewrite Hlen; vm_compute; reflexivity|].
    split; rewrite Hindex; vm_compute; reflexivity.
Defined.

(** A generic password, built and decoded. *)
Lemma built_dictionary_decodes_witness :
  ∃ cfDict h1 r,
    ConvertMapToCFDictionary (H := Demo.platform errSecSuccess []) (attr Demo.a_password)
      constants = Returns (cfDict, None) h1 ∧
    convertResult (H := Demo.platform errSecSuccess []) cfDict h1
    = Returns (Some r, None) h1 ∧
    Service r = "service" ∧ Account r = "account" ∧ Port r = 0 ∧
    Data r = Some [Byte.x01; Byte.x02].
Proof.
  eassert (ConvertMapToCFDictionary (H := Demo.platform errSecSuccess [])
             (attr Demo.a_password) constants = Returns (_, None) _) as Hrun.
  { vm_compute. reflexivity. }
  eassert (map_to_list (attr Demo.a_password) = _) as Hlist.
  { vm_compute. reflexivity. }
  destruct (built_dictionary_decodes (H := Demo.platform errSecSuccess [])
              _ _ _ _ Hrun) as (r & Hconv & Hfield & Hport & Hdata).
  - intros key i Hki. apply elem_of_map_to_list in Hki. rewrite Hlist in Hki.
    repeat (apply elem_of_cons in Hki as [[= -> ->]|Hki];
            [split; vm_compute; reflexivity|]).
    exfalso. exact (proj1 (elem_of_nil _) Hki).
  - eexists _, _, r. split; [exact Hrun|]. split; [exact Hconv|].
    split; [|split; [|split]].
    + etrans; [apply (Hfield ServiceKey Service), list_elem_of_here|].
      vm_compute. reflexivity.
    + etrans; [apply (Hfield AccountKey Account);
               do 5 apply list_elem_of_further; apply list_elem_of_here|].
      vm_compute. reflexivity.
    + rewrite Hport. vm_compute. reflexivity.
    + rewrite Hdata. vm_compute. reflexivity.
Defined.

Lemma convertible_attributes_are_built_witness :
  ∃ cfDict h1,
    cfDict ≠ 0 ∧
    ConvertMapToCFDictionary (H := Demo.platform errSecSuccess []) (attr Demo.a_password)
      constants = Returns (cfDict, None) h1.
Proof.
  eassert (map_to_list (attr Demo.a_password) = _) as Hlist.
  { vm_compute. reflexivity. }
  apply (convertible_attributes_are_built (H := Demo.platform errSecSuccess [])
           (attr Demo.a_password) constants).
  - intros key i Hki c ->. apply elem_of_map_to_list in Hki. rewrite Hlist in Hki.
    repeat (apply elem_of_cons in Hki as [Heq|Hki]; [discriminate Heq|]).
    exact (proj1 (elem_of_nil _) Hki).
  - intros key r Hki. apply elem_of_map_to_list in Hki. rewrite Hlist in Hki.
    repeat (apply elem_of_cons in Hki as [Heq|Hki];
            [first [discriminate Heq
                   | injection Heq as _ ->; eexists; vm_compute; reflexivity]|]).
    exfalso. exact (proj1 (elem_of_nil _) Hki).
  - intros key b Hki. split; eexists; vm_compute; reflexivity.
  - intros key i Hki. apply elem_of_map_to_list in Hki. rewrite Hlist in Hki.
    repeat (apply elem_of_cons in Hki as [[= -> ->]|Hki];
            [split; vm_compute; reflexivity|]).
    exfalso. exact (proj1 (elem_of_nil _) Hki).
Defined.

